(** * valkey-search: indexing and query subsystem

    A shallow embedding of the parts of the repository that the
    specification's testable properties are about:

    - [FtSearch]    reply serialization of FT.SEARCH (src/commands/ft_search.cc)
    - [VectorBase]  key tracking, reply construction and the pre-filter heap
                    of the vector indexes (src/indexes/vector_base.cc)
    - [VectorFlat]  the brute-force index (src/indexes/vector_flat.cc)
    - [Numeric]     the ordered map and range counter of the numeric index
                    (src/indexes/numeric.h)
    - [Client]      the retry configuration of the fan-out RPC client
                    (src/coordinator/client.cc)
    - [FileStream]  the file streams of the kernel
                    (src/third_party/hnswlib/iostream.h)

    Part III covers more of these files: reading a record back, the info
    reply, vectors written as text, the framing of the replies.

    Conventions.  A C++ [float] is a primitive float (every binary32 value
    is a binary64 value and the comparisons agree).  [uint64_t] and [size_t]
    counters are [N] with the reduction modulo [2^64] written out.  An
    [absl::flat_hash_map] is a [gmap], an [absl::flat_hash_set] a [gset].
    [absl::StatusOr<T>] is [StatusOr T].  A mutating member function takes the
    object and returns the new object next to its result. *)

From Stdlib Require Import ZArith NArith List String Ascii Floats DecimalString.
From stdpp Require Import gmap strings list fin_maps gmultiset sorting.

(* ===================================================================== *)
(** * Part I.  The embedding                                              *)
(* ===================================================================== *)

(** ** absl::Status *)

Inductive StatusCode : Set :=
| kInvalidArgument
| kNotFound
| kInternal.

Inductive StatusOr (A : Type) : Type :=
| Ok (a : A)
| Error (code : StatusCode) (message : string).
Arguments Ok {A} a.
Arguments Error {A} code message.

Definition ok {A} (r : StatusOr A) : bool :=
  match r with Ok _ => true | Error _ _ => false end.

Definition status_code {A} (r : StatusOr A) : option StatusCode :=
  match r with Ok _ => None | Error c _ => Some c end.

(** [absl::Status] is a [StatusOr] without a value. *)
Abbreviation Status := (StatusOr unit).
Abbreviation OkStatus := (Ok tt).

(** ** indexes::Neighbor

    [attribute_contents] is the optional record map filled by
    [ProcessNeighborsForReply]; its entries are (identifier, value) in the
    map's iteration order. *)
Record Neighbor : Type := {
  external_id : string;
  distance : float;
  attribute_contents : option (list (string * string));
}.

(** ** FT.SEARCH reply serialization (src/commands/ft_search.cc)

    Positions and counts are [nat]: every sum the code forms is at most
    twice the length of the neighbor list, so [size_t] does not wrap. *)

Module FtSearch.

Record LimitParameter : Set := {
  first_index : nat;
  number : nat;
}.

Record ReturnAttribute : Set := {
  identifier : string;
  alias : string;
}.

Record VectorSearchParameters : Set := {
  k : nat;
  limit : LimitParameter;
  no_content : bool;
  return_attributes : list ReturnAttribute;
  score_as : string;
}.

(** The calls made on the module context, in order. *)
Inductive Reply : Type :=
| ReplyWithArray (len : nat)
| ReplyWithPostponedArray
| ReplySetArrayLength (len : nat)
| ReplyWithLongLong (n : nat)
| ReplyWithString (s : string)
| ReplyWithFormattedScore (d : float)   (* StrFormat("%.12g", d) *)
| ReplyWithError (message : string).

(** How a serialization run ends.  [std::deque::operator[]] beyond the
    end is undefined behaviour: the run stops there and reports the index
    it asked for and the size of the deque. *)
Inductive Outcome (A : Type) : Type :=
| Done (a : A)
| OutOfRange (i size : nat)
| BadOptionalAccess
| CheckFailed.
Arguments Done {A} a.
Arguments OutOfRange {A} i size.
Arguments BadOptionalAccess {A}.
Arguments CheckFailed {A}.

#[global] Instance outcome_bind : MBind Outcome := fun A B f m =>
  match m with
  | Done a => f a
  | OutOfRange i n => OutOfRange i n
  | BadOptionalAccess => BadOptionalAccess
  | CheckFailed => CheckFailed
  end.

(** [neighbors[i]] *)
Definition at_index (neighbors : list Neighbor) (i : nat) : Outcome Neighbor :=
  match neighbors !! i with
  | Some n => Done n
  | None => OutOfRange i (length neighbors)
  end.

(** [attribute_contents.value()] *)
Definition value (n : Neighbor) : Outcome (list (string * string)) :=
  match attribute_contents n with
  | Some c => Done c
  | None => BadOptionalAccess
  end.

(** [for (auto i = start_index; i < end_index; ++i) body(i)], with
    [count = end_index - start_index] iterations left. *)
Fixpoint for_each_index (i count : nat) (body : nat -> Outcome (list Reply))
  : Outcome (list Reply) :=
  match count with
  | O => Done []
  | S count' =>
      r ← body i;
      rest ← for_each_index (S i) count' body;
      Done (r ++ rest)
  end.

Definition ReplyAvailNeighbors (neighbors : list Neighbor)
    (parameters : VectorSearchParameters) : list Reply :=
  [ReplyWithLongLong (Nat.min (length neighbors) (k parameters))].

Definition CalcEndIndex (neighbors : list Neighbor)
    (parameters : VectorSearchParameters) : nat :=
  Nat.min (k parameters)
          (Nat.min (number (limit parameters)) (length neighbors)).

Definition CalcStartIndex (neighbors : list Neighbor)
    (parameters : VectorSearchParameters) : Outcome nat :=
  if first_index (limit parameters) <? k parameters then
    if length neighbors <=? first_index (limit parameters)
    then Done (length neighbors)
    else Done (first_index (limit parameters))
  else CheckFailed.

Definition SendReplyNoContent (neighbors : list Neighbor)
    (parameters : VectorSearchParameters) : Outcome (list Reply) :=
  start_index ← CalcStartIndex neighbors parameters;
  let end_index := start_index + CalcEndIndex neighbors parameters in
  rows ← for_each_index start_index (end_index - start_index)
            (fun i => n ← at_index neighbors i;
                      Done [ReplyWithString (external_id n)]);
  Done (ReplyWithArray (end_index - start_index + 1)
          :: ReplyAvailNeighbors neighbors parameters ++ rows).

Definition ReplyScore (score_as : string) (neighbor : Neighbor) : list Reply :=
  [ReplyWithString score_as; ReplyWithFormattedScore (distance neighbor)].

(** The loop over [parameters.return_attributes] for one neighbor: the
    replies it sends and the number of pairs it counted.  The contents of
    the neighbor are asked for only by an attribute that is not the
    score. *)
Fixpoint reply_return_attributes (score_as : string) (neighbor : Neighbor)
    (attrs : list ReturnAttribute) : Outcome (list Reply * nat) :=
  match attrs with
  | [] => Done ([], 0)
  | return_attribute :: attrs' =>
      if String.eqb score_as (identifier return_attribute) then
        '(rest, cnt) ← reply_return_attributes score_as neighbor attrs';
        Done (ReplyScore score_as neighbor ++ rest, S cnt)
      else
        contents ← value neighbor;
        '(rest, cnt) ← reply_return_attributes score_as neighbor attrs';
        match List.find
                (fun e => String.eqb (fst e) (identifier return_attribute))
                contents with
        | Some it =>
            Done (ReplyWithString (alias return_attribute)
                    :: ReplyWithString (snd it) :: rest, S cnt)
        | None => Done (rest, cnt)
        end
  end.

(** The body of the loop of [SerializeNeighbors] for one neighbor. *)
Definition serialize_row (parameters : VectorSearchParameters)
    (n : Neighbor) : Outcome (list Reply) :=
  match return_attributes parameters with
  | [] =>
      contents ← value n;
      Done (ReplyWithString (external_id n)
            :: ReplyWithArray (2 * length contents + 2)
            :: ReplyScore (score_as parameters) n
            ++ flat_map (fun e => [ReplyWithString (fst e);
                                   ReplyWithString (snd e)]) contents)
  | attrs =>
      '(sent, cnt) ← reply_return_attributes (score_as parameters) n attrs;
      Done (ReplyWithString (external_id n)
            :: ReplyWithPostponedArray
            :: sent ++ [ReplySetArrayLength (2 * cnt)])
  end.

Definition SerializeNeighbors (neighbors : list Neighbor)
    (parameters : VectorSearchParameters) : Outcome (list Reply) :=
  if first_index (limit parameters) <? k parameters then
    start_index ← CalcStartIndex neighbors parameters;
    let end_index := start_index + CalcEndIndex neighbors parameters in
    rows ← for_each_index start_index (end_index - start_index)
              (fun i => n ← at_index neighbors i;
                        serialize_row parameters n);
    Done (ReplyWithArray (2 * (end_index - start_index) + 1)
            :: ReplyAvailNeighbors neighbors parameters ++ rows)
  else CheckFailed.

(** [SendReply].  [GetIdentifier] is the schema's answer for the vector
    attribute alias and [ProcessNeighborsForReply] the content fetch of
    query/response_generator; both are outside these sources and are taken
    as given. *)
Definition SendReply
    (GetIdentifier : StatusOr string)
    (ProcessNeighborsForReply : list Neighbor -> list Neighbor)
    (neighbors : list Neighbor) (parameters : VectorSearchParameters)
  : Outcome (list Reply) :=
  if (k parameters <=? first_index (limit parameters))
     || (number (limit parameters) =? 0) then
    Done [ReplyWithArray 1; ReplyWithLongLong (length neighbors)]
  else if no_content parameters then
    SendReplyNoContent neighbors parameters
  else
    match GetIdentifier with
    | Error _ message => Done [ReplyWithError message]
    | Ok _ =>
        SerializeNeighbors (ProcessNeighborsForReply neighbors) parameters
    end.

(** The positions of the neighbor list that the reply loops visit. *)
Definition visited_positions (neighbors : list Neighbor)
    (parameters : VectorSearchParameters) : list nat :=
  match CalcStartIndex neighbors parameters with
  | Done start_index =>
      List.seq start_index (CalcEndIndex neighbors parameters)
  | _ => []
  end.

End FtSearch.

(** ** std::priority_queue<std::pair<float, labeltype>>

    The queue is kept as the list of its elements in the order in which
    [pop] hands them out: largest first under [std::less] on pairs.  The
    list stands for the queue as long as the comparison orders the
    elements, which [std::priority_queue] requires of it; it does when no
    distance is a NaN. *)

Module PriorityQueue.

Definition value_type : Type := float * N.
Definition t : Type := list value_type.

(** [operator<] of [std::pair<float, labeltype>].  The sources are C++20
    (the designated initializers of vector_base.cc), where pairs compare
    through [operator<=>]: the labels decide between equal distances only,
    and with an unordered distance (a NaN) neither pair is below the
    other. *)
Definition less (a b : value_type) : bool :=
  PrimFloat.ltb a.1 b.1 || (PrimFloat.eqb a.1 b.1 && (a.2 <? b.2)%N).

Definition empty : t := [].

Fixpoint emplace (x : value_type) (q : t) : t :=
  match q with
  | [] => [x]
  | y :: q' => if less x y then y :: emplace x q' else x :: q
  end.

Definition top (q : t) : option value_type := head q.
Definition pop (q : t) : t := tail q.
Definition size (q : t) : nat := length q.

(** The queue holding the given elements. *)
Definition of_list (l : list value_type) : t := foldr emplace empty l.

End PriorityQueue.

(** ** Vector indexes: the shared base (src/indexes/vector_base.cc) *)

Definition kDefaultMagnitude : float := (-1)%float.

(** [std::numeric_limits<float>::lowest()] *)
Definition float_lowest : float := (-0x1.fffffep+127)%float.

Definition uint64_modulus : N := 2 ^ 64.

(** [x + y] in [uint64_t] *)
Definition uint64_add (x y : N) : N := ((x + y) mod uint64_modulus)%N.

Record TrackedKeyMetadata : Type := {
  internal_id : N;
  magnitude : float;
}.

(** [emplace]/[insert] of a hash map: an existing entry is kept. *)
Definition hash_map_insert `{Countable Key} {V : Type}
    (key : Key) (v : V) (m : gmap Key V) : gmap Key V * bool :=
  match m !! key with
  | Some _ => (m, false)
  | None => (<[key := v]> m, true)
  end.

(** [NormalizeEmbedding(record, type_size, &magnitude)]: the unit vector and
    the norm of [record].  Its float32 arithmetic is not reproduced; the
    function is taken as given. *)
Class Embedding : Type := {
  NormalizeEmbedding : string -> N -> string * float;
}.

(** [GetDataTypeSize()]: [sizeof(T)] of the index's element type. *)
Class VectorDataType : Type := {
  GetDataTypeSize : N;
}.

(** The pure virtual members of [VectorBase] that a concrete index
    supplies.  [_ModifyRecord] is handed [dimensions_], which the derived
    class reads from its base.  [_AddRecord] may fail to return ([None]):
    the flat index retries in a loop. *)
Class VectorImpl (K : Type) : Type := {
  _AddRecord : K -> N -> string -> option (Status * K);
  _ModifyRecord : N -> K -> N -> string -> StatusOr bool * K;
  _RemoveRecord : K -> N -> Status * K;
  _ComputeDistanceFromRecord : K -> N -> string -> StatusOr (float * N);
  TrackVector : K -> N -> string -> K;
  UnTrackVector : K -> N -> K;
}.

Record VectorBase (K : Type) : Type := mkVectorBase {
  dimensions_ : N;
  normalize_ : bool;
  inc_id_ : N;
  tracked_metadata_by_key_ : gmap string TrackedKeyMetadata;
  key_by_internal_id_ : gmap N string;
  impl_ : K;
}.
Arguments mkVectorBase {K}.
Arguments dimensions_ {K}.
Arguments normalize_ {K}.
Arguments inc_id_ {K}.
Arguments tracked_metadata_by_key_ {K}.
Arguments key_by_internal_id_ {K}.
Arguments impl_ {K}.

(** An entry of the [TrackedKeys] message of a snapshot. *)
Record TrackedKeyProto : Type := {
  proto_key : string;
  proto_internal_id : N;
  proto_magnitude : float;
}.

(** What an RDB input stream hands out, one item per load call. *)
Inductive RdbItem : Type :=
| RdbSizeT (n : N)
| RdbString (s : string).

Section VectorBase.
Context {K : Type} `{!VectorDataType} `{!VectorImpl K} `{!Embedding}.

Implicit Types (v : VectorBase K) (key record query vector : string).

Definition with_impl v (k' : K) : VectorBase K :=
  mkVectorBase (dimensions_ v) (normalize_ v) (inc_id_ v)
    (tracked_metadata_by_key_ v) (key_by_internal_id_ v) k'.

Definition with_inc_id v (n : N) : VectorBase K :=
  mkVectorBase (dimensions_ v) (normalize_ v) n
    (tracked_metadata_by_key_ v) (key_by_internal_id_ v) (impl_ v).

Definition with_tracked_metadata v (m : gmap string TrackedKeyMetadata)
  : VectorBase K :=
  mkVectorBase (dimensions_ v) (normalize_ v) (inc_id_ v)
    m (key_by_internal_id_ v) (impl_ v).

Definition with_key_by_internal_id v (m : gmap N string) : VectorBase K :=
  mkVectorBase (dimensions_ v) (normalize_ v) (inc_id_ v)
    (tracked_metadata_by_key_ v) m (impl_ v).

(** The index as its constructor leaves it. *)
Definition Create (dimensions : N) (normalize : bool) (impl : K)
  : VectorBase K :=
  mkVectorBase dimensions normalize 0%N ∅ ∅ impl.

(** Modelled from the spec: [IsValidSizeVector] is declared in
    vector_base.h, which is not among the sources; a payload is float32
    of length [dimensions × 4] (the data type size). *)
Definition IsValidSizeVector v record : bool :=
  (N.of_nat (String.length record) =? dimensions_ v * GetDataTypeSize)%N.

(** [InternVector]: [None] is the null pointer; otherwise the interned
    bytes and the magnitude the call stored, if any. *)
Definition InternVector v record : option (string * option float) :=
  if negb (IsValidSizeVector v record) then None
  else if normalize_ v then
    let '(norm_record, magnitude) := NormalizeEmbedding record GetDataTypeSize in
    Some (norm_record, Some magnitude)
  else Some (record, None).

Definition value_or (magnitude : option float) (d : float) : float :=
  match magnitude with Some m => m | None => d end.

Definition GetInternalId v key : StatusOr N :=
  match tracked_metadata_by_key_ v !! key with
  | None => Error kInvalidArgument "Record was not found"
  | Some md => Ok (internal_id md)
  end.

Definition GetInternalIdDuringSearch v key : StatusOr N :=
  match tracked_metadata_by_key_ v !! key with
  | None => Error kInvalidArgument "Record was not found"
  | Some md => Ok (internal_id md)
  end.

Definition GetKeyDuringSearch v (internal_id : N) : StatusOr string :=
  match key_by_internal_id_ v !! internal_id with
  | None => Error kInvalidArgument "Record was not found"
  | Some key => Ok key
  end.

Definition IsTracked v key : bool :=
  bool_decide (is_Some (tracked_metadata_by_key_ v !! key)).

Definition GetRecordCount v : nat := size (key_by_internal_id_ v).

Definition TrackKey v key (magnitude : float) vector
  : StatusOr N * VectorBase K :=
  if String.eqb key "" then
    (Error kInvalidArgument "key can't be empty", v)
  else
    let id := inc_id_ v in
    let v := with_inc_id v (uint64_add id 1) in
    let '(m, succ) :=
      hash_map_insert key {| internal_id := id; magnitude := magnitude |}
        (tracked_metadata_by_key_ v) in
    let v := with_tracked_metadata v m in
    let v := with_impl v (TrackVector (impl_ v) id vector) in
    if negb succ then
      (Error kInvalidArgument ("Embedding id already exists: " ++ key), v)
    else
      (Ok id,
       with_key_by_internal_id v
         (hash_map_insert id key (key_by_internal_id_ v)).1).

Definition UnTrackKey v key : StatusOr (option N) * VectorBase K :=
  if String.eqb key "" then (Ok None, v)
  else
    match tracked_metadata_by_key_ v !! key with
    | None => (Ok None, v)
    | Some md =>
        let id := internal_id md in
        let v := with_impl v (UnTrackVector (impl_ v) id) in
        let v := with_tracked_metadata v
                   (delete key (tracked_metadata_by_key_ v)) in
        match key_by_internal_id_ v !! id with
        | None =>
            (Error kInvalidArgument
               "Error while untracking key - key was not found in key_by_internal_id_ but in internal_by_key_",
             v)
        | Some _ =>
            (Ok (Some id),
             with_key_by_internal_id v (delete id (key_by_internal_id_ v)))
        end
    end.

Definition UpdateMetadata v key (magnitude : float) vector
  : Status * VectorBase K :=
  if String.eqb key "" then
    (Error kInvalidArgument "key can't be empty", v)
  else
    match tracked_metadata_by_key_ v !! key with
    | None =>
        (Error kInvalidArgument ("Embedding id not found: " ++ key), v)
    | Some md =>
        let v := with_tracked_metadata v
                   (<[key := {| internal_id := internal_id md;
                                magnitude := magnitude |}]>
                      (tracked_metadata_by_key_ v)) in
        (OkStatus,
         with_impl v (TrackVector (impl_ v) (internal_id md) vector))
    end.

Definition RemoveRecord v key : StatusOr bool * VectorBase K :=
  match UnTrackKey v key with
  | (Error c m, v) => (Error c m, v)
  | (Ok None, v) => (Ok false, v)
  | (Ok (Some id), v) =>
      let '(st, k') := _RemoveRecord (impl_ v) id in
      match st with
      | Error c m => (Error c m, with_impl v k')
      | Ok _ => (Ok true, with_impl v k')
      end
  end.

Definition AddRecord v key record : option (StatusOr bool * VectorBase K) :=
  match InternVector v record with
  | None => Some (Ok false, v)
  | Some (interned_vector, magnitude) =>
      match TrackKey v key (value_or magnitude kDefaultMagnitude)
              interned_vector with
      | (Error c m, v) => Some (Error c m, v)
      | (Ok internal_id, v) =>
          '(add_result, k') ←
            _AddRecord (impl_ v) internal_id interned_vector;
          let v := with_impl v k' in
          match add_result with
          | Error c m => Some (Error c m, (UnTrackKey v key).2)
          | Ok _ => Some (Ok true, v)
          end
      end
  end.

Definition ModifyRecord v key record : StatusOr bool * VectorBase K :=
  match InternVector v record with
  | None => (Ok false, (RemoveRecord v key).2)
  | Some (interned_vector, magnitude) =>
      match GetInternalId v key with
      | Error c m => (Error c m, v)
      | Ok internal_id =>
          match UpdateMetadata v key (value_or magnitude kDefaultMagnitude)
                  interned_vector with
          | (Error c m, v) => (Error c m, v)
          | (Ok _, v) =>
              let '(modify_result, k') :=
                _ModifyRecord (dimensions_ v) (impl_ v) internal_id
                  interned_vector in
              let v := with_impl v k' in
              match modify_result with
              | Error _ _ => (modify_result, (UnTrackKey v key).2)
              | Ok _ => (modify_result, v)
              end
          end
      end
  end.

(** [CreateReply]: the loop pops the queue until it is empty; [ret] is
    the deque built so far. *)
Fixpoint CreateReply_loop v (knn_res : PriorityQueue.t) (ret : list Neighbor)
  : list Neighbor :=
  match knn_res with
  | [] => ret
  | ele :: knn_res' =>
      match GetKeyDuringSearch v ele.2 with
      | Error _ _ => CreateReply_loop v knn_res' ret
      | Ok vector_key =>
          CreateReply_loop v knn_res'
            (ret ++ [{| external_id := vector_key; distance := ele.1;
                        attribute_contents := None |}])
      end
  end.

Definition CreateReply v (knn_res : PriorityQueue.t)
  : StatusOr (list Neighbor) :=
  Ok (CreateReply_loop v knn_res []).

Definition ComputeDistanceFromRecord v key query : StatusOr (float * N) :=
  match GetInternalIdDuringSearch v key with
  | Error c m => Error c m
  | Ok internal_id => _ComputeDistanceFromRecord (impl_ v) internal_id query
  end.

(** [AddPrefilteredKey].  [results.top()] on an empty queue is undefined
    (it is asked for only when [count] is 0): the result is [None]. *)
Definition AddPrefilteredKey v query (count : nat) key
    (results : PriorityQueue.t) (top_keys : gset N)
  : option (PriorityQueue.t * gset N) :=
  match ComputeDistanceFromRecord v key query with
  | Error _ _ => Some (results, top_keys)
  | Ok result =>
      if bool_decide (result.2 ∈ top_keys) then Some (results, top_keys)
      else if PriorityQueue.size results <? count then
        Some (PriorityQueue.emplace result results, {[result.2]} ∪ top_keys)
      else
        match PriorityQueue.top results with
        | None => None
        | Some top =>
            if (result.1 <? top.1)%float then
              Some (PriorityQueue.emplace result (PriorityQueue.pop results),
                    {[result.2]} ∪ (top_keys ∖ {[top.2]}))
            else Some (results, top_keys)
        end
  end.

(** [LoadTrackedKeys].  [ExternalizeVector] registers the key with the
    externalizer and leaves the index alone; it is left out. *)
Definition LoadTrackedKeys_step v (tk : TrackedKeyProto) : VectorBase K :=
  let v := with_tracked_metadata v
             (hash_map_insert (proto_key tk)
                {| internal_id := proto_internal_id tk;
                   magnitude := proto_magnitude tk |}
                (tracked_metadata_by_key_ v)).1 in
  let v := with_key_by_internal_id v
             (hash_map_insert (proto_internal_id tk) (proto_key tk)
                (key_by_internal_id_ v)).1 in
  with_inc_id v (N.max (inc_id_ v) (proto_internal_id tk)).

Definition LoadTrackedKeys v (tracked_keys : list TrackedKeyProto)
  : Status * VectorBase K :=
  let v := foldl LoadTrackedKeys_step v tracked_keys in
  (OkStatus, with_inc_id v (uint64_add (inc_id_ v) 1)).

Definition loadSizeT (rdb_stream : list RdbItem)
  : StatusOr (N * list RdbItem) :=
  match rdb_stream with
  | RdbSizeT n :: rest => Ok (n, rest)
  | _ => Error kInternal "loadSizeT"
  end.

Definition loadString (rdb_stream : list RdbItem)
  : StatusOr (string * list RdbItem) :=
  match rdb_stream with
  | RdbString s :: rest => Ok (s, rest)
  | _ => Error kInternal "loadString"
  end.

(** The loop of [LoadKeysAndInternalIds], [keys_left] iterations to go. *)
Fixpoint LoadKeysAndInternalIds_loop (keys_left : nat) v
    (rdb_stream : list RdbItem) : Status * VectorBase K :=
  match keys_left with
  | O => (OkStatus, with_inc_id v (uint64_add (inc_id_ v) 1))
  | S keys_left' =>
      match loadSizeT rdb_stream with
      | Error c m => (Error c "Error loading id", v)
      | Ok (id, rdb_stream) =>
          match loadString rdb_stream with
          | Error c m => (Error c "Error loading key", v)
          | Ok (key, rdb_stream) =>
              let v := with_key_by_internal_id v
                         (hash_map_insert id key (key_by_internal_id_ v)).1 in
              let v := with_tracked_metadata v
                         (hash_map_insert key
                            {| internal_id := id;
                               magnitude := if normalize_ v then float_lowest
                                            else (-1)%float |}
                            (tracked_metadata_by_key_ v)).1 in
              let v := with_inc_id v (N.max (inc_id_ v) id) in
              LoadKeysAndInternalIds_loop keys_left' v rdb_stream
          end
      end
  end.

Definition LoadKeysAndInternalIds v (rdb_stream : list RdbItem)
  : Status * VectorBase K :=
  match loadSizeT rdb_stream with
  | Error c m => (Error c "Error loading keys count", v)
  | Ok (keys_count, rdb_stream) =>
      LoadKeysAndInternalIds_loop (N.to_nat keys_count) v rdb_stream
  end.

(** The [tracked_key_metadata] entries written by [ToProto]. *)
Definition ToProto_tracked_keys v : list TrackedKeyProto :=
  (fun e => {| proto_key := e.1;
               proto_internal_id := internal_id e.2;
               proto_magnitude := magnitude e.2 |})
    <$> map_to_list (tracked_metadata_by_key_ v).

End VectorBase.

(** ** The flat index (src/indexes/vector_flat.cc) *)

(** What a call into the kernel does: return, or throw [std::exception]. *)
Inductive Try (A : Type) : Type :=
| Returns (a : A)
| Throws (what : string).
Arguments Returns {A} a.
Arguments Throws {A} what.

(** Modelled from the spec: [hnswlib::BruteforceSearch]
    (third_party/hnswlib/bruteforce.h) is not among the sources.  The record
    has the members vector_flat.cc reads: the capacity, the element count,
    the label-to-slot dictionary and the slots, each holding the vector
    its pointer refers to and the label stored behind it. *)
Record BruteforceSearch : Type := mkBruteforceSearch {
  maxelements_ : N;
  cur_element_count_ : N;
  dict_external_to_internal : gmap N nat;
  data_ : list (string * N);
}.

(** Modelled from the spec: the member functions of the kernel, "specified
    as a capability" and taken as given. *)
Class BruteforceKernel : Type := {
  addPoint : BruteforceSearch -> string -> N -> Try BruteforceSearch;
  removePoint : BruteforceSearch -> N -> Try BruteforceSearch;
  resizeIndex : BruteforceSearch -> N -> BruteforceSearch;
  searchKnn : BruteforceSearch -> string -> N -> option (N -> bool)
              -> Try PriorityQueue.t;
  fstdistfunc_ : string -> string -> float;
}.

Record VectorFlat : Type := mkVectorFlat {
  block_size_ : N;
  algo_ : BruteforceSearch;
  tracked_vectors_ : gmap N string;
}.

(** [template class VectorFlat<float>] *)
#[global] Instance float32 : VectorDataType := {| GetDataTypeSize := 4 |}.

Definition N_to_string (n : N) : string :=
  NilZero.string_of_uint (N.to_uint n).

(** [absl::StrContains(haystack, needle)] *)
Definition StrContains (haystack needle : string) : bool :=
  match String.index 0 needle haystack with Some _ => true | None => false end.

Module Flat.
Section Flat.
Context `{!BruteforceKernel} `{!Embedding}.

Implicit Types (flat : VectorFlat).

Definition with_algo flat (a : BruteforceSearch) : VectorFlat :=
  mkVectorFlat (block_size_ flat) a (tracked_vectors_ flat).

Definition GetCapacity flat : N := maxelements_ (algo_ flat).

Definition TrackVector flat (internal_id : N) (vector : string) : VectorFlat :=
  mkVectorFlat (block_size_ flat) (algo_ flat)
    (<[internal_id := vector]> (tracked_vectors_ flat)).

Definition UnTrackVector flat (internal_id : N) : VectorFlat :=
  mkVectorFlat (block_size_ flat) (algo_ flat)
    (delete internal_id (tracked_vectors_ flat)).

Definition ResizeIfFull flat : Status * VectorFlat :=
  if (cur_element_count_ (algo_ flat) <? GetCapacity flat)%N then
    (OkStatus, flat)
  else if (cur_element_count_ (algo_ flat) =? GetCapacity flat)%N then
    (OkStatus,
     with_algo flat
       (resizeIndex (algo_ flat)
          (uint64_add (GetCapacity flat) (block_size_ flat))))
  else (OkStatus, flat).

(** [AddRecordImpl]: the [do ... while (true)] loop, with [rounds]
    passes allowed; [None] when they are used up. *)
Fixpoint AddRecordImpl (rounds : nat) flat (internal_id : N)
    (record : string) : option (Status * VectorFlat) :=
  match rounds with
  | O => None
  | S rounds' =>
      match addPoint (algo_ flat) record internal_id with
      | Returns a => Some (OkStatus, with_algo flat a)
      | Throws what =>
          if StrContains what
               "The number of elements exceeds the specified limit" then
            match ResizeIfFull flat with
            | (Error c m, flat) => Some (Error c m, flat)
            | (Ok _, flat) => AddRecordImpl rounds' flat internal_id record
            end
          else
            Some (Error kInternal ("Error while adding a record: " ++ what),
                  flat)
      end
  end.

(** The bytes behind the pointer of a slot, read as
    [string_view(pointer, dimensions_ * sizeof(T))]. *)
Definition saved_record (dimensions : N) flat (slot : nat) : string :=
  String.substring 0 (N.to_nat (dimensions * GetDataTypeSize))
    (data_ (algo_ flat) !!! slot).1.

Definition ModifyRecordImpl (dimensions : N) flat (internal_id : N)
    (record : string) : StatusOr bool * VectorFlat :=
  match dict_external_to_internal (algo_ flat) !! internal_id with
  | None =>
      (Error kInternal
         ("Couldn't find internal id: " ++ N_to_string internal_id), flat)
  | Some found =>
      if String.eqb (saved_record dimensions flat found) record then
        (Ok false, flat)
      else
        (Ok true,
         with_algo flat
           (mkBruteforceSearch
              (maxelements_ (algo_ flat)) (cur_element_count_ (algo_ flat))
              (dict_external_to_internal (algo_ flat))
              (<[found := (record, internal_id)]> (data_ (algo_ flat)))))
  end.

Definition RemoveRecordImpl flat (internal_id : N) : Status * VectorFlat :=
  match removePoint (algo_ flat) internal_id with
  | Returns a => (OkStatus, with_algo flat a)
  | Throws what =>
      (Error kInternal ("Error while removing a FLAT record: " ++ what),
       flat)
  end.

Definition ComputeDistanceFromRecordImpl flat (internal_id : N)
    (query : string) : StatusOr (float * N) :=
  match dict_external_to_internal (algo_ flat) !! internal_id with
  | None =>
      Error kInternal
        ("Couldn't find internal id: " ++ N_to_string internal_id)
  | Some search =>
      Ok (fstdistfunc_ query (data_ (algo_ flat) !!! search).1, internal_id)
  end.

(** The flat index as an implementation of the base's virtual members;
    [rounds] bounds the retries of [AddRecordImpl]. *)
Definition impl (rounds : nat) : VectorImpl VectorFlat :=
  Build_VectorImpl VectorFlat
    (AddRecordImpl rounds) ModifyRecordImpl RemoveRecordImpl
    ComputeDistanceFromRecordImpl TrackVector UnTrackVector.

Definition Search (v : VectorBase VectorFlat) (query : string) (count : N)
    (filter : option (N -> bool)) : StatusOr (list Neighbor) :=
  if negb (IsValidSizeVector v query) then
    Error kInvalidArgument
      ("Error parsing vector similarity query: query vector blob size ("
         ++ N_to_string (N.of_nat (String.length query))
         ++ ") does not match index's expected size ("
         ++ N_to_string (dimensions_ v * GetDataTypeSize) ++ ").")
  else
    let perform_search (query : string) : StatusOr PriorityQueue.t :=
      match searchKnn (algo_ (impl_ v)) query
              (N.min count (cur_element_count_ (algo_ (impl_ v)))) filter with
      | Returns q => Ok q
      | Throws what => Error kInternal what
      end in
    if normalize_ v then
      let norm_record := (NormalizeEmbedding query GetDataTypeSize).1 in
      match perform_search norm_record with
      | Error c m => Error c m
      | Ok search_result => CreateReply v search_result
      end
    else
      match perform_search query with
      | Error c m => Error c m
      | Ok search_result => CreateReply v search_result
      end.

End Flat.
End Flat.

(** ** The numeric index (src/indexes/numeric.h)

    The index orders and compares its [double] values and does nothing
    else with them.  Non-finite input is rejected before it reaches the
    index, and finite doubles are totally ordered, so a value is
    represented by an integer carrying the same order. *)

Module Numeric.

(** The bounds test of a range [start .. end] with either end open or
    closed. *)
Definition in_range (start end_ : Z) (start_inclusive end_inclusive : bool)
    (x : Z) : bool :=
  (if start_inclusive then (start <=? x)%Z else (start <? x)%Z)
  && (if end_inclusive then (x <=? end_)%Z else (x <? end_)%Z).

(** Modelled from the spec: [utils::SegmentTree] (src/utils/segment_tree.h)
    is not among the sources.  It is "a segment tree over the multiset of
    values supporting count(lo, hi, lo_inclusive, hi_inclusive)": the
    multiset of the values added and not yet removed, and the number of
    them within the bounds. *)
Module SegmentTree.
Abbreviation t := (gmultiset Z).
Definition Add (key : Z) (st : t) : t := st ⊎ {[+ key +]}.
Definition Remove (key : Z) (st : t) : t := st ∖ {[+ key +]}.
Definition Count (st : t) (start end_ : Z)
    (start_inclusive end_inclusive : bool) : nat :=
  length (List.filter (in_range start end_ start_inclusive end_inclusive)
            (elements st)).
End SegmentTree.

(** [BTreeNumericIndex<InternedStringPtr>]: [btree_] maps a value to the
    set of keys holding it. *)
Record BTreeNumericIndex : Type := mkBTreeNumericIndex {
  btree_ : gmap Z (gset string);
  segment_tree_ : gmultiset Z;
}.

Definition empty : BTreeNumericIndex := mkBTreeNumericIndex ∅ ∅.

(** [btree_[key]] read: the set stored at [key], empty when the entry is
    created by the access. *)
Definition at_key (btree : gmap Z (gset string)) (key : Z) : gset string :=
  default ∅ (btree !! key).

Definition Add (value : string) (key : Z) (idx : BTreeNumericIndex)
  : BTreeNumericIndex :=
  mkBTreeNumericIndex
    (<[key := {[value]} ∪ at_key (btree_ idx) key]> (btree_ idx))
    (SegmentTree.Add key (segment_tree_ idx)).

Definition Remove (value : string) (key : Z) (idx : BTreeNumericIndex)
  : BTreeNumericIndex :=
  let btree := <[key := at_key (btree_ idx) key ∖ {[value]}]> (btree_ idx) in
  let btree :=
    if decide (at_key btree key = ∅) then delete key btree else btree in
  mkBTreeNumericIndex btree (SegmentTree.Remove key (segment_tree_ idx)).

Definition Modify (value : string) (old_key new_key : Z)
    (idx : BTreeNumericIndex) : BTreeNumericIndex :=
  Add value new_key (Remove value old_key idx).

Definition GetCount (idx : BTreeNumericIndex) (start end_ : Z)
    (start_inclusive end_inclusive : bool) : nat :=
  SegmentTree.Count (segment_tree_ idx) start end_
    start_inclusive end_inclusive.

Definition entry_le (a b : Z * gset string) : Prop := (a.1 <= b.1)%Z.

#[export] Instance entry_le_dec : RelDecision entry_le.
Proof. intros a b. unfold entry_le. apply _. Defined.

(** The entries of the ordered map, smallest value first. *)
Definition entries (btree : gmap Z (gset string)) : list (Z * gset string) :=
  merge_sort entry_le (map_to_list btree).

(** Modelled from the spec: [Numeric::Search] and the iterator of
    [EntriesFetcher] are defined in numeric.cc, which is not among the
    sources.  [iterate_range] "yields keys in ascending value order": the
    keys of the entries whose value lies within the bounds, entry after
    entry. *)
Definition iterate_range (idx : BTreeNumericIndex) (start end_ : Z)
    (start_inclusive end_inclusive : bool) : list string :=
  flat_map (fun e => elements e.2)
    (List.filter
       (fun e => in_range start end_ start_inclusive end_inclusive e.1)
       (entries (btree_ idx))).

(** The states of the index that the numeric attribute index produces: it
    keeps the value of every tracked key ([tracked_keys_]) and adds a key
    that is not tracked, modifies and removes a key at the value it tracks
    for it.  (In [Add], [Modify] and [Remove] the source calls the record's
    key [value] and its number [key].) *)
Inductive reachable : BTreeNumericIndex -> gmap string Z -> Prop :=
| reach_empty : reachable empty ∅
| reach_add idx tracked key value :
    reachable idx tracked ->
    tracked !! key = None ->
    reachable (Add key value idx) (<[key := value]> tracked)
| reach_modify idx tracked key old_value new_value :
    reachable idx tracked ->
    tracked !! key = Some old_value ->
    reachable (Modify key old_value new_value idx)
      (<[key := new_value]> tracked)
| reach_remove idx tracked key value :
    reachable idx tracked ->
    tracked !! key = Some value ->
    reachable (Remove key value idx) (delete key tracked).

End Numeric.

(** ** The fan-out RPC client (src/coordinator/client.cc) *)

Module Client.

(** The double quote, which the C++ literal writes escaped. *)
Definition dquote : ascii := "034"%char.

(** The pieces of the literal are written with an apostrophe where the
    source has an escaped double quote; [cxx] puts the quotes back. *)
Definition cxx (piece : string) : string :=
  string_of_list_ascii
    (List.map (fun c => if Ascii.eqb c "'"%char then dquote else c)
       (list_ascii_of_string piece)).

Definition kRetryPolicy : string :=
  String.concat "" (List.map cxx [
    "{'methodConfig' : [{";
    "   'name' : [{'service': 'valkey_search.coordinator.Coordinator'}],";
    "   'waitForReady': false,";
    "   'retryPolicy': {";
    "     'maxAttempts': 5,";
    "     'initialBackoff': '0.100s',";
    "     'maxBackoff': '1s',";
    "     'backoffMultiplier': 1.0,";
    "     'retryableStatusCodes': [";
    "       'UNAVAILABLE',";
    "       'UNKNOWN',";
    "       'RESOURCE_EXHAUSTED',";
    "       'INTERNAL',";
    "       'DATA_LOSS'";
    "     ]";
    "    }";
    "}]}"
  ]).

(** [grpc::ChannelArguments], as far as [GetChannelArgs] sets it. *)
Record ChannelArguments : Type := {
  service_config_json : string;
  int_args : list (string * Z);
  string_args : list (string * string);
}.

Definition GetChannelArgs : ChannelArguments := {|
  service_config_json := kRetryPolicy;
  int_args := [("GRPC_ARG_MINIMAL_STACK", 1%Z);
               ("GRPC_ARG_TCP_TX_ZEROCOPY_ENABLED", 1%Z)];
  string_args := [("GRPC_ARG_OPTIMIZATION_TARGET", "latency")];
|}.

(** *** JSON text *)

(** A decimal number [mantissa / 10 ^ scale], as written. *)
Record decimal : Set := {
  mantissa : Z;
  scale : nat;
}.

#[warnings="-register-all"]
Inductive json : Type :=
| JNull
| JBool (b : bool)
| JNumber (d : decimal)
| JString (s : string)
| JArray (items : list json)
| JObject (members : list (string * json)).

Definition is_space (c : ascii) : bool :=
  Ascii.eqb c " "%char || Ascii.eqb c "009"%char
  || Ascii.eqb c "010"%char || Ascii.eqb c "013"%char.

Fixpoint skip_ws (s : list ascii) : list ascii :=
  match s with
  | c :: s' => if is_space c then skip_ws s' else s
  | [] => []
  end.

Definition digit_of (c : ascii) : option Z :=
  let n := nat_of_ascii c in
  if (48 <=? n) && (n <=? 57) then Some (Z.of_nat (n - 48)) else None.

(** The digits at the front of [s]: their value appended to [acc], how
    many there were, and the rest. *)
Fixpoint parse_digits (s : list ascii) (acc : Z) (count : nat)
  : Z * nat * list ascii :=
  match s with
  | c :: s' =>
      match digit_of c with
      | Some d => parse_digits s' (acc * 10 + d)%Z (S count)
      | None => (acc, count, s)
      end
  | [] => (acc, count, s)
  end.

(** [-]? digits ([.] digits)? *)
Definition parse_decimal (s : list ascii) : option (decimal * list ascii) :=
  let '(negative, s) :=
    match s with
    | "-"%char :: s' => (true, s')
    | _ => (false, s)
    end in
  let '(int_part, int_count, s) := parse_digits s 0%Z 0 in
  if int_count =? 0 then None
  else
    let '(m, frac_count, s) :=
      match s with
      | "."%char :: s' => parse_digits s' int_part 0
      | _ => (int_part, 0, s)
      end in
    Some ({| mantissa := if negative then (- m)%Z else m;
             scale := frac_count |}, s).

(** The characters of a string up to its closing quote.  Escape
    sequences are not read. *)
Fixpoint parse_string_body (s : list ascii) (acc : list ascii)
  : option (string * list ascii) :=
  match s with
  | [] => None
  | c :: s' =>
      if Ascii.eqb c dquote then
        Some (string_of_list_ascii (rev acc), s')
      else if Ascii.eqb c "\"%char then None
      else parse_string_body s' (c :: acc)
  end.

Definition expect (word : string) (s : list ascii) : option (list ascii) :=
  let w := list_ascii_of_string word in
  if bool_decide (take (length w) s = w) then Some (drop (length w) s)
  else None.

Section Parser.
Variable parse_value : list ascii -> option (json * list ascii).

(** The items of an array after its first item, up to ["]"]. *)
Fixpoint parse_items (fuel : nat) (s : list ascii) (acc : list json)
  : option (json * list ascii) :=
  match fuel with
  | O => None
  | S fuel' =>
      match skip_ws s with
      | "]"%char :: s' => Some (JArray (rev acc), s')
      | ","%char :: s' =>
          match parse_value s' with
          | Some (v, s'') => parse_items fuel' s'' (v :: acc)
          | None => None
          end
      | _ => None
      end
  end.

Definition parse_member (s : list ascii)
  : option (string * json * list ascii) :=
  match skip_ws s with
  | c :: s' =>
      if Ascii.eqb c dquote then
        match parse_string_body s' [] with
        | Some (name, s'') =>
            match skip_ws s'' with
            | ":"%char :: s3 =>
                match parse_value s3 with
                | Some (v, s4) => Some (name, v, s4)
                | None => None
                end
            | _ => None
            end
        | None => None
        end
      else None
  | [] => None
  end.

(** The members of an object after its first member, up to ["}"]. *)
Fixpoint parse_members (fuel : nat) (s : list ascii)
    (acc : list (string * json)) : option (json * list ascii) :=
  match fuel with
  | O => None
  | S fuel' =>
      match skip_ws s with
      | "}"%char :: s' => Some (JObject (rev acc), s')
      | ","%char :: s' =>
          match parse_member s' with
          | Some (name, v, s'') => parse_members fuel' s'' ((name, v) :: acc)
          | None => None
          end
      | _ => None
      end
  end.
End Parser.

Fixpoint parse_value (fuel : nat) (s : list ascii)
  : option (json * list ascii) :=
  match fuel with
  | O => None
  | S fuel' =>
      match skip_ws s with
      | [] => None
      | c :: s' =>
          if Ascii.eqb c "{"%char then
            match skip_ws s' with
            | "}"%char :: s'' => Some (JObject [], s'')
            | _ =>
                match parse_member (parse_value fuel') s' with
                | Some (name, v, s'') =>
                    parse_members (parse_value fuel') fuel' s'' [(name, v)]
                | None => None
                end
            end
          else if Ascii.eqb c "["%char then
            match skip_ws s' with
            | "]"%char :: s'' => Some (JArray [], s'')
            | _ =>
                match parse_value fuel' s' with
                | Some (v, s'') => parse_items (parse_value fuel') fuel' s'' [v]
                | None => None
                end
            end
          else if Ascii.eqb c dquote then
            match parse_string_body s' [] with
            | Some (str, s'') => Some (JString str, s'')
            | None => None
            end
          else if Ascii.eqb c "t"%char then
            s'' ← expect "true" (c :: s'); Some (JBool true, s'')
          else if Ascii.eqb c "f"%char then
            s'' ← expect "false" (c :: s'); Some (JBool false, s'')
          else if Ascii.eqb c "n"%char then
            s'' ← expect "null" (c :: s'); Some (JNull, s'')
          else
            match parse_decimal (c :: s') with
            | Some (d, s'') => Some (JNumber d, s'')
            | None => None
            end
      end
  end.

(** A whole text: one value and nothing but white space after it. *)
Definition parse_json (text : string) : option json :=
  let s := list_ascii_of_string text in
  match parse_value (length s) s with
  | Some (v, rest) =>
      match skip_ws rest with [] => Some v | _ => None end
  | None => None
  end.

Definition member (name : string) (v : json) : option json :=
  match v with
  | JObject members =>
      snd <$> List.find (fun m => String.eqb (fst m) name) members
  | _ => None
  end.

(** *** The retry policy of a service config *)

(** [grpc::StatusCode] *)
Inductive GrpcStatusCode : Set :=
| OK | CANCELLED | UNKNOWN | INVALID_ARGUMENT | DEADLINE_EXCEEDED
| NOT_FOUND | ALREADY_EXISTS | PERMISSION_DENIED | RESOURCE_EXHAUSTED
| FAILED_PRECONDITION | ABORTED | OUT_OF_RANGE | UNIMPLEMENTED
| INTERNAL | UNAVAILABLE | DATA_LOSS | UNAUTHENTICATED.

#[export] Instance GrpcStatusCode_eq_dec : EqDecision GrpcStatusCode.
Proof. solve_decision. Defined.

Definition all_status_codes : list GrpcStatusCode :=
  [OK; CANCELLED; UNKNOWN; INVALID_ARGUMENT; DEADLINE_EXCEEDED;
   NOT_FOUND; ALREADY_EXISTS; PERMISSION_DENIED; RESOURCE_EXHAUSTED;
   FAILED_PRECONDITION; ABORTED; OUT_OF_RANGE; UNIMPLEMENTED;
   INTERNAL; UNAVAILABLE; DATA_LOSS; UNAUTHENTICATED].

Definition status_code_name (c : GrpcStatusCode) : string :=
  match c with
  | OK => "OK" | CANCELLED => "CANCELLED" | UNKNOWN => "UNKNOWN"
  | INVALID_ARGUMENT => "INVALID_ARGUMENT"
  | DEADLINE_EXCEEDED => "DEADLINE_EXCEEDED"
  | NOT_FOUND => "NOT_FOUND" | ALREADY_EXISTS => "ALREADY_EXISTS"
  | PERMISSION_DENIED => "PERMISSION_DENIED"
  | RESOURCE_EXHAUSTED => "RESOURCE_EXHAUSTED"
  | FAILED_PRECONDITION => "FAILED_PRECONDITION"
  | ABORTED => "ABORTED" | OUT_OF_RANGE => "OUT_OF_RANGE"
  | UNIMPLEMENTED => "UNIMPLEMENTED" | INTERNAL => "INTERNAL"
  | UNAVAILABLE => "UNAVAILABLE" | DATA_LOSS => "DATA_LOSS"
  | UNAUTHENTICATED => "UNAUTHENTICATED"
  end.

Definition status_code_of_name (name : string) : option GrpcStatusCode :=
  List.find (fun c => String.eqb (status_code_name c) name) all_status_codes.

(** The [retryPolicy] of a method config, with the durations in
    nanoseconds. *)
Record RetryPolicy : Type := {
  maxAttempts : Z;
  initialBackoff : Z;
  maxBackoff : Z;
  backoffMultiplier : decimal;
  retryableStatusCodes : list GrpcStatusCode;
}.

(** A duration ["<decimal>s"] in nanoseconds; at most nine fractional
    digits. *)
Definition parse_duration (text : string) : option Z :=
  match parse_decimal (list_ascii_of_string text) with
  | Some (d, ["s"%char]) =>
      if scale d <=? 9 then Some (mantissa d * 10 ^ Z.of_nat (9 - scale d))%Z
      else None
  | _ => None
  end.

Definition as_string (v : json) : option string :=
  match v with JString s => Some s | _ => None end.

Definition as_integer (v : json) : option Z :=
  match v with
  | JNumber d => if scale d =? 0 then Some (mantissa d) else None
  | _ => None
  end.

Definition as_decimal (v : json) : option decimal :=
  match v with JNumber d => Some d | _ => None end.

Definition as_array (v : json) : option (list json) :=
  match v with JArray l => Some l | _ => None end.

Definition retry_policy_of (v : json) : option RetryPolicy :=
  attempts ← member "maxAttempts" v ≫= as_integer;
  initial ← (member "initialBackoff" v ≫= as_string) ≫= parse_duration;
  maximum ← (member "maxBackoff" v ≫= as_string) ≫= parse_duration;
  multiplier ← member "backoffMultiplier" v ≫= as_decimal;
  names ← member "retryableStatusCodes" v ≫= as_array;
  codes ← mapM (M := option) (fun n => as_string n ≫= status_code_of_name) names;
  Some {| maxAttempts := attempts; initialBackoff := initial;
          maxBackoff := maximum; backoffMultiplier := multiplier;
          retryableStatusCodes := codes |}.

(** A method config: the services it names and its retry policy. *)
Record MethodConfig : Type := {
  services : list string;
  retryPolicy : RetryPolicy;
}.

Definition method_config_of (v : json) : option MethodConfig :=
  names ← member "name" v ≫= as_array;
  svcs ← mapM (M := option) (fun n => member "service" n ≫= as_string) names;
  policy ← member "retryPolicy" v ≫= retry_policy_of;
  Some {| services := svcs; retryPolicy := policy |}.

(** The method configs of a service config text. *)
Definition method_configs (text : string) : option (list MethodConfig) :=
  v ← parse_json text;
  configs ← member "methodConfig" v ≫= as_array;
  mapM (M := option) method_config_of configs.

(** The policy that the channel applies to the calls of [service]. *)
Definition policy_for (args : ChannelArguments) (service : string)
  : option RetryPolicy :=
  configs ← method_configs (service_config_json args);
  retryPolicy <$>
    List.find (fun c => bool_decide (service ∈ services c)) configs.

(** The service of [Coordinator::NewStub], whose methods
    [SearchIndexPartition] and [GetGlobalMetadata] the client calls. *)
Definition coordinator_service : string :=
  "valkey_search.coordinator.Coordinator".

(** Whether a call that has been attempted [attempts] times and came back
    with [status] is attempted again. *)
Definition retries (p : RetryPolicy) (attempts : Z) (status : GrpcStatusCode)
  : bool :=
  bool_decide (attempts < maxAttempts p)%Z
  && bool_decide (status ∈ retryableStatusCodes p).

Definition decimal_is (d : decimal) (n : Z) : Prop :=
  mantissa d = (n * 10 ^ Z.of_nat (scale d))%Z.

End Client.

(** Durations in nanoseconds. *)
Definition milliseconds (n : Z) : Z := (n * 1000000)%Z.
Definition seconds (n : Z) : Z := (n * 1000000000)%Z.

(** ** Histories of a vector index

    The calls that change an index after it has been created or loaded. *)

Inductive Operation : Type :=
| OpAddRecord (key record : string)
| OpModifyRecord (key record : string)
| OpRemoveRecord (key : string).

Section Histories.
Context {K : Type} `{!VectorDataType} `{!VectorImpl K} `{!Embedding}.

(** The index after one call; [None] when the call does not return. *)
Definition apply (v : VectorBase K) (op : Operation) : option (VectorBase K) :=
  match op with
  | OpAddRecord key record => snd <$> AddRecord v key record
  | OpModifyRecord key record => Some (ModifyRecord v key record).2
  | OpRemoveRecord key => Some (RemoveRecord v key).2
  end.

Fixpoint run (ops : list Operation) (v : VectorBase K)
  : option (VectorBase K) :=
  match ops with
  | [] => Some v
  | op :: ops' => v' ← apply v op; run ops' v'
  end.

(** The key-to-id and id-to-key maps are inverse to each other. *)
Definition bijective (v : VectorBase K) : Prop :=
  (forall key md,
      tracked_metadata_by_key_ v !! key = Some md ->
      key_by_internal_id_ v !! internal_id md = Some key)
  /\ (forall id key,
      key_by_internal_id_ v !! id = Some key ->
      exists md, tracked_metadata_by_key_ v !! key = Some md
                 /\ internal_id md = id).

(** Every id in use was handed out before the counter's present value. *)
Definition ids_issued (v : VectorBase K) : Prop :=
  forall id key, key_by_internal_id_ v !! id = Some key -> (id < inc_id_ v)%N.

End Histories.

(** Adjacent neighbors are in ascending order of distance. *)
Definition ascending (reply : list Neighbor) : Prop :=
  forall i n n',
    reply !! i = Some n -> reply !! S i = Some n' ->
    PrimFloat.leb (distance n) (distance n') = true.

(** How an index comes into being: by [Create] alone, or by [LoadFromRDB],
    which creates it and then loads the tracked keys from the snapshot
    message or, for older snapshots, from the RDB stream. *)
Inductive Origin : Type :=
| Created
| LoadedTrackedKeys (tracked_keys : list TrackedKeyProto)
| LoadedKeysAndInternalIds (rdb_stream : list RdbItem).

Definition originate {K : Type} (dimensions : N) (normalize : bool) (impl : K)
    (o : Origin) : Status * VectorBase K :=
  match o with
  | Created => (OkStatus, Create dimensions normalize impl)
  | LoadedTrackedKeys tracked_keys =>
      LoadTrackedKeys (Create dimensions normalize impl) tracked_keys
  | LoadedKeysAndInternalIds rdb_stream =>
      LoadKeysAndInternalIds (Create dimensions normalize impl) rdb_stream
  end.

(** The (id, key) entries that [LoadKeysAndInternalIds] reads off a
    well-formed stream: a count, then that many pairs. *)
Fixpoint rdb_pairs (count : nat) (rdb_stream : list RdbItem)
  : option (list (N * string)) :=
  match count with
  | O => Some []
  | S count' =>
      match rdb_stream with
      | RdbSizeT id :: RdbString key :: rest =>
          cons (id, key) <$> rdb_pairs count' rest
      | _ => None
      end
  end.

Definition rdb_entries (rdb_stream : list RdbItem) : option (list (N * string)) :=
  match rdb_stream with
  | RdbSizeT count :: rest => rdb_pairs (N.to_nat count) rest
  | _ => None
  end.

(** The (id, key) pairs an origin brings with it. *)
Definition origin_entries (o : Origin) : list (N * string) :=
  match o with
  | Created => []
  | LoadedTrackedKeys tracked_keys =>
      (fun tk => (proto_internal_id tk, proto_key tk)) <$> tracked_keys
  | LoadedKeysAndInternalIds rdb_stream => default [] (rdb_entries rdb_stream)
  end.

(** A snapshot that a bijective index can have written: no key and no id
    occurs twice, and every id leaves room for the counter to step past
    it. *)
Definition well_formed_entries (entries : list (N * string)) : Prop :=
  NoDup entries.*1 /\ NoDup entries.*2
  /\ Forall (fun e => (e.1 + 1 < uint64_modulus)%N) entries.

(** ** A kernel to run the indexes on

    Modelled from the spec: a "linear scan against all live vectors" over
    storage of bounded capacity.  It stands in for the brute-force kernel
    where a run of the flat index needs one.  Its distance is the number of
    positions at which two payloads differ; removing a label it does not
    hold is a kernel exception. *)

Module ScanKernel.

Fixpoint differing (a b : list ascii) : nat :=
  match a, b with
  | x :: a', y :: b' => (if Ascii.eqb x y then 0 else 1) + differing a' b'
  | _, _ => 0
  end.

Definition distance (a b : string) : float :=
  PrimFloat.of_uint63
    (Uint63.of_Z
       (Z.of_nat (differing (list_ascii_of_string a) (list_ascii_of_string b)))).

Definition addPoint (algo : BruteforceSearch) (datapoint : string)
    (label : N) : Try BruteforceSearch :=
  match dict_external_to_internal algo !! label with
  | Some slot =>
      Returns (mkBruteforceSearch (maxelements_ algo)
                 (cur_element_count_ algo) (dict_external_to_internal algo)
                 (<[slot := (datapoint, label)]> (data_ algo)))
  | None =>
      if (maxelements_ algo <=? cur_element_count_ algo)%N then
        Throws "The number of elements exceeds the specified limit"
      else
        Returns (mkBruteforceSearch (maxelements_ algo)
                   (cur_element_count_ algo + 1)
                   (<[label := length (data_ algo)]>
                      (dict_external_to_internal algo))
                   (data_ algo ++ [(datapoint, label)]))
  end.

Definition removePoint (algo : BruteforceSearch) (label : N)
  : Try BruteforceSearch :=
  match dict_external_to_internal algo !! label with
  | None => Throws "Label not found"
  | Some slot =>
      let last := length (data_ algo) - 1 in
      let moved := data_ algo !!! last in
      let dict := delete label (dict_external_to_internal algo) in
      Returns (mkBruteforceSearch (maxelements_ algo)
                 (cur_element_count_ algo - 1)
                 (if decide (slot = last) then dict
                  else <[moved.2 := slot]> dict)
                 (take last (<[slot := moved]> (data_ algo))))
  end.

Definition resizeIndex (algo : BruteforceSearch) (new_max_elements : N)
  : BruteforceSearch :=
  mkBruteforceSearch new_max_elements (cur_element_count_ algo)
    (dict_external_to_internal algo) (data_ algo).

Definition allowed (filter : option (N -> bool)) (label : N) : bool :=
  match filter with Some f => f label | None => true end.

Definition searchKnn (algo : BruteforceSearch) (query : string) (k : N)
    (filter : option (N -> bool)) : Try PriorityQueue.t :=
  let candidates :=
    (fun e => (distance query e.1, e.2))
      <$> List.filter (fun e => allowed filter e.2) (data_ algo) in
  let q := PriorityQueue.of_list candidates in
  Returns (drop (PriorityQueue.size q - N.to_nat k) q).

#[global] Instance kernel : BruteforceKernel :=
  Build_BruteforceKernel addPoint removePoint resizeIndex searchKnn distance.

(** An empty kernel of the given capacity. *)
Definition init (max_elements : N) : BruteforceSearch :=
  mkBruteforceSearch max_elements 0 ∅ [].

(** The indexes run on this kernel do not normalize; the embedding is
    the identity with unit norm. *)
#[global] Instance embedding : Embedding :=
  {| NormalizeEmbedding := fun record _ => (record, 1%float) |}.

End ScanKernel.

(** ** Example indexes

    Indexes over the example kernel, neighbor lists and a numeric index,
    for the concrete runs of Part II. *)

Module Examples.

Definition flat (capacity : N) : VectorFlat :=
  mkVectorFlat 2 (ScanKernel.init capacity) ∅.

(** Three rounds are more than [AddRecordImpl] needs on this kernel. *)
#[global] Instance flat_impl : VectorImpl VectorFlat := Flat.impl 3.

Definition tracked (key : string) (id : N) : TrackedKeyProto :=
  {| proto_key := key; proto_internal_id := id;
     proto_magnitude := kDefaultMagnitude |}.


Definition history : list Operation :=
  [OpAddRecord "a" "AAAA"; OpAddRecord "b" "BBBB";
   OpModifyRecord "a" "ABCD"; OpRemoveRecord "b"; OpAddRecord "c" "CCCC"].

(** A flat index as [LoadFromRDB] restores it: the kernel holds the
    vectors of ids 5 and 7, and the snapshot names their keys. *)
Definition restored_flat : VectorFlat :=
  mkVectorFlat 2
    (mkBruteforceSearch 4 2 (<[7%N := 1]> (<[5%N := 0]> ∅))
       [("XXXX", 5%N); ("YYYY", 7%N)])
    (<[7%N := "YYYY"]> (<[5%N := "XXXX"]> ∅)).

Definition snapshot : Origin :=
  LoadedTrackedKeys [tracked "x" 5; tracked "y" 7].

Definition restored : VectorBase VectorFlat :=
  (originate 1 false restored_flat snapshot).2.

Definition later_history : list Operation :=
  [OpAddRecord "a" "AAAA"; OpModifyRecord "x" "XXXY";
   OpRemoveRecord "y"; OpAddRecord "c" "CCCC"].

Definition later_result : VectorBase VectorFlat :=
  default restored (run later_history restored).

(** The index that [history] leaves behind. *)
Definition history_result : VectorBase VectorFlat :=
  default (Create 1 false (flat 2))
    (run history (Create 1 false (flat 2))).

(** Two records at distances 0 and 2 from the query "AAAA". *)
Definition near_and_far : VectorBase VectorFlat :=
  default (Create 1 false (flat 2))
    (run [OpAddRecord "a" "AAAA"; OpAddRecord "b" "AABB"]
       (Create 1 false (flat 2))).

(** Two records with one payload, key "b" added before key "a". *)
Definition twins : VectorBase VectorFlat :=
  default (Create 1 false (flat 2))
    (run [OpAddRecord "b" "AAAA"; OpAddRecord "a" "AAAA"]
       (Create 1 false (flat 2))).

End Examples.

Module ReplyExamples.

Definition neighbor (key : string) (d : float) : Neighbor :=
  {| external_id := key; distance := d; attribute_contents := Some [] |}.

Definition three_neighbors : list Neighbor :=
  [neighbor "a" 1; neighbor "b" 2; neighbor "c" 3].

(** KNN 10 with LIMIT 1 10. *)
Definition limit_1_10 (no_content : bool) : FtSearch.VectorSearchParameters :=
  {| FtSearch.k := 10;
     FtSearch.limit := {| FtSearch.first_index := 1; FtSearch.number := 10 |};
     FtSearch.no_content := no_content;
     FtSearch.return_attributes := [];
     FtSearch.score_as := "score" |}.

(** KNN 2 with LIMIT 2 10: the window starts at [k]. *)
Definition limit_2_10 : FtSearch.VectorSearchParameters :=
  {| FtSearch.k := 2;
     FtSearch.limit := {| FtSearch.first_index := 2; FtSearch.number := 10 |};
     FtSearch.no_content := false;
     FtSearch.return_attributes := [];
     FtSearch.score_as := "score" |}.

End ReplyExamples.

(** A run of the numeric index: three keys added, one modified and one
    removed. *)
Module NumericExamples.
Import Numeric.

Definition prices : BTreeNumericIndex :=
  Remove "k1" 10
    (Modify "k2" 20 30 (Add "k3" 30 (Add "k2" 20 (Add "k1" 10 empty)))).

Definition prices_tracked : gmap string Z :=
  delete "k1" (<["k2" := 30%Z]> (<["k3" := 30%Z]> (<["k2" := 20%Z]>
    (<["k1" := 10%Z]> ∅)))).

End NumericExamples.

(** ** The vector base: reading a record back (src/indexes/vector_base.cc) *)

Section GetValue.
Context {K : Type} `{!VectorDataType}.

(** [_GetValue] is the kernel's pointer to the stored bytes of an id,
    [GetVectorDataSize] the byte length of a vector and [DenormalizeVector]
    the scaling of a unit vector by a magnitude; they are declared in
    vector_base.h and vector_externalizer.h and defined outside these
    sources. *)
Variables (_GetValue : K -> N -> string) (GetVectorDataSize : N)
          (DenormalizeVector : string -> N -> float -> string).

Definition GetValue (v : VectorBase K) (key : string) : StatusOr string :=
  match tracked_metadata_by_key_ v !! key with
  | None => Error kNotFound "Record was not found"
  | Some md =>
      let value := _GetValue (impl_ v) (internal_id md) in
      if normalize_ v then
        if PrimFloat.ltb (magnitude md) 0 then
          Error kInternal "Magnitude is not initialized"
        else
          Ok (DenormalizeVector
                (String.substring 0 (N.to_nat GetVectorDataSize) value)
                GetDataTypeSize (magnitude md))
      else Ok (String.substring 0 (N.to_nat GetVectorDataSize) value)
  end.

End GetValue.

(** ** More example inputs *)

Module WindowExamples.

(** KNN 10 with LIMIT 1 2. *)
Definition limit_1_2 (no_content : bool) : FtSearch.VectorSearchParameters :=
  {| FtSearch.k := 10;
     FtSearch.limit := {| FtSearch.first_index := 1; FtSearch.number := 2 |};
     FtSearch.no_content := no_content;
     FtSearch.return_attributes := [];
     FtSearch.score_as := "score" |}.

End WindowExamples.

(** ** Vectors written as text (src/indexes/vector_base.cc)

    An [absl::string_view] is the list of its characters. *)

Definition string_view : Type := list ascii.

(** [absl::ConsumePrefix(&str, expected)]: whether [str] starts with
    [expected], and [str] without it if so. *)
Definition ConsumePrefix (str expected : string_view) : bool * string_view :=
  if bool_decide (expected `prefix_of` str)
  then (true, drop (length expected) str)
  else (false, str).

(** [absl::ConsumeSuffix(&str, expected)] *)
Definition ConsumeSuffix (str expected : string_view) : bool * string_view :=
  if bool_decide (expected `suffix_of` str)
  then (true, take (length str - length expected) str)
  else (false, str).

(** [TrimBrackets] calls itself on a shorter view each time; [depth] is
    the number of calls allowed. *)
Fixpoint TrimBrackets_rec (depth : nat) (input : string_view) : string_view :=
  match depth with
  | O => input
  | S depth' =>
      let '(consumed, input) := ConsumePrefix input ["["%char] in
      if consumed then
        TrimBrackets_rec depth' (ConsumeSuffix input ["]"%char]).2
      else input
  end.

(** A view of [n] characters is consumed after [n] calls; one more call
    finds no bracket to consume. *)
Definition TrimBrackets (input : string_view) : string_view :=
  TrimBrackets_rec (S (length input)) input.

(** [absl::ascii_isspace] *)
Definition ascii_isspace (c : ascii) : bool :=
  bool_decide (c ∈ [" "; "009"; "010"; "011"; "012"; "013"]%char).

(** [absl::StrSplit(text, delimiter)]: the pieces between the delimiters,
    empty ones included. *)
Fixpoint StrSplit (text : string_view) (delimiter : ascii)
  : list string_view :=
  match text with
  | [] => [[]]
  | c :: rest =>
      if Ascii.eqb c delimiter then [] :: StrSplit rest delimiter
      else
        match StrSplit rest delimiter with
        | piece :: pieces => (c :: piece) :: pieces
        | [] => [[c]]
        end
  end.

(** [absl::SkipWhitespace()]: keeps the pieces that are not blank. *)
Definition SkipWhitespace (piece : string_view) : bool :=
  negb (forallb ascii_isspace piece).

Section NormalizeStringRecord.
Context `{!VectorDataType}.

(** [absl::SimpleAtof] and the object representation of a [float] are the
    library's and the platform's; they are taken as given. *)
Variables (SimpleAtof : string_view -> option float)
          (float_bytes : float -> string_view).

(** The loop over [float_strings]; [None] is the early [return nullptr]. *)
Fixpoint append_floats (float_strings : list string_view)
    (binary_string : string_view) : option string_view :=
  match float_strings with
  | [] => Some binary_string
  | float_str :: float_strings' =>
      match SimpleAtof float_str with
      | None => None
      | Some value =>
          append_floats float_strings' (binary_string ++ float_bytes value)
      end
  end.

Definition NormalizeStringRecord (input : string_view)
  : FtSearch.Outcome (option string_view) :=
  if negb (GetDataTypeSize =? 4)%N then FtSearch.CheckFailed
  else
    let input_str := TrimBrackets input in
    let float_strings :=
      List.filter SkipWhitespace (StrSplit input_str ","%char) in
    FtSearch.Done (append_floats float_strings []).

End NormalizeStringRecord.

Module TextExamples.

Definition view (s : string) : string_view := list_ascii_of_string s.

(** A stand-in for [absl::SimpleAtof] that reads single digits. *)
Definition digit_Atof (float_str : string_view) : option float :=
  match float_str with
  | ["0"%char] => Some 0%float
  | ["1"%char] => Some 1%float
  | ["2"%char] => Some 2%float
  | _ => None
  end.

(** A stand-in for the four bytes of a [float]. *)
Definition four_bytes (f : float) : string_view :=
  if PrimFloat.eqb f 0 then view "0000"
  else if PrimFloat.eqb f 1 then view "1111" else view "2222".

End TextExamples.

(** ** The file streams of the kernel (third_party/hnswlib/iostream.h)

    Bytes are characters, a file is the list of its bytes.  The object
    representation of an integer is little-endian, with [size_t] of 8
    bytes and [int] and [unsigned] of 4, as on the 64-bit targets the
    module is built for; an [int] is in two's complement.  A [double] is
    carried as the 64 bits of its representation. *)

Module FileStream.

(** The [n] low bytes of [x], lowest first. *)
Fixpoint to_bytes (n : nat) (x : N) : string_view :=
  match n with
  | O => []
  | S n' => ascii_of_N (x mod 256) :: to_bytes n' (x / 256)
  end.

Fixpoint of_bytes (bytes : string_view) : N :=
  match bytes with
  | [] => 0
  | b :: bytes' => N_of_ascii b + 256 * of_bytes bytes'
  end.

(** The types that [loadPOD] and [savePOD] are used at. *)
Inductive POD : Set := size_t | unsigned_int | signed_int | double.

Definition sizeof (T : POD) : nat :=
  match T with
  | size_t | double => 8
  | unsigned_int | signed_int => 4
  end.

(** The values of a type are integers: a [double] its 64 bits. *)
Definition in_range (T : POD) (val : Z) : Prop :=
  match T with
  | signed_int => (- 2 ^ 31 <= val < 2 ^ 31)%Z
  | _ => (0 <= val < 2 ^ (8 * Z.of_nat (sizeof T)))%Z
  end.

(** The object representation of [val], which [savePOD] writes. *)
Definition representation (T : POD) (val : Z) : string_view :=
  to_bytes (sizeof T)
    (Z.to_N (val mod 2 ^ (8 * Z.of_nat (sizeof T)))).

(** The value that a representation stands for. *)
Definition value_of (T : POD) (bytes : string_view) : Z :=
  let u := Z.of_N (of_bytes bytes) in
  match T with
  | signed_int => if (u <? 2 ^ 31)%Z then u else (u - 2 ^ 32)%Z
  | _ => u
  end.

(** An open [std::ifstream]: the bytes not yet read, and whether a read
    has failed. *)
Record ifstream : Type := mk_ifstream {
  unread : string_view;
  in_failed : bool;
}.

(** [input_->read(buffer, n)]: the bytes stored in the buffer and the
    stream afterwards.  A failed stream reads nothing; a read past the end
    of the file takes what is left and fails the stream. *)
Definition read (input : ifstream) (n : nat) : string_view * ifstream :=
  if in_failed input then ([], input)
  else if n <=? length (unread input) then
    (take n (unread input), mk_ifstream (drop n (unread input)) false)
  else (unread input, mk_ifstream [] true).

(** An open [std::ofstream]: the bytes written, and whether the stream has
    failed.  The medium takes every byte written to a stream that has not
    failed. *)
Record ofstream : Type := mk_ofstream {
  written : string_view;
  out_failed : bool;
}.

Definition write (output : ofstream) (bytes : string_view) : ofstream :=
  if out_failed output then output
  else mk_ofstream (written output ++ bytes) false.

(** [FileInputStream::Create]: [files] maps the locations that can be
    opened to their contents. *)
Definition Create (files : gmap string string_view) (location : string)
  : StatusOr ifstream :=
  match files !! location with
  | Some bytes => Ok (mk_ifstream bytes false)
  | None => Error kInternal "Cannot open file"
  end.

Definition loadPOD (T : POD) (input : ifstream) : StatusOr Z * ifstream :=
  let '(bytes, input) := read input (sizeof T) in
  if negb (in_failed input) then (Ok (value_of T bytes), input)
  else (Error kInternal "Error reading POD from file", input).

Definition loadSizeT := loadPOD size_t.
Definition loadUnsigned := loadPOD unsigned_int.
Definition loadSigned := loadPOD signed_int.
Definition loadDouble := loadPOD double.

Definition loadStringBuffer (len : nat) (input : ifstream)
  : StatusOr string_view * ifstream :=
  let '(str, input) := read input len in
  if negb (in_failed input) then (Ok str, input)
  else (Error kInternal "Error reading string buffer from file", input).

Definition savePOD (T : POD) (val : Z) (output : ofstream)
  : Status * ofstream :=
  let output := write output (representation T val) in
  if negb (out_failed output) then (OkStatus, output)
  else (Error kInternal "Error writing POD to file", output).

Definition saveSizeT := savePOD size_t.
Definition saveUnsigned := savePOD unsigned_int.
Definition saveSigned := savePOD signed_int.
Definition saveDouble := savePOD double.

Definition saveStringBuffer (str : string_view) (len : nat)
    (output : ofstream) : Status * ofstream :=
  let output := write output (take len str) in
  if negb (out_failed output) then (OkStatus, output)
  else (Error kInternal "Error writing string buffer to file", output).

(** What a caller saves and loads: a value of one of the types, or a
    buffer of a given length. *)
Inductive Item : Type :=
| Pod (T : POD) (val : Z)
| Buffer (str : string_view).

Inductive Shape : Type :=
| PodShape (T : POD)
| BufferShape (len : nat).

Definition shape_of (item : Item) : Shape :=
  match item with
  | Pod T _ => PodShape T
  | Buffer str => BufferShape (length str)
  end.

Definition well_typed (item : Item) : Prop :=
  match item with
  | Pod T val => in_range T val
  | Buffer _ => True
  end.

Definition save (item : Item) (output : ofstream) : Status * ofstream :=
  match item with
  | Pod T val => savePOD T val output
  | Buffer str => saveStringBuffer str (length str) output
  end.

Definition load (shape : Shape) (input : ifstream)
  : StatusOr Item * ifstream :=
  match shape with
  | PodShape T =>
      match loadPOD T input with
      | (Ok val, input) => (Ok (Pod T val), input)
      | (Error c m, input) => (Error c m, input)
      end
  | BufferShape len =>
      match loadStringBuffer len input with
      | (Ok str, input) => (Ok (Buffer str), input)
      | (Error c m, input) => (Error c m, input)
      end
  end.

(** Saving and loading one item after the other, as the callers do, giving
    up at the first error. *)
Fixpoint save_all (items : list Item) (output : ofstream)
  : Status * ofstream :=
  match items with
  | [] => (OkStatus, output)
  | item :: items' =>
      match save item output with
      | (Ok _, output) => save_all items' output
      | (Error c m, output) => (Error c m, output)
      end
  end.

Fixpoint load_all (shapes : list Shape) (input : ifstream)
  : StatusOr (list Item) * ifstream :=
  match shapes with
  | [] => (Ok [], input)
  | shape :: shapes' =>
      match load shape input with
      | (Ok item, input) =>
          match load_all shapes' input with
          | (Ok items, input) => (Ok (item :: items), input)
          | (Error c m, input) => (Error c m, input)
          end
      | (Error c m, input) => (Error c m, input)
      end
  end.

End FileStream.

(** ** The framing of a reply

    What the server makes of the calls on a module context: every call
    sends one value, an array header opens an array of that many values,
    and a postponed array stays open until its length is set.  [frames]
    reads a run of calls and gives the number of complete values it makes
    up, if it is made up of complete values. *)

Module Resp.

Inductive Shape : Set :=
| Bulk
| ArrayOf (len : nat)
| PostponedArray
| SetArrayLength (len : nat).

(** An array under construction: values still to come, or values sent so
    far to a postponed one. *)
Inductive Frame : Set :=
| Fixed (remaining : nat)
| Postponed (sent : nat).

(** The state: the number of complete values at the top level and the
    arrays that are open, innermost first. *)
Definition State : Set := nat * list Frame.

(** One more value is complete inside the innermost open array. *)
Fixpoint complete_in (stack : list Frame) (top : nat) : State :=
  match stack with
  | [] => (S top, [])
  | Postponed sent :: stack' => (top, Postponed (S sent) :: stack')
  | Fixed (S (S remaining)) :: stack' => (top, Fixed (S remaining) :: stack')
  | Fixed _ :: stack' => complete_in stack' top
  end.

Definition complete (st : State) : State := complete_in st.2 st.1.

Definition step (st : State) (shape : Shape) : option State :=
  match shape with
  | Bulk | ArrayOf 0 => Some (complete st)
  | ArrayOf len => Some (st.1, Fixed len :: st.2)
  | PostponedArray => Some (st.1, Postponed 0 :: st.2)
  | SetArrayLength len =>
      match st.2 with
      | Postponed sent :: stack' =>
          if sent =? len then Some (complete (st.1, stack')) else None
      | _ => None
      end
  end.

Fixpoint run (st : State) (shapes : list Shape) : option State :=
  match shapes with
  | [] => Some st
  | shape :: shapes' =>
      match step st shape with
      | Some st' => run st' shapes'
      | None => None
      end
  end.

Definition frames (shapes : list Shape) : option nat :=
  match run (0, []) shapes with
  | Some (values, []) => Some values
  | _ => None
  end.

End Resp.

(** The shape of a call of the FT.SEARCH reply. *)
Definition reply_shape (r : FtSearch.Reply) : Resp.Shape :=
  match r with
  | FtSearch.ReplyWithArray len => Resp.ArrayOf len
  | FtSearch.ReplyWithPostponedArray => Resp.PostponedArray
  | FtSearch.ReplySetArrayLength len => Resp.SetArrayLength len
  | _ => Resp.Bulk
  end.

(** ** The info reply of a vector index
    (src/indexes/vector_base.cc, src/indexes/vector_flat.cc) *)

Module Info.

Inductive Reply : Type :=
| ReplyWithSimpleString (s : string)
| ReplyWithCString (s : string)
| ReplyWithLongLong (n : N)
| ReplyWithArray (len : nat)
| ReplyWithPostponedArray
| ReplySetArrayLength (len : nat).

Definition shape (r : Reply) : Resp.Shape :=
  match r with
  | ReplyWithArray len => Resp.ArrayOf len
  | ReplyWithPostponedArray => Resp.PostponedArray
  | ReplySetArrayLength len => Resp.SetArrayLength len
  | _ => Resp.Bulk
  end.

Section RespondWithInfo.
Context {K : Type}.

(** [GetCapacity] and [_RespondWithInfo] are the index's own, and the
    name of the distance metric is looked up in [kDistanceMetricByStr],
    a table outside these sources. *)
Variables (GetCapacity : K -> N)
          (_RespondWithInfo : K -> list Reply * nat)
          (distance_metric_name : string).

(** [VectorBase::RespondWithInfo]: the calls it makes and the number it
    returns. *)
Definition RespondWithInfo (v : VectorBase K) : list Reply * nat :=
  let '(impl_replies, impl_len) := _RespondWithInfo (impl_ v) in
  let array_len := 8 + impl_len in
  ([ReplyWithSimpleString "type"; ReplyWithSimpleString "VECTOR";
    ReplyWithSimpleString "index"; ReplyWithPostponedArray;
    ReplyWithSimpleString "capacity"; ReplyWithLongLong (GetCapacity (impl_ v));
    ReplyWithSimpleString "dimensions"; ReplyWithLongLong (dimensions_ v);
    ReplyWithSimpleString "distance_metric";
    ReplyWithSimpleString distance_metric_name;
    ReplyWithSimpleString "size";
    ReplyWithCString
      (N_to_string (N.of_nat (size (key_by_internal_id_ v))))]
   ++ impl_replies ++ [ReplySetArrayLength array_len],
   4).

End RespondWithInfo.

(** [VectorFlat<float>::RespondWithInfoImpl]; the names of the data type
    and of the algorithm are looked up in [kVectorDataTypeByStr] and
    [kVectorAlgoByStr]. *)
Definition RespondWithInfoImpl (data_type_name algorithm_name : string)
    (flat : VectorFlat) : list Reply * nat :=
  ([ReplyWithSimpleString "data_type"; ReplyWithSimpleString data_type_name;
    ReplyWithSimpleString "algorithm"; ReplyWithArray 4;
    ReplyWithSimpleString "name"; ReplyWithSimpleString algorithm_name;
    ReplyWithSimpleString "block_size";
    ReplyWithLongLong (block_size_ flat)],
   4).

End Info.

Module StreamExamples.

(** An old-format stream naming two keys. *)
Definition two_keys : list RdbItem :=
  [RdbSizeT 2; RdbSizeT 5; RdbString "x"; RdbSizeT 7; RdbString "y"].

End StreamExamples.

(* ===================================================================== *)
(** * Part II.  Properties                                                *)
(* ===================================================================== *)

(** ** The key-to-id bijection of a vector index *)

Section KeyTracking.
Context {K : Type} `{!VectorDataType} `{!VectorImpl K} `{!Embedding}.
Implicit Types v : VectorBase K.

(** The maps and the counter are all that the tracking invariant reads. *)
Definition tracking_inv v : Prop := bijective v /\ ids_issued v.

Lemma uint64_add_small (x : N) :
  (x + 1 < uint64_modulus)%N -> uint64_add x 1 = (x + 1)%N.
Proof. intros Hx. unfold uint64_add. by apply N.mod_small. Qed.

Lemma TrackKey_tracking v key magnitude vector :
  tracking_inv v -> (inc_id_ v + 1 < uint64_modulus)%N ->
  tracking_inv (TrackKey v key magnitude vector).2
  /\ (inc_id_ (TrackKey v key magnitude vector).2 <= inc_id_ v + 1)%N.
Proof.
  intros [[Hfwd Hbwd] Hissued] Hroom. unfold TrackKey.
  destruct (String.eqb key "") eqn:Hempty; simpl.
  { split; [done | lia]. }
  unfold hash_map_insert; simpl.
  destruct (tracked_metadata_by_key_ v !! key) as [md|] eqn:Hkey; simpl.
  - rewrite uint64_add_small by done. split; [|lia].
    split; [split|]; simpl; auto.
    unfold ids_issued; simpl.
    intros id k Hk. specialize (Hissued _ _ Hk). lia.
  - rewrite uint64_add_small by done.
    assert (key_by_internal_id_ v !! inc_id_ v = None) as Hfresh.
    { destruct (key_by_internal_id_ v !! inc_id_ v) eqn:Hid; [|done].
      specialize (Hissued _ _ Hid). lia. }
    rewrite Hfresh. simpl. split; [|lia].
    split; [split|]; simpl.
    + intros k md. rewrite lookup_insert. case_decide as Hk.
      * intros [= <-]. simpl. subst. by rewrite lookup_insert_eq.
      * intros Hmd. rewrite lookup_insert_ne; [by apply Hfwd|].
        intros Heq. specialize (Hfwd _ _ Hmd). rewrite <- Heq in Hfwd.
        congruence.
    + intros id k. rewrite lookup_insert. case_decide as Hid.
      * intros [= <-]. subst. eexists. rewrite lookup_insert_eq. done.
      * intros Hk. destruct (Hbwd _ _ Hk) as (md & Hmd & Hmdid).
        exists md. split; [|done]. rewrite lookup_insert_ne; [done|].
        intros ->. congruence.
    + unfold ids_issued; simpl.
      intros id k. rewrite lookup_insert. case_decide as Hid.
      * intros _. subst. lia.
      * intros Hk. specialize (Hissued _ _ Hk). lia.
Qed.

Lemma tracking_inv_with_impl v (k' : K) :
  tracking_inv (with_impl v k') <-> tracking_inv v.
Proof. done. Qed.

Lemma UnTrackKey_tracking v key :
  tracking_inv v ->
  tracking_inv (UnTrackKey v key).2
  /\ inc_id_ (UnTrackKey v key).2 = inc_id_ v
  /\ ok (UnTrackKey v key).1 = true.
Proof.
  intros [[Hfwd Hbwd] Hissued]. unfold UnTrackKey.
  destruct (String.eqb key ""); simpl; [done|].
  destruct (tracked_metadata_by_key_ v !! key) as [md|] eqn:Hkey;
    simpl; [|done].
  rewrite (Hfwd _ _ Hkey). simpl. split; [|done].
  split; [split|]; simpl.
  - intros k md'. rewrite lookup_delete. case_decide as Hk; [done|].
    intros Hmd'. rewrite lookup_delete_ne; [by apply Hfwd|].
    intros Heq. pose proof (Hfwd _ _ Hmd') as Hk'. pose proof (Hfwd _ _ Hkey) as Hk''.
    rewrite Heq in Hk''. congruence.
  - intros id k. rewrite lookup_delete. case_decide as Hid; [done|].
    intros Hk. destruct (Hbwd _ _ Hk) as (md' & Hmd' & Hmdid).
    exists md'. split; [|done]. rewrite lookup_delete_ne; [done|].
    intros ->. congruence.
  - unfold ids_issued; simpl. intros id k.
    rewrite lookup_delete. case_decide; [done|]. apply Hissued.
Qed.

Lemma UpdateMetadata_tracking v key magnitude vector :
  tracking_inv v ->
  tracking_inv (UpdateMetadata v key magnitude vector).2
  /\ inc_id_ (UpdateMetadata v key magnitude vector).2 = inc_id_ v.
Proof.
  intros [[Hfwd Hbwd] Hissued]. unfold UpdateMetadata.
  destruct (String.eqb key ""); simpl; [done|].
  destruct (tracked_metadata_by_key_ v !! key) as [md|] eqn:Hkey;
    simpl; [|done].
  split; [|done]. split; [split|]; simpl.
  - intros k md'. rewrite lookup_insert. case_decide as Hk.
    + intros [= <-]. subst. simpl. by apply Hfwd.
    + apply Hfwd.
  - intros id k Hk. destruct (Hbwd _ _ Hk) as (md' & Hmd' & Hmdid).
    rewrite lookup_insert. case_decide as Hkk.
    + subst. eexists. split; [done|]. simpl. congruence.
    + by exists md'.
  - done.
Qed.

Lemma RemoveRecord_tracking v key :
  tracking_inv v ->
  tracking_inv (RemoveRecord v key).2
  /\ inc_id_ (RemoveRecord v key).2 = inc_id_ v.
Proof.
  intros Hinv. unfold RemoveRecord.
  destruct (UnTrackKey_tracking v key Hinv) as (Hinv' & Hinc & _).
  destruct (UnTrackKey v key) as [[[id|]|c m] v']; simpl in *; try done.
  destruct (_RemoveRecord (impl_ v') id) as [[[]|c m] k']; simpl; done.
Qed.

Lemma AddRecord_tracking v key record r v' :
  tracking_inv v -> (inc_id_ v + 1 < uint64_modulus)%N ->
  AddRecord v key record = Some (r, v') ->
  tracking_inv v' /\ (inc_id_ v' <= inc_id_ v + 1)%N.
Proof.
  intros Hinv Hroom. unfold AddRecord.
  destruct (InternVector v record) as [[interned magnitude]|].
  2:{ intros [= <- <-]. split; [done|lia]. }
  destruct (TrackKey_tracking v key (value_or magnitude kDefaultMagnitude)
              interned Hinv Hroom) as [Hinv' Hinc].
  destruct (TrackKey v key _ interned) as [[id|c m] v1]; simpl in *.
  2:{ intros [= <- <-]. done. }
  destruct (_AddRecord (impl_ v1) id interned) as [[add_result k']|];
    simpl; [|done].
  destruct add_result as [[]|c m]; intros [= <- <-].
  - done.
  - destruct (UnTrackKey_tracking (with_impl v1 k') key) as (? & Heq & _);
      [done|]. split; [done|]. rewrite Heq. done.
Qed.

Lemma ModifyRecord_tracking v key record :
  tracking_inv v ->
  tracking_inv (ModifyRecord v key record).2
  /\ inc_id_ (ModifyRecord v key record).2 = inc_id_ v.
Proof.
  intros Hinv. unfold ModifyRecord.
  destruct (InternVector v record) as [[interned magnitude]|]; simpl.
  2:{ by apply RemoveRecord_tracking. }
  destruct (GetInternalId v key) as [id|c m]; simpl; [|done].
  destruct (UpdateMetadata_tracking v key
              (value_or magnitude kDefaultMagnitude) interned Hinv)
    as [Hinv' Hinc].
  destruct (UpdateMetadata v key _ interned) as [[[]|c m] v1];
    simpl in *; [|done].
  destruct (_ModifyRecord (dimensions_ v1) (impl_ v1) id interned)
    as [[b|c m] k']; simpl; [done|].
  destruct (UnTrackKey_tracking (with_impl v1 k') key) as (? & Heq & _);
    [done|]. split; [done|]. rewrite Heq. done.
Qed.

Lemma apply_tracking v op v' :
  tracking_inv v -> (inc_id_ v + 1 < uint64_modulus)%N ->
  apply v op = Some v' ->
  tracking_inv v' /\ (inc_id_ v' <= inc_id_ v + 1)%N.
Proof.
  intros Hinv Hroom. destruct op as [key record|key record|key]; simpl.
  - destruct (AddRecord v key record) as [[r v1]|] eqn:Hadd; [|done].
    intros [= <-]. by eapply AddRecord_tracking.
  - intros [= <-].
    destruct (ModifyRecord_tracking v key record Hinv) as [? ->].
    split; [done|lia].
  - intros [= <-].
    destruct (RemoveRecord_tracking v key Hinv) as [? ->].
    split; [done|lia].
Qed.

Lemma run_tracking ops : forall v v',
  tracking_inv v ->
  (inc_id_ v + N.of_nat (length ops) < uint64_modulus)%N ->
  run ops v = Some v' ->
  tracking_inv v'.
Proof.
  induction ops as [|op ops IH]; intros v v' Hinv Hroom; simpl.
  - by intros [= <-].
  - destruct (apply v op) as [v1|] eqn:Hop; simpl; [|done].
    intros Hrun. simpl in Hroom.
    destruct (apply_tracking v op v1 Hinv) as [Hinv1 Hinc1]; [lia|done|].
    apply (IH v1 v'); [done|lia|done].
Qed.

(** *** Loading *)

(** While a load is under way the counter is the largest id seen. *)
Definition loading_inv v : Prop :=
  bijective v
  /\ forall id key, key_by_internal_id_ v !! id = Some key -> (id <= inc_id_ v)%N.

(** What one round of either load loop does to the maps and the counter. *)
Definition loads_entry v (e : N * string) v' : Prop :=
  key_by_internal_id_ v'
    = (hash_map_insert e.1 e.2 (key_by_internal_id_ v)).1
  /\ (exists magnitude,
        tracked_metadata_by_key_ v'
        = (hash_map_insert e.2
             {| internal_id := e.1; magnitude := magnitude |}
             (tracked_metadata_by_key_ v)).1)
  /\ inc_id_ v' = N.max (inc_id_ v) e.1.

Definition fresh_entry v (e : N * string) : Prop :=
  key_by_internal_id_ v !! e.1 = None
  /\ tracked_metadata_by_key_ v !! e.2 = None.

Lemma loads_entry_inv v e v' :
  loading_inv v -> fresh_entry v e -> loads_entry v e v' ->
  loading_inv v'
  /\ (forall e', e'.1 <> e.1 -> e'.2 <> e.2 -> fresh_entry v e' ->
                 fresh_entry v' e').
Proof.
  intros [[Hfwd Hbwd] Hmax] [Hid Hkey] (Hby_id & [mag Htracked] & Hinc).
  unfold hash_map_insert in *. rewrite Hid in Hby_id.
  rewrite Hkey in Htracked. simpl in *.
  split; [split; [split|]|].
  - intros k md. rewrite Htracked, Hby_id, lookup_insert.
    case_decide as Hk.
    + intros [= <-]. subst. simpl. by rewrite lookup_insert_eq.
    + intros Hmd. rewrite lookup_insert_ne; [by apply Hfwd|].
      intros Heq. specialize (Hfwd _ _ Hmd). rewrite <- Heq in Hfwd.
      congruence.
  - intros id k. rewrite Htracked, Hby_id, lookup_insert.
    case_decide as Hi.
    + intros [= <-]. subst. eexists. by rewrite lookup_insert_eq.
    + intros Hk. destruct (Hbwd _ _ Hk) as (md & Hmd & Hmdid).
      exists md. split; [|done]. rewrite lookup_insert_ne; [done|].
      intros Heq. rewrite <- Heq in Hmd. congruence.
  - intros id k. rewrite Hby_id, Hinc, lookup_insert.
    case_decide as Hi.
    + intros _. subst. lia.
    + intros Hk. specialize (Hmax _ _ Hk). lia.
  - intros e' Hne1 Hne2 [Hid' Hkey']. split.
    + rewrite Hby_id, lookup_insert_ne; done.
    + rewrite Htracked, lookup_insert_ne; done.
Qed.

Lemma loading_inv_finish v :
  loading_inv v -> (inc_id_ v + 1 < uint64_modulus)%N ->
  tracking_inv (with_inc_id v (uint64_add (inc_id_ v) 1)).
Proof.
  intros [Hbij Hmax] Hroom. split; [done|].
  unfold ids_issued; simpl. rewrite uint64_add_small by done.
  intros id key Hk. specialize (Hmax _ _ Hk). lia.
Qed.

Lemma LoadTrackedKeys_step_loads v tk :
  loads_entry v (proto_internal_id tk, proto_key tk)
    (LoadTrackedKeys_step v tk).
Proof. repeat split. by eexists. Qed.

Lemma LoadTrackedKeys_fold tracked_keys : forall v,
  loading_inv v ->
  (inc_id_ v + 1 < uint64_modulus)%N ->
  well_formed_entries
    ((fun tk => (proto_internal_id tk, proto_key tk)) <$> tracked_keys) ->
  Forall (fun tk => fresh_entry v (proto_internal_id tk, proto_key tk))
    tracked_keys ->
  loading_inv (foldl LoadTrackedKeys_step v tracked_keys)
  /\ (inc_id_ (foldl LoadTrackedKeys_step v tracked_keys) + 1
      < uint64_modulus)%N.
Proof.
  induction tracked_keys as [|tk l IH]; intros v Hinv Hroom Hwf Hfresh;
    simpl; [done|].
  destruct Hwf as (Hids & Hkeys & Hsmall). simpl in *.
  apply NoDup_cons in Hids as [Hid Hids].
  apply NoDup_cons in Hkeys as [Hkey Hkeys].
  apply Forall_cons in Hsmall as [Hsmall0 Hsmall].
  apply Forall_cons in Hfresh as [Hfresh0 Hfresh].
  destruct (loads_entry_inv v _ _ Hinv Hfresh0
              (LoadTrackedKeys_step_loads v tk)) as [Hinv' Hkeep].
  apply IH.
  - done.
  - simpl in *. lia.
  - done.
  - rewrite Forall_forall in Hfresh |- *. intros tk' Hin.
    apply Hkeep; simpl; [| |by apply Hfresh].
    + intros Heq. apply Hid. rewrite <- Heq.
      rewrite <- list_fmap_compose. apply (list_elem_of_fmap_2 _ _ _ Hin).
    + intros Heq. apply Hkey. rewrite <- Heq.
      rewrite <- list_fmap_compose. apply (list_elem_of_fmap_2 _ _ _ Hin).
Qed.

Lemma LoadKeysAndInternalIds_loop_tracking keys_left :
  forall v rdb_stream v' pairs,
  loading_inv v ->
  (inc_id_ v + 1 < uint64_modulus)%N ->
  LoadKeysAndInternalIds_loop keys_left v rdb_stream = (OkStatus, v') ->
  rdb_pairs keys_left rdb_stream = Some pairs ->
  well_formed_entries pairs ->
  Forall (fresh_entry v) pairs ->
  tracking_inv v'.
Proof.
  induction keys_left as [|n IH];
    intros v rdb_stream v' pairs Hinv Hroom; simpl.
  - intros [= <-] _ _ _. by apply loading_inv_finish.
  - destruct rdb_stream as [|[id|] [|[|key] rest]]; simpl; try done.
    intros Hloop Hpairs Hwf Hfresh.
    destruct (rdb_pairs n rest) as [pairs'|] eqn:Hrest; [|done].
    simpl in Hpairs. injection Hpairs as <-.
    destruct Hwf as (Hids & Hkeys & Hsmall). simpl in *.
    apply NoDup_cons in Hids as [Hid Hids].
    apply NoDup_cons in Hkeys as [Hkey Hkeys].
    apply Forall_cons in Hsmall as [Hsmall0 Hsmall].
    apply Forall_cons in Hfresh as [Hfresh0 Hfresh].
    match type of Hloop with
    | LoadKeysAndInternalIds_loop _ ?v1 _ = _ =>
        assert (loads_entry v (id, key) v1) as Hstep
          by (repeat split; by eexists)
    end.
    destruct (loads_entry_inv v _ _ Hinv Hfresh0 Hstep) as [Hinv' Hkeep].
    eapply IH; [exact Hinv'| |exact Hloop|exact Hrest|done|].
    + simpl in *. lia.
    + rewrite Forall_forall in Hfresh |- *. intros e' Hin.
      apply Hkeep; simpl; [| |by apply Hfresh].
      * intros Heq. apply Hid. rewrite <- Heq.
        apply (list_elem_of_fmap_2 fst _ _ Hin).
      * intros Heq. apply Hkey. rewrite <- Heq.
        apply (list_elem_of_fmap_2 snd _ _ Hin).
Qed.

Lemma LoadKeysAndInternalIds_loop_pairs keys_left :
  forall v rdb_stream v',
  LoadKeysAndInternalIds_loop keys_left v rdb_stream = (OkStatus, v') ->
  is_Some (rdb_pairs keys_left rdb_stream).
Proof.
  induction keys_left as [|n IH]; intros v rdb_stream v'; simpl; [by eexists|].
  destruct rdb_stream as [|[id|] [|[|key] rest]]; simpl; try done.
  intros Hloop. destruct (IH _ _ _ Hloop) as [pairs ->]. by eexists.
Qed.

Lemma Create_loading_inv dimensions normalize (impl : K) :
  loading_inv (Create dimensions normalize impl).
Proof.
  split; [split|]; simpl; intros ? ?; by rewrite lookup_empty.
Qed.

Lemma originate_tracking dimensions normalize (impl : K) o v0 :
  originate dimensions normalize impl o = (OkStatus, v0) ->
  well_formed_entries (origin_entries o) ->
  tracking_inv v0.
Proof.
  pose proof (Create_loading_inv dimensions normalize impl) as Hinit.
  assert (Hroom : (inc_id_ (Create dimensions normalize impl) + 1
                   < uint64_modulus)%N) by (simpl; done).
  destruct o as [|tracked_keys|rdb_stream]; simpl.
  - intros [= <-] _. destruct Hinit as [Hbij _]. split; [done|].
    intros id key. simpl. by rewrite lookup_empty.
  - intros [= <-] Hwf.
    destruct (LoadTrackedKeys_fold tracked_keys _ Hinit Hroom Hwf)
      as [Hinv Hroom'].
    { apply Forall_forall. intros tk _. split; simpl; apply lookup_empty. }
    by apply loading_inv_finish.
  - unfold LoadKeysAndInternalIds, rdb_entries.
    destruct rdb_stream as [|[count|] rest]; simpl; try done.
    intros Hloop Hwf.
    destruct (LoadKeysAndInternalIds_loop_pairs _ _ _ _ Hloop)
      as [pairs Hpairs].
    rewrite Hpairs in Hwf. simpl in Hwf.
    eapply LoadKeysAndInternalIds_loop_tracking; eauto.
    apply Forall_forall. intros e _. split; simpl; apply lookup_empty.
Qed.
(** *** Saving

    The tracked keys that [ToProto] writes for an index whose maps are
    inverse to each other make a snapshot that loads into such an index
    again. *)
Lemma ToProto_tracked_keys_well_formed v :
  tracking_inv v -> (inc_id_ v < uint64_modulus)%N ->
  well_formed_entries
    ((fun tk => (proto_internal_id tk, proto_key tk))
       <$> ToProto_tracked_keys v).
Proof.
  intros [[Hfwd Hbwd] Hissued] Hcounter. unfold ToProto_tracked_keys.
  rewrite <- list_fmap_compose.
  split; [|split].
  - rewrite <- list_fmap_compose. apply NoDup_fmap_2_strong.
    + intros [k1 md1] [k2 md2] H1 H2 Hid. simpl in Hid.
      apply elem_of_map_to_list in H1, H2.
      pose proof (Hfwd _ _ H1) as Hk1. pose proof (Hfwd _ _ H2) as Hk2.
      rewrite Hid in Hk1. assert (k1 = k2) as -> by congruence.
      congruence.
    + apply NoDup_map_to_list.
  - rewrite <- list_fmap_compose. apply (NoDup_fst_map_to_list _).
  - apply Forall_fmap, Forall_forall. intros [k md] Hin. simpl.
    apply elem_of_map_to_list in Hin.
    specialize (Hissued _ _ (Hfwd _ _ Hin)). lia.
Qed.

End KeyTracking.




(** ** Removing, adding and modifying records *)

Section Records.
Context {K : Type} `{!VectorDataType} `{!VectorImpl K} `{!Embedding}.
Implicit Types v : VectorBase K.

Lemma UnTrackKey_untracked v key :
  key = ""%string \/ tracked_metadata_by_key_ v !! key = None ->
  UnTrackKey v key = (Ok None, v).
Proof.
  intros [-> | Hkey]; unfold UnTrackKey; [done|].
  destruct (String.eqb key ""); [done|]. by rewrite Hkey.
Qed.

Lemma RemoveRecord_untracked v key :
  key = ""%string \/ tracked_metadata_by_key_ v !! key = None ->
  RemoveRecord v key = (Ok false, v).
Proof.
  intros Hkey. unfold RemoveRecord. by rewrite UnTrackKey_untracked.
Qed.

(** After the call the key is gone from the key-to-id map, however the call
    ended, unless the key is empty. *)
Lemma RemoveRecord_untracks v key :
  key = ""%string
  \/ tracked_metadata_by_key_ (RemoveRecord v key).2 !! key = None.
Proof.
  unfold RemoveRecord, UnTrackKey.
  destruct (String.eqb_spec key "") as [->|Hne]; [by left|right].
  destruct (tracked_metadata_by_key_ v !! key) as [md|] eqn:Hkey; simpl;
    [|done].
  destruct (key_by_internal_id_ v !! internal_id md); simpl.
  - destruct (_RemoveRecord _ _) as [[[]|c m] k']; simpl;
      apply lookup_delete_eq.
  - apply lookup_delete_eq.
Qed.

Lemma RemoveRecord_error v key c m v' :
  RemoveRecord v key = (Error c m, v') ->
  exists md,
    tracked_metadata_by_key_ v !! key = Some md
    /\ (key_by_internal_id_ v !! internal_id md = None
        \/ (_RemoveRecord (UnTrackVector (impl_ v) (internal_id md))
              (internal_id md)).1 = Error c m).
Proof.
  unfold RemoveRecord, UnTrackKey.
  destruct (String.eqb key ""); [done|].
  destruct (tracked_metadata_by_key_ v !! key) as [md|] eqn:Hkey; simpl;
    [|done].
  intros Hr. exists md. split; [done|].
  destruct (key_by_internal_id_ v !! internal_id md); simpl in *; [|by left].
  right. destruct (_RemoveRecord _ _) as [[[]|c' m'] k']; simpl in *;
    congruence.
Qed.

(** What [RemoveRecord] leaves of a tracked key, whatever it returns: the
    key is gone from the key map, its id from the id map, and the kernel
    is asked to remove the id when the id map held it. *)
Lemma RemoveRecord_tracked v key md :
  key <> ""%string ->
  tracked_metadata_by_key_ v !! key = Some md ->
  let v' := (RemoveRecord v key).2 in
  let untracked := UnTrackVector (impl_ v) (internal_id md) in
  tracked_metadata_by_key_ v' = delete key (tracked_metadata_by_key_ v)
  /\ key_by_internal_id_ v'
     = delete (internal_id md) (key_by_internal_id_ v)
  /\ impl_ v'
     = match key_by_internal_id_ v !! internal_id md with
       | Some _ => (_RemoveRecord untracked (internal_id md)).2
       | None => untracked
       end.
Proof.
  intros Hne Hkey. unfold RemoveRecord, UnTrackKey.
  apply String.eqb_neq in Hne. rewrite Hne, Hkey. simpl.
  destruct (key_by_internal_id_ v !! internal_id md) eqn:Hid; simpl.
  - destruct (_RemoveRecord _ _) as [[[]|c m] k']; done.
  - by rewrite (delete_id (key_by_internal_id_ v)).
Qed.
End Records.

(** C10, as the code has it.  [RemoveRecord] always returns.  On a key that
    is not tracked, and on the empty key, it returns false with no error
    and leaves the index as it was; whatever the first call did, a second
    call on the same key is such a call.  An error means that the key was
    tracked and either its id was missing from the id-to-key map or the
    kernel's own removal of the id failed with that error. *)
Theorem RemoveRecord_total_and_idempotent
    {K : Type} `{!VectorImpl K} (v : VectorBase K) (key : string) :
  (key = ""%string \/ IsTracked v key = false ->
   RemoveRecord v key = (Ok false, v))
  /\ RemoveRecord (RemoveRecord v key).2 key
     = (Ok false, (RemoveRecord v key).2)
  /\ (forall c m v',
        RemoveRecord v key = (Error c m, v') ->
        exists md,
          tracked_metadata_by_key_ v !! key = Some md
          /\ (key_by_internal_id_ v !! internal_id md = None
              \/ (_RemoveRecord (UnTrackVector (impl_ v) (internal_id md))
                    (internal_id md)).1 = Error c m)).
Proof.
  split; [|split].
  - intros [Hkey|Hkey]; apply RemoveRecord_untracked; [by left|right].
    unfold IsTracked in Hkey. apply bool_decide_eq_false in Hkey.
    by apply eq_None_not_Some.
  - apply RemoveRecord_untracked, RemoveRecord_untracks.
  - apply RemoveRecord_error.
Qed.

(** [RemoveRecord_total_and_idempotent] on a key that was never added. *)
Lemma RemoveRecord_total_and_idempotent_witness :
  RemoveRecord Examples.history_result "b" = (Ok false, Examples.history_result).
Proof.
  apply (proj1 (RemoveRecord_total_and_idempotent Examples.history_result "b")).
  right. vm_compute. reflexivity.
Defined.

(** C10, as the claim has it, fails: the two maps agree on key "a", the
    kernel does not hold its id, and the call reports the kernel's
    error. *)
Lemma RemoveRecord_error_with_agreeing_maps :
  let v : VectorBase VectorFlat :=
    (originate 1 false (Examples.flat 2)
       (LoadedTrackedKeys [Examples.tracked "a" 1])).2 in
  GetInternalId v "a" = Ok 1%N
  /\ GetKeyDuringSearch v 1%N = Ok "a"%string
  /\ status_code (RemoveRecord v "a").1 = Some kInternal.
Proof. vm_compute. auto. Qed.

Lemma IsValidSizeVector_float32 {K : Type} (v : VectorBase K) (record : string) :
  IsValidSizeVector v record = false
  <-> N.of_nat (String.length record) <> (dimensions_ v * 4)%N.
Proof. unfold IsValidSizeVector. simpl. apply N.eqb_neq. Qed.

Lemma InternVector_wrong_size {K : Type} `{!Embedding} (v : VectorBase K)
    (record : string) :
  IsValidSizeVector v record = false -> InternVector v record = None.
Proof. intros Hsize. unfold InternVector. by rewrite Hsize. Qed.

Lemma InternVector_right_size {K : Type} `{!Embedding} (v : VectorBase K)
    (record : string) :
  N.of_nat (String.length record) = (dimensions_ v * 4)%N ->
  exists interned magnitude,
    InternVector v record = Some (interned, magnitude).
Proof.
  intros Hsize. unfold InternVector, IsValidSizeVector. simpl.
  apply N.eqb_eq in Hsize. rewrite Hsize. simpl.
  destruct (normalize_ v); [|by eauto].
  destruct (NormalizeEmbedding record 4) as [norm_record magnitude].
  by eauto.
Qed.

(** C7, as the code has it.  On a payload whose length is not
    [dimensions × 4], [AddRecord] returns false without an error and leaves
    the index as it was, [ModifyRecord] removes the key's record and
    returns false without an error, and [Search] on such a query returns
    [InvalidArgument]. *)
Theorem wrong_size_payload
    {K : Type} `{!VectorImpl K} `{!Embedding} `{!BruteforceKernel}
    (v : VectorBase K) (flat : VectorBase VectorFlat)
    (key record : string) (count : N) (filter : option (N -> bool)) :
  N.of_nat (String.length record) <> (dimensions_ v * 4)%N ->
  N.of_nat (String.length record) <> (dimensions_ flat * 4)%N ->
  AddRecord v key record = Some (Ok false, v)
  /\ ModifyRecord v key record = (Ok false, (RemoveRecord v key).2)
  /\ status_code (Flat.Search flat record count filter)
     = Some kInvalidArgument.
Proof.
  intros Hv Hflat.
  apply IsValidSizeVector_float32 in Hv, Hflat.
  unfold AddRecord, ModifyRecord, Flat.Search.
  rewrite (InternVector_wrong_size v record Hv), Hflat. done.
Qed.

(** [wrong_size_payload] on a two-byte payload for an index of dimension
    one. *)
Lemma wrong_size_payload_witness :
  AddRecord Examples.history_result "a" "AB"
  = Some (Ok false, Examples.history_result)
  /\ ModifyRecord Examples.history_result "a" "AB"
     = (Ok false, (RemoveRecord Examples.history_result "a").2)
  /\ status_code (Flat.Search Examples.history_result "AB" 2 None)
     = Some kInvalidArgument.
Proof.
  apply (wrong_size_payload Examples.history_result Examples.history_result
           "a" "AB" 2 None); vm_compute; discriminate.
Defined.

(** C7, as the claim has it, fails: adding a two-byte payload to an index
    of dimension one is answered with false, not with an error. *)
Lemma AddRecord_wrong_size_is_no_error :
  let v : VectorBase VectorFlat := Create 1 false (Examples.flat 2) in
  N.of_nat (String.length "AB") <> (dimensions_ v * 4)%N
  /\ AddRecord v "a" "AB" = Some (Ok false, v)
  /\ ok (ModifyRecord Examples.history_result "a" "AB").1 = true.
Proof. vm_compute. split; [discriminate|done]. Qed.

(** ** Modifying a record of the flat index *)

Section FlatModify.
Context `{!BruteforceKernel} `{!Embedding}.

#[local] Instance flat_rounds_impl (rounds : nat) : VectorImpl VectorFlat :=
  Flat.impl rounds.

Lemma ModifyRecord_flat_unfold (rounds : nat) (v : VectorBase VectorFlat)
    (key record interned : string) (magnitude : option float)
    (md : TrackedKeyMetadata) :
  key <> ""%string ->
  tracked_metadata_by_key_ v !! key = Some md ->
  InternVector v record = Some (interned, magnitude) ->
  let v1 := (UpdateMetadata v key (value_or magnitude kDefaultMagnitude)
               interned).2 in
  ModifyRecord (VectorImpl0 := Flat.impl rounds) v key record
  = match Flat.ModifyRecordImpl (dimensions_ v) (impl_ v1)
            (internal_id md) interned with
    | (Ok b, flat) => (Ok b, with_impl v1 flat)
    | (Error c m, flat) =>
        (Error c m, (UnTrackKey (with_impl v1 flat) key).2)
    end.
Proof.
  intros Hne Hkey Hintern. unfold ModifyRecord, GetInternalId, UpdateMetadata.
  rewrite Hintern, Hkey. apply String.eqb_neq in Hne. rewrite Hne. simpl.
  destruct (Flat.ModifyRecordImpl _ _ _ _) as [[b|c m] flat]; done.
Qed.

Lemma UpdateMetadata_tracked (v : VectorBase VectorFlat)
    (key vector : string) (magnitude : float) (md : TrackedKeyMetadata) :
  key <> ""%string ->
  tracked_metadata_by_key_ v !! key = Some md ->
  UpdateMetadata v key magnitude vector
  = (OkStatus,
     mkVectorBase (dimensions_ v) (normalize_ v) (inc_id_ v)
       (<[key := {| internal_id := internal_id md; magnitude := magnitude |}]>
          (tracked_metadata_by_key_ v))
       (key_by_internal_id_ v)
       (Flat.TrackVector (impl_ v) (internal_id md) vector)).
Proof.
  intros Hne Hkey. unfold UpdateMetadata. apply String.eqb_neq in Hne.
  by rewrite Hne, Hkey.
Qed.
End FlatModify.

(** C8, as the code has it.  For a non-empty key tracked by the flat
    index.  Given bytes of the right size and a kernel that holds the
    key's id, [ModifyRecord] returns false when the payload (normalized, if
    the index normalizes) equals the bytes stored for the key, and then
    the kernel is as before; otherwise it returns true and the key's slot
    holds the new payload; either way the id map and the id of the key are
    as before, and the key's magnitude and tracked vector are those of the
    new bytes.  Given bytes of another size it returns false and untracks
    the key: the key leaves the key map, its id the id map, its tracked
    vector is dropped, and the kernel is asked to remove the id when the
    id map held it.  For a tracked empty key the call changes nothing: it
    is an [InvalidArgument] error on bytes of the right size and false on
    others. *)
Theorem ModifyRecord_flat_reports_change
    `{!BruteforceKernel} `{!Embedding} (rounds : nat)
    (v : VectorBase VectorFlat) (key record : string)
    (md : TrackedKeyMetadata) :
  tracked_metadata_by_key_ v !! key = Some md ->
  let r := ModifyRecord (VectorImpl0 := Flat.impl rounds) v key record in
  let id := internal_id md in
  (key <> ""%string ->
   (forall (interned : string) (magnitude : option float) (slot : nat),
      InternVector v record = Some (interned, magnitude) ->
      dict_external_to_internal (algo_ (impl_ v)) !! id = Some slot ->
      let stored := Flat.saved_record (dimensions_ v) (impl_ v) slot in
      GetInternalId r.2 key = Ok id
      /\ key_by_internal_id_ r.2 = key_by_internal_id_ v
      /\ (stored = interned ->
          r.1 = Ok false /\ algo_ (impl_ r.2) = algo_ (impl_ v))
      /\ (stored <> interned ->
          r.1 = Ok true
          /\ data_ (algo_ (impl_ r.2))
             = <[slot := (interned, id)]> (data_ (algo_ (impl_ v))))
      /\ tracked_metadata_by_key_ r.2
         = <[key := {| internal_id := id;
                       magnitude := value_or magnitude kDefaultMagnitude |}]>
             (tracked_metadata_by_key_ v)
      /\ tracked_vectors_ (impl_ r.2)
         = <[id := interned]> (tracked_vectors_ (impl_ v)))
   /\ (N.of_nat (String.length record) <> (dimensions_ v * 4)%N ->
       r.1 = Ok false
       /\ IsTracked r.2 key = false
       /\ tracked_metadata_by_key_ r.2
          = delete key (tracked_metadata_by_key_ v)
       /\ key_by_internal_id_ r.2 = delete id (key_by_internal_id_ v)
       /\ tracked_vectors_ (impl_ r.2)
          = delete id (tracked_vectors_ (impl_ v))
       /\ (is_Some (key_by_internal_id_ v !! id) ->
           impl_ r.2
           = (Flat.RemoveRecordImpl (Flat.UnTrackVector (impl_ v) id) id).2)))
  /\ (key = ""%string ->
      (N.of_nat (String.length record) = (dimensions_ v * 4)%N ->
       r = (Error kInvalidArgument "key can't be empty", v))
      /\ (N.of_nat (String.length record) <> (dimensions_ v * 4)%N ->
          r = (Ok false, v))).
Proof.
  intros Hkey r id. subst r id. split; [intros Hne; split|intros ->; split].
  - intros interned magnitude slot Hintern Hslot stored.
    rewrite (ModifyRecord_flat_unfold rounds v key record interned magnitude
               md) by done.
    rewrite (UpdateMetadata_tracked v key interned _ md) by done. simpl.
    unfold Flat.ModifyRecordImpl. simpl. rewrite Hslot.
    change (Flat.saved_record (dimensions_ v)
              (Flat.TrackVector (impl_ v) (internal_id md) interned) slot)
      with stored.
    destruct (String.eqb_spec stored interned) as [Heq|Hneq]; simpl;
      unfold GetInternalId; simpl; rewrite lookup_insert_eq; done.
  - intros Hsize. apply IsValidSizeVector_float32 in Hsize.
    unfold ModifyRecord. rewrite (InternVector_wrong_size v record Hsize).
    destruct (RemoveRecord_tracked (VectorImpl0 := Flat.impl rounds)
                v key md Hne Hkey) as (Hmd & Hby_id & Himpl).
    simpl in *. split; [done|]. split.
    { unfold IsTracked. apply bool_decide_eq_false. rewrite Hmd.
      rewrite lookup_delete_eq. by intros [? ?]. }
    split; [done|]. split; [done|]. split.
    + rewrite Himpl.
      destruct (key_by_internal_id_ v !! internal_id md); [|done].
      unfold Flat.RemoveRecordImpl. simpl.
      by destruct (removePoint _ _).
    + intros [key' Hid]. rewrite Himpl. by rewrite Hid.
  - intros Hsize.
    destruct (InternVector_right_size v record Hsize)
      as (interned & magnitude & Hintern).
    unfold ModifyRecord, GetInternalId, UpdateMetadata.
    by rewrite Hintern, Hkey.
  - intros Hsize. apply IsValidSizeVector_float32 in Hsize.
    unfold ModifyRecord. rewrite (InternVector_wrong_size v record Hsize).
    by rewrite (RemoveRecord_untracked (VectorImpl0 := Flat.impl rounds))
      by by left.
Qed.

(** [ModifyRecord_flat_reports_change] on key "a" of the example index,
    which stores "ABCD" for it, and on the empty key of an index loaded
    from a snapshot that names it. *)
Lemma ModifyRecord_flat_reports_change_witness :
  let v := Examples.history_result in
  let loaded : VectorBase VectorFlat :=
    (originate 1 false (Examples.flat 2)
       (LoadedTrackedKeys [Examples.tracked "" 5])).2 in
  (ModifyRecord v "a" "ABCD").1 = Ok false
  /\ (ModifyRecord v "a" "ABCE").1 = Ok true
  /\ (ModifyRecord v "a" "AB").1 = Ok false
  /\ IsTracked (ModifyRecord v "a" "AB").2 "a" = false
  /\ ModifyRecord loaded "" "ABCD"
     = (Error kInvalidArgument "key can't be empty", loaded)
  /\ ModifyRecord loaded "" "AB" = (Ok false, loaded).
Proof.
  set (md := {| internal_id := 0; magnitude := kDefaultMagnitude |}).
  set (md' := {| internal_id := 5; magnitude := kDefaultMagnitude |}).
  assert (tracked_metadata_by_key_ Examples.history_result !! "a"%string
          = Some md) as Ha by (vm_compute; reflexivity).
  intros v loaded.
  assert (tracked_metadata_by_key_ loaded !! ""%string = Some md') as Hempty
    by (vm_compute; reflexivity).
  assert ("a"%string <> ""%string) as Hne by discriminate.
  destruct (proj1 (ModifyRecord_flat_reports_change 3 v "a" "ABCD" md Ha) Hne)
    as [Hsame _].
  destruct (Hsame "ABCD"%string None 0) as (_ & _ & Hfalse & _);
    [vm_compute; reflexivity ..|].
  destruct (proj1 (ModifyRecord_flat_reports_change 3 v "a" "ABCE" md Ha) Hne)
    as [Hother _].
  destruct (Hother "ABCE"%string None 0) as (_ & _ & _ & Htrue & _);
    [vm_compute; reflexivity ..|].
  destruct (proj1 (ModifyRecord_flat_reports_change 3 v "a" "AB" md Ha) Hne)
    as [_ Hshort].
  destruct Hshort as (Hremoved & Hgone & _); [vm_compute; discriminate|].
  destruct (proj2 (ModifyRecord_flat_reports_change 3 loaded "" "ABCD" md'
                     Hempty) eq_refl) as [Hrefused _].
  destruct (proj2 (ModifyRecord_flat_reports_change 3 loaded "" "AB" md'
                     Hempty) eq_refl) as [_ Hkept].
  split; [apply Hfalse; vm_compute; reflexivity|].
  split; [apply Htrue; vm_compute; discriminate|].
  split; [exact Hremoved|]. split; [exact Hgone|].
  split; [apply Hrefused; vm_compute; reflexivity|].
  apply Hkept. vm_compute. discriminate.
Defined.

(** C8, as the claim has it, fails: for the tracked key "a" a two-byte
    payload differs from the stored "ABCD", yet the call returns false, and
    it is no no-op: the key is gone afterwards. *)
Lemma ModifyRecord_wrong_size_returns_false :
  let v := Examples.history_result in
  IsTracked v "a" = true
  /\ Flat.saved_record (dimensions_ v) (impl_ v) 0 = "ABCD"%string
  /\ (ModifyRecord v "a" "AB").1 = Ok false
  /\ IsTracked (ModifyRecord v "a" "AB").2 "a" = false.
Proof. vm_compute. auto. Qed.

(** ** The reply of a search *)

(** The neighbor that [CreateReply] makes of a queue element, if its id
    has a key. *)
Definition neighbor_of {K : Type} (v : VectorBase K)
    (ele : PriorityQueue.value_type) : option Neighbor :=
  match GetKeyDuringSearch v ele.2 with
  | Ok vector_key =>
      Some {| external_id := vector_key; distance := ele.1;
              attribute_contents := None |}
  | Error _ _ => None
  end.

Lemma CreateReply_loop_pops {K : Type} (v : VectorBase K)
    (knn_res : PriorityQueue.t) : forall ret,
  CreateReply_loop v knn_res ret = ret ++ omap (neighbor_of v) knn_res.
Proof.
  induction knn_res as [|ele q IH]; intros ret; simpl.
  - by rewrite app_nil_r.
  - unfold neighbor_of at 1.
    destruct (GetKeyDuringSearch v ele.2) as [vector_key|c m]; simpl.
    + rewrite IH. by rewrite <- app_assoc.
    + apply IH.
Qed.

(** The reply lists the queue's elements in the order in which the queue
    pops them. *)
Lemma CreateReply_pop_order {K : Type} (v : VectorBase K)
    (knn_res : PriorityQueue.t) :
  CreateReply v knn_res = Ok (omap (neighbor_of v) knn_res).
Proof. unfold CreateReply. by rewrite CreateReply_loop_pops. Qed.

(** The comparison of floats is antisymmetric, unordered pairs
    included. *)
Lemma SFcompare_antisym (x y : spec_float) :
  SFcompare y x = option_map CompOpp (SFcompare x y).
Proof.
  destruct x as [sx|sx| |sx mx ex], y as [sy|sy| |sy my ey]; simpl;
    try done; try (by destruct sx); try (by destruct sy);
    try (by destruct sx, sy).
  destruct sx, sy; simpl; try done;
    rewrite (Z.compare_antisym ex ey);
    destruct (ex ?= ey)%Z; simpl; try done.
  - do 2 f_equal. apply (Pos.compare_antisym mx my).
  - f_equal. apply (Pos.compare_antisym mx my).
Qed.

Lemma float_ltb_not_leb (x y : float) :
  PrimFloat.ltb x y = true -> PrimFloat.leb y x = false.
Proof.
  rewrite FloatAxioms.ltb_spec, FloatAxioms.leb_spec.
  unfold SFltb, SFleb. rewrite (SFcompare_antisym (Prim2SF x) (Prim2SF y)).
  by destruct (SFcompare (Prim2SF x) (Prim2SF y)) as [[]|].
Qed.

Lemma float_ltb_asym (x y : float) :
  PrimFloat.ltb x y = true -> PrimFloat.ltb y x = false.
Proof.
  rewrite !FloatAxioms.ltb_spec.
  unfold SFltb. rewrite (SFcompare_antisym (Prim2SF x) (Prim2SF y)).
  by destruct (SFcompare (Prim2SF x) (Prim2SF y)) as [[]|].
Qed.

Lemma float_ltb_not_eqb (x y : float) :
  PrimFloat.ltb x y = true -> PrimFloat.eqb y x = false.
Proof.
  rewrite FloatAxioms.ltb_spec, FloatAxioms.eqb_spec.
  unfold SFltb, SFeqb. rewrite (SFcompare_antisym (Prim2SF x) (Prim2SF y)).
  by destruct (SFcompare (Prim2SF x) (Prim2SF y)) as [[]|].
Qed.

(** Whatever the index and the distances: of two candidates with keys,
    the one at the strictly larger distance comes first in the reply, in
    whichever order the kernel put them into its queue. *)
Lemma CreateReply_pair_farthest_first {K : Type} (v : VectorBase K)
    (near far : PriorityQueue.value_type) (near_key far_key : string) :
  GetKeyDuringSearch v near.2 = Ok near_key ->
  GetKeyDuringSearch v far.2 = Ok far_key ->
  PrimFloat.ltb near.1 far.1 = true ->
  let reply :=
    [{| external_id := far_key; distance := far.1;
        attribute_contents := None |};
     {| external_id := near_key; distance := near.1;
        attribute_contents := None |}] in
  CreateReply v (PriorityQueue.of_list [near; far]) = Ok reply
  /\ CreateReply v (PriorityQueue.of_list [far; near]) = Ok reply
  /\ ~ ascending reply.
Proof.
  intros Hnear Hfar Hlt reply.
  assert (PriorityQueue.less near far = true) as Hless.
  { unfold PriorityQueue.less. by rewrite Hlt. }
  assert (PriorityQueue.less far near = false) as Hless'.
  { unfold PriorityQueue.less.
    by rewrite (float_ltb_asym _ _ Hlt), (float_ltb_not_eqb _ _ Hlt). }
  rewrite !CreateReply_pop_order.
  split; [|split].
  - simpl. rewrite Hless. simpl. unfold neighbor_of. by rewrite Hnear, Hfar.
  - simpl. rewrite Hless'. simpl. unfold neighbor_of. by rewrite Hnear, Hfar.
  - intros Hasc. specialize (Hasc 0 _ _ eq_refl eq_refl). simpl in Hasc.
    by rewrite (float_ltb_not_leb _ _ Hlt) in Hasc.
Qed.

(** C1 on the code: the queue of a search pops the farthest element first
    and [CreateReply] appends in that order, so the reply comes out
    farthest first.  For key "a" at distance 0 and key "b" at distance 2
    the reply is b, a. *)
Theorem Search_reply_farthest_first :
  let v := Examples.near_and_far in
  let far := {| external_id := "b"; distance := 2;
                attribute_contents := None |} in
  let near := {| external_id := "a"; distance := 0;
                 attribute_contents := None |} in
  CreateReply v (PriorityQueue.of_list [(0%float, 0%N); (2%float, 1%N)])
  = Ok [far; near]
  /\ Flat.Search v "AAAA" 2 None = Ok [far; near]
  /\ ~ ascending [far; near].
Proof.
  split; [vm_compute; reflexivity|]. split; [vm_compute; reflexivity|].
  intros Hasc. specialize (Hasc 0 _ _ eq_refl eq_refl). vm_compute in Hasc.
  discriminate.
Qed.

(** ** The bounded heap of the pre-filter plan *)

Lemma float_eqb_not_ltb (x y : float) :
  PrimFloat.eqb x y = true -> PrimFloat.ltb x y = false.
Proof.
  rewrite FloatAxioms.eqb_spec, FloatAxioms.ltb_spec.
  unfold SFeqb, SFltb. by destruct (SFcompare _ _) as [[]|].
Qed.

Lemma float_eqb_not_gtb (x y : float) :
  PrimFloat.eqb x y = true -> PrimFloat.ltb y x = false.
Proof.
  rewrite FloatAxioms.eqb_spec, FloatAxioms.ltb_spec.
  unfold SFeqb, SFltb. rewrite (SFcompare_antisym (Prim2SF x) (Prim2SF y)).
  by destruct (SFcompare (Prim2SF x) (Prim2SF y)) as [[]|].
Qed.

(** Every float but a NaN compares equal to itself. *)
Lemma SFcompare_refl (x : spec_float) :
  x = S754_nan \/ SFcompare x x = Some Eq.
Proof.
  destruct x as [sx|sx| |sx mx ex]; simpl; [by right|by destruct sx; right
                                            |by left|right].
  rewrite Z.compare_refl.
  destruct sx; [|by rewrite Pos.compare_refl].
  by rewrite Pos.compare_refl.
Qed.

(** A NaN is below nothing, and nothing is below it. *)
Lemma float_nan_not_ltb (x y : float) :
  PrimFloat.is_nan x = true ->
  PrimFloat.ltb x y = false /\ PrimFloat.ltb y x = false.
Proof.
  unfold PrimFloat.is_nan. rewrite negb_true_iff.
  rewrite FloatAxioms.eqb_spec, !FloatAxioms.ltb_spec. unfold SFeqb, SFltb.
  destruct (SFcompare_refl (Prim2SF x)) as [Hnan|Hrefl];
    [rewrite Hnan|by rewrite Hrefl].
  intros _. split; [done|].
  destruct (Prim2SF y) as [s|s| |s m e]; try done; by destruct s.
Qed.

Section BoundedHeap.
Context {K : Type} `{!VectorImpl K}.
Implicit Types (v : VectorBase K) (result top : PriorityQueue.value_type).

(** The call on a candidate that the kept ids do not contain yet. *)
Lemma AddPrefilteredKey_new v query count key results top_keys result :
  ComputeDistanceFromRecord v key query = Ok result ->
  result.2 ∉ top_keys ->
  AddPrefilteredKey v query count key results top_keys
  = if PriorityQueue.size results <? count then
      Some (PriorityQueue.emplace result results, {[result.2]} ∪ top_keys)
    else
      match PriorityQueue.top results with
      | None => None
      | Some top =>
          if PrimFloat.ltb result.1 top.1 then
            Some (PriorityQueue.emplace result (PriorityQueue.pop results),
                  {[result.2]} ∪ (top_keys ∖ {[top.2]}))
          else Some (results, top_keys)
      end.
Proof.
  intros Hdist Hnew. unfold AddPrefilteredKey.
  by rewrite Hdist, bool_decide_eq_false_2.
Qed.

(** Two candidates at equal distance, put into the empty heap one after
    the other: the one with the larger id comes out on top. *)
Lemma AddPrefilteredKey_pair v query count key key' result result'
    (first second : string) :
  ComputeDistanceFromRecord v key query = Ok result ->
  ComputeDistanceFromRecord v key' query = Ok result' ->
  PrimFloat.eqb result.1 result'.1 = true ->
  (result.2 < result'.2)%N ->
  2 <= count ->
  (first = key /\ second = key') \/ (first = key' /\ second = key) ->
  fst <$> (AddPrefilteredKey v query count first PriorityQueue.empty ∅
             ≫= fun '(results, top_keys) =>
                  AddPrefilteredKey v query count second results top_keys)
  = Some [result'; result].
Proof.
  intros Hdist Hdist' Htie Hid Hcount Horder.
  assert (PriorityQueue.less result result' = true) as Hless.
  { unfold PriorityQueue.less.
    rewrite Htie, (float_eqb_not_ltb _ _ Htie). simpl.
    by apply N.ltb_lt. }
  assert (PriorityQueue.less result' result = false) as Hless'.
  { unfold PriorityQueue.less. rewrite (float_eqb_not_gtb _ _ Htie). simpl.
    apply andb_false_iff. right. apply N.ltb_ge. lia. }
  assert ((0 <? count) = true) as H0 by (apply Nat.ltb_lt; lia).
  assert ((1 <? count) = true) as H1 by (apply Nat.ltb_lt; lia).
  destruct Horder as [[-> ->]|[-> ->]].
  - rewrite (AddPrefilteredKey_new v query count key _ _ result)
      by set_solver.
    cbn [PriorityQueue.size PriorityQueue.empty length].
    rewrite H0. cbn [mbind option_bind].
    rewrite (AddPrefilteredKey_new v query count key' _ _ result')
      by first [done
               |apply not_elem_of_union; split;
                  [apply not_elem_of_singleton; lia|apply not_elem_of_empty]].
    cbn [PriorityQueue.size PriorityQueue.emplace PriorityQueue.empty length].
    by rewrite H1, Hless'.
  - rewrite (AddPrefilteredKey_new v query count key' _ _ result')
      by set_solver.
    cbn [PriorityQueue.size PriorityQueue.empty length].
    rewrite H0. cbn [mbind option_bind].
    rewrite (AddPrefilteredKey_new v query count key _ _ result)
      by first [done
               |apply not_elem_of_union; split;
                  [apply not_elem_of_singleton; lia|apply not_elem_of_empty]].
    cbn [PriorityQueue.size PriorityQueue.emplace PriorityQueue.empty length].
    by rewrite H1, Hless.
Qed.

End BoundedHeap.

(** C5, as the code has it.  A candidate whose id is not among the kept
    ids is admitted while the heap holds fewer than [count] candidates.
    Once the heap holds [count], the candidate takes the place of the
    heap's top exactly when its distance is strictly smaller than the
    top's; at an equal, a larger or an unordered distance (a NaN) the heap
    and the set of kept ids stay as they are, whatever the keys.  And two
    candidates at equal distance that both enter the empty heap leave the
    one with the larger internal id on top, in whichever order they
    arrive and whatever their keys. *)
Theorem AddPrefilteredKey_displaces_only_nearer
    {K : Type} `{!VectorImpl K} (v : VectorBase K) (query key : string)
    (count : nat) (result : PriorityQueue.value_type) :
  ComputeDistanceFromRecord v key query = Ok result ->
  (forall (results : PriorityQueue.t) (top_keys : gset N),
     result.2 ∉ top_keys ->
     let added := AddPrefilteredKey v query count key results top_keys in
     (PriorityQueue.size results < count ->
      added = Some (PriorityQueue.emplace result results,
                    {[result.2]} ∪ top_keys))
     /\ (forall top : PriorityQueue.value_type,
           count <= PriorityQueue.size results ->
           PriorityQueue.top results = Some top ->
           (PrimFloat.ltb result.1 top.1 = true ->
            added
            = Some (PriorityQueue.emplace result (PriorityQueue.pop results),
                    {[result.2]} ∪ (top_keys ∖ {[top.2]})))
           /\ (PrimFloat.ltb result.1 top.1 = false ->
               added = Some (results, top_keys))
           /\ (PrimFloat.eqb result.1 top.1 = true
               \/ PrimFloat.ltb top.1 result.1 = true
               \/ PrimFloat.is_nan result.1 = true
               \/ PrimFloat.is_nan top.1 = true ->
               added = Some (results, top_keys))))
  /\ (forall (key' : string) (result' : PriorityQueue.value_type),
        ComputeDistanceFromRecord v key' query = Ok result' ->
        PrimFloat.eqb result.1 result'.1 = true ->
        (result.2 < result'.2)%N ->
        2 <= count ->
        fst <$> (AddPrefilteredKey v query count key PriorityQueue.empty ∅
                   ≫= fun '(results, top_keys) =>
                        AddPrefilteredKey v query count key' results top_keys)
        = Some [result'; result]
        /\ fst <$> (AddPrefilteredKey v query count key' PriorityQueue.empty ∅
                      ≫= fun '(results, top_keys) =>
                           AddPrefilteredKey v query count key results
                             top_keys)
           = Some [result'; result]).
Proof.
  intros Hdist. split.
  - intros results top_keys Hnew added. subst added.
    rewrite (AddPrefilteredKey_new v query count key results top_keys result)
      by done.
    split.
    { intros Hroom. apply Nat.ltb_lt in Hroom. by rewrite Hroom. }
    intros top Hfull Htop.
    assert ((PriorityQueue.size results <? count) = false) as ->
      by (apply Nat.ltb_ge; lia).
    rewrite Htop.
    assert (PrimFloat.ltb result.1 top.1 = false ->
            (if PrimFloat.ltb result.1 top.1
             then Some (PriorityQueue.emplace result
                          (PriorityQueue.pop results),
                        {[result.2]} ∪ (top_keys ∖ {[top.2]}))
             else Some (results, top_keys))
            = Some (results, top_keys)) as Hkeep by (by intros ->).
    split; [by intros ->|]. split; [done|].
    intros [Htie|[Hfar|[Hnan|Hnan]]]; apply Hkeep.
    + by apply float_eqb_not_ltb.
    + by apply float_ltb_asym.
    + by apply (float_nan_not_ltb result.1 top.1).
    + by apply (float_nan_not_ltb top.1 result.1).
  - intros key' result' Hdist' Htie Hid Hcount. split.
    + apply (AddPrefilteredKey_pair v query count key key' result result');
        auto.
    + apply (AddPrefilteredKey_pair v query count key key' result result');
        auto.
Qed.

(** [AddPrefilteredKey_displaces_only_nearer] on the two keys of
    [Examples.twins], both at distance 1 from the query, "b" under id 0 and
    "a" under id 1: with room for one, "a" does not displace "b"; with
    room for two, "a" ends up on top whichever comes first.  And in
    [Examples.near_and_far] key "a" at distance 0 displaces id 1 at
    distance 2. *)
Lemma AddPrefilteredKey_displaces_only_nearer_witness :
  let v := Examples.twins in
  AddPrefilteredKey Examples.near_and_far "AAAA" 1 "a" [(2%float, 1%N)]
    {[1%N]}
  = Some ([(0%float, 0%N)], {[0%N]} ∪ ({[1%N]} ∖ {[1%N]}))
  /\ AddPrefilteredKey v "AAAB" 1 "a" [(1%float, 0%N)] {[0%N]}
  = Some ([(1%float, 0%N)], {[0%N]})
  /\ AddPrefilteredKey v "AAAB" 2 "a" [(1%float, 0%N)] {[0%N]}
     = Some ([(1%float, 1%N); (1%float, 0%N)], {[1%N]} ∪ {[0%N]})
  /\ fst <$> (AddPrefilteredKey v "AAAB" 2 "b" PriorityQueue.empty ∅
                ≫= fun '(results, top_keys) =>
                     AddPrefilteredKey v "AAAB" 2 "a" results top_keys)
     = Some [(1%float, 1%N); (1%float, 0%N)]
  /\ fst <$> (AddPrefilteredKey v "AAAB" 2 "a" PriorityQueue.empty ∅
                ≫= fun '(results, top_keys) =>
                     AddPrefilteredKey v "AAAB" 2 "b" results top_keys)
     = Some [(1%float, 1%N); (1%float, 0%N)].
Proof.
  intros v.
  assert (ComputeDistanceFromRecord v "a" "AAAB" = Ok (1%float, 1%N)) as Ha
    by (vm_compute; reflexivity).
  assert (ComputeDistanceFromRecord v "b" "AAAB" = Ok (1%float, 0%N)) as Hb
    by (vm_compute; reflexivity).
  assert ((1%float, 1%N).2 ∉ ({[0%N]} : gset N)) as Hnew
    by (apply (bool_decide_unpack _); vm_compute; exact I).
  destruct (proj1 (AddPrefilteredKey_displaces_only_nearer v "AAAB" "a" 1
                     (1%float, 1%N) Ha) [(1%float, 0%N)] {[0%N]} Hnew)
    as [_ Hfull].
  destruct (Hfull (1%float, 0%N)) as (_ & _ & Htie);
    [simpl; lia|reflexivity|].
  destruct (proj1 (AddPrefilteredKey_displaces_only_nearer v "AAAB" "a" 2
                     (1%float, 1%N) Ha) [(1%float, 0%N)] {[0%N]} Hnew)
    as [Hroom _].
  assert (ComputeDistanceFromRecord Examples.near_and_far "a" "AAAA"
          = Ok (0%float, 0%N)) as Hnear by (vm_compute; reflexivity).
  assert ((0%float, 0%N).2 ∉ ({[1%N]} : gset N)) as Hnew'
    by (apply (bool_decide_unpack _); vm_compute; exact I).
  destruct (proj1 (AddPrefilteredKey_displaces_only_nearer
                     Examples.near_and_far "AAAA" "a" 1 (0%float, 0%N) Hnear)
              [(2%float, 1%N)] {[1%N]} Hnew') as [_ Hfull'].
  destruct (Hfull' (2%float, 1%N)) as (Hnearer & _);
    [simpl; lia|reflexivity|].
  split; [apply Hnearer; vm_compute; reflexivity|].
  split; [apply Htie; left; vm_compute; reflexivity|].
  split; [apply Hroom; simpl; lia|].
  apply (proj2 (AddPrefilteredKey_displaces_only_nearer v "AAAB" "b" 2
                  (1%float, 0%N) Hb) "a"%string (1%float, 1%N) Ha);
    [vm_compute; reflexivity|simpl; lia|lia].
Defined.

(** C5, as the claim has it, fails: keys "b" and "a" are at the same
    distance from the query; with room for one candidate, "b" goes in
    first and stays, and the lexicographically smaller "a" is dropped. *)
Lemma AddPrefilteredKey_keeps_first_comer :
  let v := Examples.twins in
  ComputeDistanceFromRecord v "b" "AAAB" = Ok (1%float, 0%N)
  /\ ComputeDistanceFromRecord v "a" "AAAB" = Ok (1%float, 1%N)
  /\ String.compare "a" "b" = Lt
  /\ (AddPrefilteredKey v "AAAB" 1 "b" PriorityQueue.empty ∅
        ≫= fun '(results, top_keys) =>
             AddPrefilteredKey v "AAAB" 1 "a" results top_keys)
     = Some ([(1%float, 0%N)], {[0%N]}).
Proof. vm_compute. auto. Qed.

(** ** The window of the FT.SEARCH reply *)

(** The loop over the window reads every position it visits. *)
Lemma for_each_index_in_range (neighbors : list Neighbor)
    (row : Neighbor -> FtSearch.Outcome (list FtSearch.Reply)) :
  forall count start,
  start <= length neighbors ->
  length neighbors < start + count ->
  (forall n, exists r, row n = FtSearch.Done r) ->
  exists i,
    length neighbors <= i
    /\ FtSearch.for_each_index start count
         (fun i => n ← FtSearch.at_index neighbors i; row n)
       = FtSearch.OutOfRange i (length neighbors).
Proof.
  induction count as [|count IH]; intros start Hstart Hlen Hrow; [lia|].
  cbn [FtSearch.for_each_index].
  destruct (neighbors !! start) as [n|] eqn:Hn.
  - assert (FtSearch.at_index neighbors start = FtSearch.Done n) as ->
      by (unfold FtSearch.at_index; by rewrite Hn).
    assert (start < length neighbors) by by eapply lookup_lt_Some.
    destruct (Hrow n) as [r Hr].
    destruct (IH (S start)) as (i & Hi & Hrest); [lia|lia|done|].
    exists i. split; [done|].
    unfold mbind, FtSearch.outcome_bind in *. by rewrite Hr, Hrest.
  - exists start. split; [by apply lookup_ge_None|].
    unfold FtSearch.at_index. by rewrite Hn.
Qed.

(** Within the list the loop sends the rows of the neighbors it visits, in
    order. *)
Lemma for_each_index_within (neighbors : list Neighbor)
    (row : Neighbor -> list FtSearch.Reply) :
  forall count start,
  start + count <= length neighbors ->
  FtSearch.for_each_index start count
    (fun i => n ← FtSearch.at_index neighbors i; FtSearch.Done (row n))
  = FtSearch.Done (flat_map row (take count (drop start neighbors))).
Proof.
  induction count as [|count IH]; intros start Hlen; [done|].
  cbn [FtSearch.for_each_index].
  destruct (neighbors !! start) as [n|] eqn:Hn.
  2:{ apply lookup_ge_None in Hn. lia. }
  assert (FtSearch.at_index neighbors start = FtSearch.Done n) as ->
    by (unfold FtSearch.at_index; by rewrite Hn).
  rewrite IH by lia. by rewrite (drop_S _ _ _ Hn).
Qed.

(** When the window computed by [CalcStartIndex] and [CalcEndIndex] lies
    within the list, the keys-only reply is the count and the keys of the
    neighbors at the positions from [start_index] on, [CalcEndIndex] of
    them. *)
Lemma SendReplyNoContent_within (neighbors : list Neighbor)
    (parameters : FtSearch.VectorSearchParameters) (start_index : nat) :
  FtSearch.CalcStartIndex neighbors parameters = FtSearch.Done start_index ->
  start_index + FtSearch.CalcEndIndex neighbors parameters
  <= length neighbors ->
  FtSearch.SendReplyNoContent neighbors parameters
  = FtSearch.Done
      (FtSearch.ReplyWithArray
         (FtSearch.CalcEndIndex neighbors parameters + 1)
       :: FtSearch.ReplyAvailNeighbors neighbors parameters
       ++ ((fun n => FtSearch.ReplyWithString (external_id n))
             <$> take (FtSearch.CalcEndIndex neighbors parameters)
                   (drop start_index neighbors))).
Proof.
  intros Hstart Hwithin. unfold FtSearch.SendReplyNoContent.
  rewrite Hstart. cbn [mbind FtSearch.outcome_bind].
  replace (start_index + FtSearch.CalcEndIndex neighbors parameters
           - start_index)
    with (FtSearch.CalcEndIndex neighbors parameters) by lia.
  rewrite (for_each_index_within neighbors
             (fun n => [FtSearch.ReplyWithString (external_id n)])) by done.
  cbn [mbind FtSearch.outcome_bind]. by do 3 f_equal.
Qed.

(** Whenever the window computed by [CalcStartIndex] and [CalcEndIndex]
    reaches past the list, the keys-only reply runs off its end. *)
Lemma SendReplyNoContent_out_of_range (neighbors : list Neighbor)
    (parameters : FtSearch.VectorSearchParameters) (start_index : nat) :
  FtSearch.CalcStartIndex neighbors parameters = FtSearch.Done start_index ->
  length neighbors < start_index + FtSearch.CalcEndIndex neighbors parameters ->
  exists i,
    length neighbors <= i
    /\ FtSearch.SendReplyNoContent neighbors parameters
       = FtSearch.OutOfRange i (length neighbors).
Proof.
  intros Hstart Hpast.
  assert (start_index <= length neighbors) as Hle.
  { unfold FtSearch.CalcStartIndex in Hstart.
    destruct (_ <? _); [|done].
    destruct (length neighbors <=? _) eqn:Hcmp; injection Hstart as <-;
      [done|]. apply Nat.leb_gt in Hcmp. lia. }
  unfold FtSearch.SendReplyNoContent. rewrite Hstart. simpl.
  destruct (for_each_index_in_range neighbors
              (fun n => FtSearch.Done
                          [FtSearch.ReplyWithString (external_id n)])
              (start_index + FtSearch.CalcEndIndex neighbors parameters
               - start_index) start_index) as (i & Hi & Hrun).
  - done.
  - lia.
  - intros n. by eexists.
  - exists i. split; [done|]. by rewrite Hrun.
Qed.

(** C2 on the code: the window is [start, start + min(k, number, size)),
    not [start, min(start + number, size)).  For three neighbors, KNN 10
    and LIMIT 1 10 the loops visit positions 1, 2 and 3 and read past the
    end of the list, with and without content.  When [first_index >= k]
    the reply is the count alone. *)
Theorem SendReply_window_runs_past_the_end :
  let neighbors := ReplyExamples.three_neighbors in
  FtSearch.visited_positions neighbors (ReplyExamples.limit_1_10 true)
  = [1; 2; 3]
  /\ FtSearch.SendReply (Ok "vec"%string) id neighbors
       (ReplyExamples.limit_1_10 true)
     = FtSearch.OutOfRange 3 3
  /\ FtSearch.SendReply (Ok "vec"%string) id neighbors
       (ReplyExamples.limit_1_10 false)
     = FtSearch.OutOfRange 3 3
  /\ FtSearch.SendReply (Ok "vec"%string) id neighbors
       ReplyExamples.limit_2_10
     = FtSearch.Done [FtSearch.ReplyWithArray 1; FtSearch.ReplyWithLongLong 3].
Proof. vm_compute. auto. Qed.

(** ** The retry policy of the fan-out client *)

(** C9.  The channel arguments carry one method config for the
    coordinator service; its policy retries a call exactly when fewer than
    5 attempts have been made and the status is UNAVAILABLE, UNKNOWN,
    RESOURCE_EXHAUSTED, INTERNAL or DATA_LOSS, with initial backoff
    100 ms, multiplier 1.0 and maximum backoff 1 s. *)
Theorem fanout_retry_policy :
  exists p : Client.RetryPolicy,
    Client.policy_for Client.GetChannelArgs Client.coordinator_service = Some p
    /\ Client.maxAttempts p = 5%Z
    /\ Client.initialBackoff p = milliseconds 100
    /\ Client.decimal_is (Client.backoffMultiplier p) 1
    /\ Client.maxBackoff p = seconds 1
    /\ forall (attempts : Z) (status : Client.GrpcStatusCode),
         Client.retries p attempts status = true
         <-> (attempts < 5)%Z
             /\ status ∈ [Client.UNAVAILABLE; Client.UNKNOWN;
                          Client.RESOURCE_EXHAUSTED; Client.INTERNAL;
                          Client.DATA_LOSS].
Proof.
  eexists. split; [vm_compute; reflexivity|].
  repeat split; try (vm_compute; reflexivity).
  - unfold Client.retries in H. simpl in H.
    apply andb_true_iff in H as [H _]. by apply bool_decide_eq_true in H.
  - unfold Client.retries in H. simpl in H.
    apply andb_true_iff in H as [_ H]. by apply bool_decide_eq_true in H.
  - intros [Hattempts Hstatus]. unfold Client.retries. simpl.
    apply andb_true_iff. split; by apply bool_decide_eq_true.
Qed.

(** ** The numeric index: the ordered map and the range counter *)

Module NumericProps.
Import Numeric.

(** The buckets hold exactly the tracked pairs. *)
Definition buckets_track (btree : gmap Z (gset string))
    (tracked : gmap string Z) : Prop :=
  forall key value, key ∈ at_key btree value <-> tracked !! key = Some value.

(** No entry of the ordered map holds an empty set. *)
Definition no_empty_bucket (btree : gmap Z (gset string)) : Prop :=
  forall value s, btree !! value = Some s -> s <> ∅.

(** *** Counting by weights *)

Definition value_weight (P : Z -> bool) (x : Z) : nat := if P x then 1 else 0.

Definition bucket_weight (P : Z -> bool) (e : Z * gset string) : nat :=
  if P e.1 then size e.2 else 0.

Definition bucket_total (P : Z -> bool) (btree : gmap Z (gset string)) : nat :=
  sum_list_with (bucket_weight P) (map_to_list btree).

Definition value_total (P : Z -> bool) (st : gmultiset Z) : nat :=
  sum_list_with (value_weight P) (elements st).

Lemma length_filter_weight (P : Z -> bool) (l : list Z) :
  length (List.filter P l) = sum_list_with (value_weight P) l.
Proof.
  induction l as [|x l IH]; simpl; [done|].
  unfold value_weight at 1. destruct (P x); simpl; by rewrite IH.
Qed.

Lemma length_buckets_weight (P : Z -> bool) (l : list (Z * gset string)) :
  length (flat_map (fun e => elements e.2) (List.filter (fun e => P e.1) l))
  = sum_list_with (bucket_weight P) l.
Proof.
  induction l as [|e l IH]; simpl; [done|].
  unfold bucket_weight at 1. destruct (P e.1); simpl; [|done].
  by rewrite length_app, IH.
Qed.

Lemma iterate_range_length idx start end_ start_inclusive end_inclusive :
  length (iterate_range idx start end_ start_inclusive end_inclusive)
  = bucket_total (in_range start end_ start_inclusive end_inclusive)
      (btree_ idx).
Proof.
  unfold iterate_range, bucket_total, entries.
  rewrite length_buckets_weight. by rewrite merge_sort_Permutation.
Qed.

Lemma GetCount_total idx start end_ start_inclusive end_inclusive :
  GetCount idx start end_ start_inclusive end_inclusive
  = value_total (in_range start end_ start_inclusive end_inclusive)
      (segment_tree_ idx).
Proof. apply length_filter_weight. Qed.

Lemma bucket_total_delete P btree value s :
  btree !! value = Some s ->
  bucket_total P btree
  = bucket_weight P (value, s) + bucket_total P (delete value btree).
Proof.
  intros Hs. unfold bucket_total.
  by rewrite <- (map_to_list_delete btree value s Hs).
Qed.

Lemma bucket_total_insert P btree value s :
  bucket_total P (<[value := s]> btree)
  = bucket_weight P (value, s) + bucket_total P (delete value btree).
Proof.
  unfold bucket_total. rewrite <- insert_delete_eq.
  by rewrite map_to_list_insert by apply lookup_delete_eq.
Qed.

Lemma value_total_add P st value :
  value_total P (SegmentTree.Add value st)
  = value_total P st + value_weight P value.
Proof.
  unfold value_total, SegmentTree.Add.
  rewrite gmultiset_elements_disj_union, sum_list_with_app.
  by rewrite gmultiset_elements_singleton; simpl; lia.
Qed.

Lemma value_total_remove P st value :
  value ∈ st ->
  value_total P st
  = value_total P (SegmentTree.Remove value st) + value_weight P value.
Proof.
  intros Hin. unfold SegmentTree.Remove.
  rewrite (gmultiset_disj_union_difference' value st Hin) at 1.
  unfold value_total.
  rewrite gmultiset_elements_disj_union, sum_list_with_app.
  rewrite gmultiset_elements_singleton; simpl; lia.
Qed.

Lemma value_total_elem_of st value :
  0 < value_total (in_range value value true true) st -> value ∈ st.
Proof.
  unfold value_total. intros Hpos.
  apply gmultiset_elem_of_elements.
  induction (elements st) as [|x l IH]; simpl in *; [lia|].
  destruct (decide (x = value)) as [->|Hne]; [left|].
  right. apply IH.
  assert (value_weight (in_range value value true true) x = 0) as Hx; [|lia].
  unfold value_weight, in_range.
  destruct (Z.leb_spec value x), (Z.leb_spec x value); simpl; lia.
Qed.

(** *** The buckets after a call *)

Lemma at_key_Add btree key value value' :
  at_key (<[value := {[key]} ∪ at_key btree value]> btree) value'
  = if decide (value = value') then {[key]} ∪ at_key btree value
    else at_key btree value'.
Proof.
  unfold at_key. rewrite lookup_insert. by case_decide.
Qed.

Definition removed_btree (btree : gmap Z (gset string)) (key : string)
    (value : Z) : gmap Z (gset string) :=
  btree_ (Remove key value (mkBTreeNumericIndex btree ∅)).

Lemma btree_Remove idx key value :
  btree_ (Remove key value idx) = removed_btree (btree_ idx) key value.
Proof. done. Qed.

Lemma at_key_insert_eq (btree : gmap Z (gset string)) value s :
  at_key (<[value := s]> btree) value = s.
Proof. unfold at_key. by rewrite lookup_insert_eq. Qed.

Lemma removed_btree_cases btree key value :
  removed_btree btree key value
  = if decide (at_key btree value ∖ {[key]} = ∅) then delete value btree
    else <[value := at_key btree value ∖ {[key]}]> btree.
Proof.
  unfold removed_btree, Remove. cbn [btree_].
  rewrite at_key_insert_eq. case_decide; [|done]. apply delete_insert_eq.
Qed.

Lemma at_key_Remove btree key value value' :
  at_key (removed_btree btree key value) value'
  = if decide (value = value') then at_key btree value ∖ {[key]}
    else at_key btree value'.
Proof.
  rewrite removed_btree_cases.
  destruct (decide (at_key btree value ∖ {[key]} = ∅)) as [Hempty|Hne].
  - unfold at_key at 1. rewrite lookup_delete.
    case_decide; [by rewrite Hempty|done].
  - unfold at_key at 1. rewrite lookup_insert. by case_decide.
Qed.

Lemma bucket_weight_pair P value (s : gset string) :
  bucket_weight P (value, s) = if P value then size s else 0.
Proof. done. Qed.

Lemma bucket_total_at_key P btree value :
  bucket_total P btree
  = bucket_weight P (value, at_key btree value)
    + bucket_total P (delete value btree).
Proof.
  unfold at_key. destruct (btree !! value) as [s|] eqn:Hs; simpl.
  - by apply bucket_total_delete.
  - rewrite delete_id by done. rewrite bucket_weight_pair, size_empty.
    by destruct (P value).
Qed.

Lemma bucket_total_Add P btree key value :
  key ∉ at_key btree value ->
  bucket_total P (<[value := {[key]} ∪ at_key btree value]> btree)
  = bucket_total P btree + value_weight P value.
Proof.
  intros Hnew.
  rewrite bucket_total_insert, (bucket_total_at_key P btree value).
  rewrite !bucket_weight_pair. unfold value_weight.
  rewrite size_union by set_solver. rewrite size_singleton.
  destruct (P value); lia.
Qed.

Lemma bucket_total_Remove P btree key value :
  key ∈ at_key btree value ->
  bucket_total P btree
  = bucket_total P (removed_btree btree key value) + value_weight P value.
Proof.
  intros Hin.
  assert (size (at_key btree value)
          = S (size (at_key btree value ∖ {[key]}))) as Hsize.
  { rewrite size_difference by set_solver. rewrite size_singleton.
    assert (size (at_key btree value) <> 0); [|lia].
    apply size_non_empty_iff. set_solver. }
  assert (bucket_total P (removed_btree btree key value)
          = bucket_weight P (value, at_key btree value ∖ {[key]})
            + bucket_total P (delete value btree)) as ->.
  { rewrite removed_btree_cases.
    destruct (decide (at_key btree value ∖ {[key]} = ∅)) as [Hempty|Hne].
    - rewrite Hempty, bucket_weight_pair, size_empty. by destruct (P value).
    - apply bucket_total_insert. }
  rewrite (bucket_total_at_key P btree value).
  rewrite !bucket_weight_pair. unfold value_weight. rewrite Hsize.
  destruct (P value); lia.
Qed.

(** *** The invariant of the reachable states *)

Definition consistent (idx : BTreeNumericIndex) (tracked : gmap string Z)
  : Prop :=
  buckets_track (btree_ idx) tracked
  /\ no_empty_bucket (btree_ idx)
  /\ forall P, bucket_total P (btree_ idx) = value_total P (segment_tree_ idx).

Lemma consistent_empty : consistent empty ∅.
Proof.
  split; [|split].
  - intros key value. change (btree_ empty) with (∅ : gmap Z (gset string)).
    unfold at_key. rewrite !lookup_empty. cbn [default from_option id].
    split; [intros Hin; by apply not_elem_of_empty in Hin|done].
  - intros value s. change (btree_ empty) with (∅ : gmap Z (gset string)).
    by rewrite lookup_empty.
  - intros P. unfold bucket_total, value_total; simpl.
    by rewrite map_to_list_empty, gmultiset_elements_empty.
Qed.

Lemma consistent_Add idx tracked key value :
  consistent idx tracked -> tracked !! key = None ->
  consistent (Add key value idx) (<[key := value]> tracked).
Proof.
  intros (Htrack & Hfull & Htotal) Hkey.
  assert (forall value', key ∉ at_key (btree_ idx) value') as Hnew.
  { intros value' Hin. apply Htrack in Hin. congruence. }
  split; [|split]; simpl.
  - intros key' value'. rewrite at_key_Add, lookup_insert.
    case_decide as Hv; case_decide as Hk; subst.
    + split; [done|]. intros _. apply elem_of_union_l, elem_of_singleton_2.
      done.
    + rewrite <- (Htrack key' value'), elem_of_union, elem_of_singleton.
      split; [intros [?|?]; [congruence|done]|by right].
    + split; [intros Hin; by apply Hnew in Hin|congruence].
    + apply Htrack.
  - intros value' s. rewrite lookup_insert. case_decide.
    + intros [= <-]. set_solver.
    + apply Hfull.
  - intros P. rewrite bucket_total_Add by done.
    by rewrite value_total_add, Htotal.
Qed.

Lemma consistent_Remove idx tracked key value :
  consistent idx tracked -> tracked !! key = Some value ->
  consistent (Remove key value idx) (delete key tracked).
Proof.
  intros (Htrack & Hfull & Htotal) Hkey.
  assert (key ∈ at_key (btree_ idx) value) as Hin by by apply Htrack.
  assert (value ∈ segment_tree_ idx) as Hvalue.
  { apply value_total_elem_of. rewrite <- Htotal.
    rewrite (bucket_total_Remove _ _ key value Hin).
    unfold value_weight, in_range. rewrite !Z.leb_refl. simpl. lia. }
  split; [|split].
  - intros key' value'. rewrite btree_Remove, at_key_Remove, lookup_delete.
    case_decide as Hv; case_decide as Hk; subst.
    + rewrite elem_of_difference, elem_of_singleton.
      split; [by intros [_ Hne]|done].
    + rewrite <- (Htrack key' value'), elem_of_difference, elem_of_singleton.
      split; [by intros [? _]|intros ?; split; [done|congruence]].
    + rewrite (Htrack key' value'). split; [congruence|done].
    + apply Htrack.
  - intros value' s. rewrite btree_Remove, removed_btree_cases.
    destruct (decide (at_key (btree_ idx) value ∖ {[key]} = ∅))
      as [Hempty|Hne].
    + rewrite lookup_delete. case_decide; [done|apply Hfull].
    + rewrite lookup_insert. case_decide; [by intros [= <-]|apply Hfull].
  - intros P. rewrite btree_Remove.
    pose proof (bucket_total_Remove P _ key value Hin) as Hb.
    pose proof (value_total_remove P _ value Hvalue) as Hs.
    rewrite Htotal in Hb. simpl. lia.
Qed.

Lemma reachable_consistent idx tracked :
  reachable idx tracked -> consistent idx tracked.
Proof.
  induction 1 as [|idx tracked key value _ IH Hkey
                  |idx tracked key old_value new_value _ IH Hkey
                  |idx tracked key value _ IH Hkey].
  - apply consistent_empty.
  - by apply consistent_Add.
  - unfold Modify. rewrite <- insert_delete_eq.
    apply consistent_Add; [by apply consistent_Remove|apply lookup_delete_eq].
  - by apply consistent_Remove.
Qed.

Lemma Remove_Add idx key value :
  no_empty_bucket (btree_ idx) ->
  key ∉ at_key (btree_ idx) value ->
  Remove key value (Add key value idx) = idx.
Proof.
  intros Hfull Hnew.
  assert (btree_ (Remove key value (Add key value idx)) = btree_ idx) as Hb.
  { rewrite btree_Remove, removed_btree_cases. cbn [Add btree_].
    rewrite at_key_insert_eq.
    assert (({[key]} ∪ at_key (btree_ idx) value) ∖ {[key]}
            = at_key (btree_ idx) value) as ->.
    { apply set_eq. intros x.
      rewrite elem_of_difference, elem_of_union, elem_of_singleton.
      split; [by intros [[->|?] ?]|].
      intros Hx. split; [by right|]. by intros ->. }
    unfold at_key.
    destruct (btree_ idx !! value) as [s|] eqn:Hs; cbn [default from_option id].
    - rewrite decide_False by by eapply Hfull.
      rewrite insert_insert_eq. by apply insert_id.
    - rewrite decide_True by done.
      rewrite delete_insert_eq. by apply delete_id. }
  assert (segment_tree_ (Remove key value (Add key value idx))
          = segment_tree_ idx) as Hs.
  { cbn [Remove Add segment_tree_].
    unfold SegmentTree.Remove, SegmentTree.Add. multiset_solver. }
  destruct (Remove key value (Add key value idx)), idx. simpl in *.
  congruence.
Qed.

End NumericProps.

(** The example index is a reachable state. *)
Lemma prices_reachable :
  Numeric.reachable NumericExamples.prices NumericExamples.prices_tracked.
Proof.
  unfold NumericExamples.prices, NumericExamples.prices_tracked.
  repeat (first [ apply Numeric.reach_empty
                | apply Numeric.reach_remove
                | apply Numeric.reach_modify
                | apply Numeric.reach_add ]);
    vm_compute; reflexivity.
Defined.

(** C4.  In every state of the numeric index reached by adding, modifying
    and removing tracked pairs, iterating a range yields as many keys as
    the segment tree counts for the same bounds, whichever ends of the
    range are closed. *)
Theorem iterate_range_agrees_with_count
    (idx : Numeric.BTreeNumericIndex) (tracked : gmap string Z)
    (start end_ : Z) (start_inclusive end_inclusive : bool) :
  Numeric.reachable idx tracked ->
  length (Numeric.iterate_range idx start end_ start_inclusive end_inclusive)
  = Numeric.GetCount idx start end_ start_inclusive end_inclusive.
Proof.
  intros Hreach.
  destruct (NumericProps.reachable_consistent _ _ Hreach) as (_ & _ & Htotal).
  rewrite NumericProps.iterate_range_length, NumericProps.GetCount_total.
  apply Htotal.
Qed.

(** [iterate_range_agrees_with_count] on the example index and the range
    from 20, exclusive, to 30, inclusive. *)
Lemma iterate_range_agrees_with_count_witness :
  length (Numeric.iterate_range NumericExamples.prices 20 30 false true)
  = Numeric.GetCount NumericExamples.prices 20 30 false true.
Proof.
  apply (iterate_range_agrees_with_count NumericExamples.prices
           NumericExamples.prices_tracked 20 30 false true).
  exact prices_reachable.
Defined.

(** C6.  From a reachable state of the numeric index that does not track
    key [k], adding [(k, v)], modifying it to [v'] and removing [(k, v')]
    gives back the state itself: the ordered map and the multiset of the
    segment tree are the ones before the add. *)
Theorem add_modify_remove_restores
    (idx : Numeric.BTreeNumericIndex) (tracked : gmap string Z)
    (key : string) (value value' : Z) :
  Numeric.reachable idx tracked ->
  tracked !! key = None ->
  Numeric.Remove key value'
    (Numeric.Modify key value value' (Numeric.Add key value idx))
  = idx.
Proof.
  intros Hreach Hkey.
  destruct (NumericProps.reachable_consistent _ _ Hreach)
    as (Htrack & Hfull & _).
  assert (forall v, key ∉ Numeric.at_key (Numeric.btree_ idx) v) as Hnew.
  { intros v Hin. apply Htrack in Hin. congruence. }
  unfold Numeric.Modify.
  rewrite (NumericProps.Remove_Add idx key value) by done.
  by apply NumericProps.Remove_Add.
Qed.

(** [add_modify_remove_restores] on the example index and the key "k9",
    which it does not track. *)
Lemma add_modify_remove_restores_witness :
  Numeric.Remove "k9" 7
    (Numeric.Modify "k9" 5 7 (Numeric.Add "k9" 5 NumericExamples.prices))
  = NumericExamples.prices.
Proof.
  apply (add_modify_remove_restores NumericExamples.prices
           NumericExamples.prices_tracked "k9" 5 7).
  - exact prices_reachable.
  - vm_compute. reflexivity.
Defined.

(* ===================================================================== *)
(** * Part III.  More of the code                                         *)
(* ===================================================================== *)

(** ** Adding and modifying records *)

Section AddRecordProps.
Context {K : Type} `{!VectorDataType} `{!VectorImpl K} `{!Embedding}.
Implicit Types v : VectorBase K.

(** What [TrackKey] does for a new key when the counter's id is unused. *)
Lemma TrackKey_new v key magnitude vector :
  key <> ""%string ->
  tracked_metadata_by_key_ v !! key = None ->
  key_by_internal_id_ v !! inc_id_ v = None ->
  TrackKey v key magnitude vector
  = (Ok (inc_id_ v),
     mkVectorBase (dimensions_ v) (normalize_ v) (uint64_add (inc_id_ v) 1)
       (<[key := {| internal_id := inc_id_ v; magnitude := magnitude |}]>
          (tracked_metadata_by_key_ v))
       (<[inc_id_ v := key]> (key_by_internal_id_ v))
       (TrackVector (impl_ v) (inc_id_ v) vector)).
Proof.
  intros Hne Hkey Hid. unfold TrackKey, hash_map_insert.
  apply String.eqb_neq in Hne. rewrite Hne. simpl. rewrite Hkey. simpl.
  by rewrite Hid.
Qed.

Lemma TrackKey_existing v key magnitude vector md :
  key <> ""%string ->
  tracked_metadata_by_key_ v !! key = Some md ->
  TrackKey v key magnitude vector
  = (Error kInvalidArgument ("Embedding id already exists: " ++ key),
     mkVectorBase (dimensions_ v) (normalize_ v) (uint64_add (inc_id_ v) 1)
       (tracked_metadata_by_key_ v) (key_by_internal_id_ v)
       (TrackVector (impl_ v) (inc_id_ v) vector)).
Proof.
  intros Hne Hkey. unfold TrackKey, hash_map_insert.
  apply String.eqb_neq in Hne. rewrite Hne. simpl. by rewrite Hkey.
Qed.

Lemma TrackKey_maps_on_error v key magnitude vector c m v' :
  TrackKey v key magnitude vector = (Error c m, v') ->
  tracked_metadata_by_key_ v' = tracked_metadata_by_key_ v
  /\ key_by_internal_id_ v' = key_by_internal_id_ v.
Proof.
  unfold TrackKey, hash_map_insert.
  destruct (String.eqb key ""); [by intros [= _ _ <-]|]. simpl.
  destruct (tracked_metadata_by_key_ v !! key); simpl; [by intros [= _ _ <-]|].
  done.
Qed.

Lemma TrackKey_ok v key magnitude vector id v' :
  TrackKey v key magnitude vector = (Ok id, v') ->
  key <> ""%string /\ tracked_metadata_by_key_ v !! key = None
  /\ id = inc_id_ v.
Proof.
  unfold TrackKey, hash_map_insert.
  destruct (String.eqb_spec key ""); [done|]. simpl.
  destruct (tracked_metadata_by_key_ v !! key); simpl; [done|].
  by intros [= <- _].
Qed.

End AddRecordProps.

(** X1.  When [AddRecord] returns true and the counter's id was not in
    use, the key was not tracked before, it is now tracked under the id
    the counter had, that id maps back to the key, the record count has
    grown by one, and every other key and id is looked up as before. *)
Theorem AddRecord_tracks
    {K : Type} `{!VectorDataType} `{!VectorImpl K} `{!Embedding}
    (v v' : VectorBase K) (key record : string) :
  AddRecord v key record = Some (Ok true, v') ->
  key_by_internal_id_ v !! inc_id_ v = None ->
  IsTracked v key = false
  /\ GetInternalId v' key = Ok (inc_id_ v)
  /\ GetKeyDuringSearch v' (inc_id_ v) = Ok key
  /\ GetRecordCount v' = S (GetRecordCount v)
  /\ (forall key', key' <> key -> GetInternalId v' key' = GetInternalId v key')
  /\ (forall id, id <> inc_id_ v ->
        GetKeyDuringSearch v' id = GetKeyDuringSearch v id).
Proof.
  unfold AddRecord. intros Hadd Hfresh.
  destruct (InternVector v record) as [[interned magnitude]|]; [|done].
  destruct (TrackKey v key _ interned) as [[id|c m] v1] eqn:Htrack; [|done].
  destruct (TrackKey_ok _ _ _ _ _ _ Htrack) as (Hne & Hkey & ->).
  rewrite TrackKey_new in Htrack by done. injection Htrack as <-.
  simpl in Hadd.
  destruct (_AddRecord _ _ _) as [[[[]|c m] k']|]; simpl in Hadd; try done.
  injection Hadd as <-.
  unfold IsTracked, GetInternalId, GetKeyDuringSearch, GetRecordCount. simpl.
  rewrite Hkey, !lookup_insert_eq.
  split; [|split; [done|split; [done|split; [|split]]]].
  - apply bool_decide_eq_false. by intros [? ?].
  - by apply map_size_insert_None.
  - intros key' Hne'. by rewrite lookup_insert_ne.
  - intros id Hne'. by rewrite lookup_insert_ne.
Qed.

(** [AddRecord_tracks] on the example index and the new key "d". *)
Lemma AddRecord_tracks_witness :
  let v := Examples.history_result in
  let v' := default v (snd <$> AddRecord v "d" "DDDD") in
  IsTracked v "d" = false
  /\ GetInternalId v' "d" = Ok (inc_id_ v)
  /\ GetKeyDuringSearch v' (inc_id_ v) = Ok "d"%string
  /\ GetRecordCount v' = S (GetRecordCount v)
  /\ (forall key', key' <> "d"%string ->
        GetInternalId v' key' = GetInternalId v key')
  /\ (forall id, id <> inc_id_ v ->
        GetKeyDuringSearch v' id = GetKeyDuringSearch v id).
Proof.
  apply (AddRecord_tracks Examples.history_result _ "d" "DDDD");
    vm_compute; reflexivity.
Defined.

(** X2.  When [AddRecord] returns anything but true (false for a payload
    of the wrong size, or an error from the key tracking or from the
    kernel) and the counter's id was not in use, the key-to-id and
    id-to-key maps are the ones before the call: a failed add is rolled
    back. *)
Theorem AddRecord_failure_keeps_maps
    {K : Type} `{!VectorDataType} `{!VectorImpl K} `{!Embedding}
    (v v' : VectorBase K) (key record : string) (r : StatusOr bool) :
  AddRecord v key record = Some (r, v') ->
  r <> Ok true ->
  key_by_internal_id_ v !! inc_id_ v = None ->
  tracked_metadata_by_key_ v' = tracked_metadata_by_key_ v
  /\ key_by_internal_id_ v' = key_by_internal_id_ v.
Proof.
  unfold AddRecord. intros Hadd Hr Hfresh.
  destruct (InternVector v record) as [[interned magnitude]|];
    [|by injection Hadd as <- <-].
  destruct (TrackKey v key _ interned) as [[id|c m] v1] eqn:Htrack.
  2:{ injection Hadd as <- <-. by eapply TrackKey_maps_on_error. }
  destruct (TrackKey_ok _ _ _ _ _ _ Htrack) as (Hne & Hkey & ->).
  rewrite TrackKey_new in Htrack by done. injection Htrack as <-.
  simpl in Hadd.
  destruct (_AddRecord _ _ _) as [[[[]|c m] k']|]; simpl in Hadd; try done.
  { injection Hadd as <- <-. done. }
  injection Hadd as <- <-.
  unfold UnTrackKey. apply String.eqb_neq in Hne. rewrite Hne. simpl.
  rewrite !lookup_insert_eq. simpl.
  by rewrite !delete_insert_eq, !delete_id.
Qed.

(** [AddRecord_failure_keeps_maps] on the example index and its key "a". *)
Lemma AddRecord_failure_keeps_maps_witness :
  let v := Examples.history_result in
  let v' := default v (snd <$> AddRecord v "a" "DDDD") in
  tracked_metadata_by_key_ v' = tracked_metadata_by_key_ v
  /\ key_by_internal_id_ v' = key_by_internal_id_ v.
Proof.
  apply (AddRecord_failure_keeps_maps Examples.history_result _ "a" "DDDD"
           (Error kInvalidArgument "Embedding id already exists: a")).
  - vm_compute. reflexivity.
  - discriminate.
  - vm_compute. reflexivity.
Defined.

(** X3.  [AddRecord] on a key that is tracked already, with a payload of
    the right size, is an [InvalidArgument] error naming the key.  The two
    maps stay as they are and the kernel is not asked to add anything,
    but the counter has stepped and the vector has been tracked under the
    id that was spent. *)
Theorem AddRecord_existing_key
    {K : Type} `{!VectorDataType} `{!VectorImpl K} `{!Embedding}
    (v : VectorBase K) (key record interned : string)
    (magnitude : option float) :
  key <> ""%string ->
  IsTracked v key = true ->
  InternVector v record = Some (interned, magnitude) ->
  AddRecord v key record
  = Some (Error kInvalidArgument ("Embedding id already exists: " ++ key),
          mkVectorBase (dimensions_ v) (normalize_ v)
            (uint64_add (inc_id_ v) 1)
            (tracked_metadata_by_key_ v) (key_by_internal_id_ v)
            (TrackVector (impl_ v) (inc_id_ v) interned)).
Proof.
  intros Hne Htracked Hintern. unfold AddRecord. rewrite Hintern.
  apply bool_decide_eq_true in Htracked as [md Hmd].
  by rewrite (TrackKey_existing v key _ interned md).
Qed.

(** [AddRecord_existing_key] on the example index and its key "a". *)
Lemma AddRecord_existing_key_witness :
  let v := Examples.history_result in
  AddRecord v "a" "DDDD"
  = Some (Error kInvalidArgument "Embedding id already exists: a",
          mkVectorBase (dimensions_ v) (normalize_ v)
            (uint64_add (inc_id_ v) 1)
            (tracked_metadata_by_key_ v) (key_by_internal_id_ v)
            (TrackVector (impl_ v) (inc_id_ v) "DDDD")).
Proof.
  apply (AddRecord_existing_key Examples.history_result "a" "DDDD" "DDDD" None).
  - discriminate.
  - vm_compute. reflexivity.
  - vm_compute. reflexivity.
Defined.

(** X4.  [ModifyRecord] on a key that is not tracked leaves the index as
    it was: it is an [InvalidArgument] error for a payload of the right
    size, and false without an error for any other payload. *)
Theorem ModifyRecord_untracked
    {K : Type} `{!VectorDataType} `{!VectorImpl K} `{!Embedding}
    (v : VectorBase K) (key record : string) :
  IsTracked v key = false ->
  ModifyRecord v key record
  = (if IsValidSizeVector v record
     then Error kInvalidArgument "Record was not found"
     else Ok false,
     v).
Proof.
  intros Htracked. apply bool_decide_eq_false in Htracked.
  apply eq_None_not_Some in Htracked.
  unfold ModifyRecord, InternVector, GetInternalId.
  destruct (IsValidSizeVector v record); simpl.
  - destruct (normalize_ v); [destruct (NormalizeEmbedding _ _)|];
      by rewrite Htracked.
  - rewrite RemoveRecord_untracked by by right. done.
Qed.

(** [ModifyRecord_untracked] on the example index and the key "b", which it
    has removed, with a payload of four bytes and one of two. *)
Lemma ModifyRecord_untracked_witness :
  ModifyRecord Examples.history_result "b" "BBBB"
  = (Error kInvalidArgument "Record was not found", Examples.history_result)
  /\ ModifyRecord Examples.history_result "b" "BB"
     = (Ok false, Examples.history_result).
Proof.
  split.
  - rewrite (ModifyRecord_untracked Examples.history_result "b" "BBBB")
      by (vm_compute; reflexivity).
    vm_compute. reflexivity.
  - rewrite (ModifyRecord_untracked Examples.history_result "b" "BB")
      by (vm_compute; reflexivity).
    vm_compute. reflexivity.
Defined.

(** ** Counting and saving the tracked keys *)

(** Two maps that are inverse to each other have the same number of
    entries. *)
Lemma inverse_maps_size (by_key : gmap string TrackedKeyMetadata) :
  forall by_id : gmap N string,
  (forall key md, by_key !! key = Some md ->
                  by_id !! internal_id md = Some key) ->
  (forall id key, by_id !! id = Some key ->
                  exists md, by_key !! key = Some md /\ internal_id md = id) ->
  size by_id = size by_key.
Proof.
  induction by_key as [|key md by_key Hkey _ IH] using map_first_key_ind;
    intros by_id Hfwd Hbwd.
  - rewrite map_size_empty. apply map_size_empty_iff, map_empty.
    intros id. destruct (by_id !! id) as [k|] eqn:Hid; [|done].
    destruct (Hbwd _ _ Hid) as (md & Hmd & _). by rewrite lookup_empty in Hmd.
  - assert (by_id !! internal_id md = Some key) as Hid
      by (apply Hfwd, lookup_insert_eq).
    rewrite map_size_insert_None by done.
    rewrite <- (IH (delete (internal_id md) by_id)).
    + rewrite map_size_delete, Hid. simpl.
      assert (size by_id <> 0); [|lia].
      apply map_size_non_empty_iff. intros ->. by rewrite lookup_empty in Hid.
    + intros key' md' Hmd'.
      assert (key' <> key) as Hne by (intros ->; congruence).
      assert (by_id !! internal_id md' = Some key') as Hid'.
      { apply Hfwd. by rewrite lookup_insert_ne. }
      rewrite lookup_delete_ne; [done|]. intros Heq. rewrite Heq in Hid.
      congruence.
    + intros id key'. rewrite lookup_delete. case_decide as Hne; [done|].
      intros Hid'. destruct (Hbwd _ _ Hid') as (md' & Hmd' & Hmdid).
      exists md'. split; [|done].
      rewrite lookup_insert in Hmd'. case_decide as Hk; [|done].
      injection Hmd' as <-. congruence.
Qed.

(** X5.  [GetRecordCount] counts the id-to-key map and [IsTracked] reads
    the key-to-id map; in an index created, or loaded from a snapshot
    naming every key and id once, and taken through any calls without the
    counter wrapping around, the record count is the number of tracked
    keys. *)
Theorem GetRecordCount_counts_tracked_keys
    {K : Type} `{!VectorDataType} `{!VectorImpl K} `{!Embedding}
    (dimensions : N) (normalize : bool) (impl : K) (o : Origin)
    (ops : list Operation) (v0 v : VectorBase K) :
  originate dimensions normalize impl o = (OkStatus, v0) ->
  well_formed_entries (origin_entries o) ->
  (inc_id_ v0 + N.of_nat (length ops) < uint64_modulus)%N ->
  run ops v0 = Some v ->
  GetRecordCount v = size (tracked_metadata_by_key_ v).
Proof.
  intros Horigin Hwf Hroom Hrun.
  pose proof (originate_tracking _ _ _ _ _ Horigin Hwf) as Hinv0.
  destruct (run_tracking ops v0 v Hinv0 Hroom Hrun) as [[Hfwd Hbwd] _].
  by apply inverse_maps_size.
Qed.

(** [GetRecordCount_counts_tracked_keys] on the restored index after its
    four calls. *)
Lemma GetRecordCount_counts_tracked_keys_witness :
  GetRecordCount Examples.later_result
  = size (tracked_metadata_by_key_ Examples.later_result).
Proof.
  apply (GetRecordCount_counts_tracked_keys 1 false Examples.restored_flat
           Examples.snapshot Examples.later_history
           Examples.restored Examples.later_result).
  - reflexivity.
  - apply (bool_decide_unpack _). vm_compute. exact I.
  - vm_compute. reflexivity.
  - vm_compute. reflexivity.
Defined.

Section SaveLoad.
Context {K : Type} `{!VectorDataType} `{!VectorImpl K} `{!Embedding}.
Implicit Types v : VectorBase K.

Definition proto_metadata (tk : TrackedKeyProto) : TrackedKeyMetadata :=
  {| internal_id := proto_internal_id tk; magnitude := proto_magnitude tk |}.

(** The maps after the loop of [LoadTrackedKeys] over entries that are new
    to the index and name every key and every id once. *)
Lemma LoadTrackedKeys_fold_maps tracked_keys : forall v,
  NoDup (proto_key <$> tracked_keys) ->
  NoDup (proto_internal_id <$> tracked_keys) ->
  Forall (fun tk => fresh_entry v (proto_internal_id tk, proto_key tk))
    tracked_keys ->
  tracked_metadata_by_key_ (foldl LoadTrackedKeys_step v tracked_keys)
  = list_to_map ((fun tk => (proto_key tk, proto_metadata tk))
                   <$> tracked_keys)
    ∪ tracked_metadata_by_key_ v
  /\ key_by_internal_id_ (foldl LoadTrackedKeys_step v tracked_keys)
     = list_to_map ((fun tk => (proto_internal_id tk, proto_key tk))
                      <$> tracked_keys)
       ∪ key_by_internal_id_ v.
Proof.
  induction tracked_keys as [|tk l IH]; intros v Hkeys Hids Hfresh.
  { simpl. by rewrite !(left_id_L ∅ (∪)). }
  rewrite fmap_cons in Hkeys. rewrite fmap_cons in Hids.
  apply NoDup_cons in Hkeys as [Hkey Hkeys].
  apply NoDup_cons in Hids as [Hid Hids].
  apply Forall_cons in Hfresh as [[Hfresh_id Hfresh_key] Hfresh].
  simpl in Hfresh_id, Hfresh_key.
  assert (LoadTrackedKeys_step v tk
          = mkVectorBase (dimensions_ v) (normalize_ v)
              (N.max (inc_id_ v) (proto_internal_id tk))
              (<[proto_key tk := proto_metadata tk]>
                 (tracked_metadata_by_key_ v))
              (<[proto_internal_id tk := proto_key tk]>
                 (key_by_internal_id_ v))
              (impl_ v)) as Hstep.
  { unfold LoadTrackedKeys_step, hash_map_insert; simpl.
    by rewrite Hfresh_id, Hfresh_key. }
  cbn [foldl]. rewrite !fmap_cons, !list_to_map_cons.
  destruct (IH (LoadTrackedKeys_step v tk)) as [Hby_key Hby_id];
    [done|done| |].
  { rewrite Forall_forall in Hfresh |- *. intros tk' Hin.
    destruct (Hfresh _ Hin) as [Hid' Hkey']. simpl in Hid', Hkey'.
    rewrite Hstep. split; simpl.
    - rewrite lookup_insert_ne; [done|]. intros Heq. apply Hid.
      rewrite Heq. by apply list_elem_of_fmap_2.
    - rewrite lookup_insert_ne; [done|]. intros Heq. apply Hkey.
      rewrite Heq. by apply list_elem_of_fmap_2. }
  rewrite Hby_key, Hby_id, Hstep. simpl. split.
  - rewrite <- insert_union_l. symmetry. apply insert_union_r.
    apply not_elem_of_list_to_map_1. by rewrite <- list_fmap_compose.
  - rewrite <- insert_union_l. symmetry. apply insert_union_r.
    apply not_elem_of_list_to_map_1. by rewrite <- list_fmap_compose.
Qed.

Lemma ToProto_tracked_keys_metadata v :
  list_to_map ((fun tk => (proto_key tk, proto_metadata tk))
                 <$> ToProto_tracked_keys v)
  = tracked_metadata_by_key_ v.
Proof.
  unfold ToProto_tracked_keys. rewrite <- list_fmap_compose.
  rewrite <- (list_to_map_to_list (tracked_metadata_by_key_ v)) at 2.
  f_equal. rewrite <- (list_fmap_id (map_to_list _)) at 2.
  apply list_fmap_ext. by intros _ [key [id magnitude]] _.
Qed.

Lemma ToProto_tracked_keys_by_id v :
  bijective v ->
  list_to_map ((fun tk => (proto_internal_id tk, proto_key tk))
                 <$> ToProto_tracked_keys v)
  = key_by_internal_id_ v.
Proof.
  intros [Hfwd Hbwd]. apply map_eq. intros id.
  assert (NoDup ((fun tk => (proto_internal_id tk, proto_key tk))
                   <$> ToProto_tracked_keys v).*1) as Hnodup.
  { unfold ToProto_tracked_keys. rewrite <- !list_fmap_compose.
    apply NoDup_fmap_2_strong; [|apply NoDup_map_to_list].
    intros [k1 md1] [k2 md2] H1 H2 Hid. simpl in Hid.
    apply elem_of_map_to_list in H1, H2.
    pose proof (Hfwd _ _ H1) as Hk1. pose proof (Hfwd _ _ H2) as Hk2.
    rewrite Hid in Hk1. assert (k1 = k2) as -> by congruence. congruence. }
  apply option_eq. intros key.
  rewrite <- (elem_of_list_to_map _ _ _ Hnodup).
  unfold ToProto_tracked_keys. rewrite <- list_fmap_compose.
  rewrite list_elem_of_fmap. split.
  - intros ([k md] & [= -> ->] & Hin). simpl.
    apply elem_of_map_to_list in Hin. by apply Hfwd.
  - intros Hid. destruct (Hbwd _ _ Hid) as (md & Hmd & <-).
    exists (key, md). split; [done|]. by apply elem_of_map_to_list.
Qed.

(** The counter steps by at most one per call. *)
Lemma run_counter ops : forall v v',
  tracking_inv v ->
  (inc_id_ v + N.of_nat (length ops) < uint64_modulus)%N ->
  run ops v = Some v' ->
  (inc_id_ v' <= inc_id_ v + N.of_nat (length ops))%N.
Proof.
  induction ops as [|op ops IH]; intros v v' Hinv Hroom; simpl.
  - intros [= <-]. lia.
  - destruct (apply v op) as [v1|] eqn:Hop; simpl; [|done].
    intros Hrun. simpl in Hroom.
    destruct (apply_tracking v op v1 Hinv) as [Hinv1 Hinc1]; [lia|done|].
    assert (inc_id_ v' <= inc_id_ v1 + N.of_nat (length ops))%N
      by (apply IH; [done|lia|done]).
    lia.
Qed.

End SaveLoad.

(** X6.  The tracked keys that [ToProto] writes for such an index, loaded
    into a new index by [LoadTrackedKeys], give the same key-to-id map
    (ids and magnitudes) and the same id-to-key map, and a counter above
    every id. *)
Theorem LoadTrackedKeys_restores_saved_keys
    {K : Type} `{!VectorDataType} `{!VectorImpl K} `{!Embedding}
    (dimensions : N) (normalize : bool) (impl : K) (o : Origin)
    (ops : list Operation) (v0 v : VectorBase K)
    (dimensions' : N) (normalize' : bool) (impl' : K) :
  originate dimensions normalize impl o = (OkStatus, v0) ->
  well_formed_entries (origin_entries o) ->
  (inc_id_ v0 + N.of_nat (length ops) < uint64_modulus)%N ->
  run ops v0 = Some v ->
  let loaded :=
    LoadTrackedKeys (Create dimensions' normalize' impl')
      (ToProto_tracked_keys v) in
  loaded.1 = OkStatus
  /\ tracked_metadata_by_key_ loaded.2 = tracked_metadata_by_key_ v
  /\ key_by_internal_id_ loaded.2 = key_by_internal_id_ v
  /\ ids_issued loaded.2.
Proof.
  intros Horigin Hwf Hroom Hrun loaded.
  pose proof (originate_tracking _ _ _ _ _ Horigin Hwf) as Hinv0.
  pose proof (run_tracking ops v0 v Hinv0 Hroom Hrun) as Hinv.
  assert (inc_id_ v < uint64_modulus)%N as Hcounter.
  { pose proof (run_counter ops v0 v Hinv0 Hroom Hrun). lia. }
  pose proof (ToProto_tracked_keys_well_formed v Hinv Hcounter) as Hsaved.
  assert (Forall (fun tk => fresh_entry (Create dimensions' normalize' impl')
                              (proto_internal_id tk, proto_key tk))
            (ToProto_tracked_keys v)) as Hfresh.
  { apply Forall_forall. intros tk _. split; simpl; apply lookup_empty. }
  pose proof Hsaved as (Hids & Hkeys & Hsmall).
  rewrite <- list_fmap_compose in Hids, Hkeys.
  destruct (LoadTrackedKeys_fold_maps (ToProto_tracked_keys v)
              (Create dimensions' normalize' impl') Hkeys Hids Hfresh)
    as [Hby_key Hby_id].
  subst loaded. unfold LoadTrackedKeys. simpl.
  split; [done|]. split; [|split].
  - rewrite Hby_key. simpl. rewrite (right_id_L ∅ (∪)).
    apply ToProto_tracked_keys_metadata.
  - rewrite Hby_id. simpl. rewrite (right_id_L ∅ (∪)).
    apply ToProto_tracked_keys_by_id, Hinv.
  - destruct (LoadTrackedKeys_fold (ToProto_tracked_keys v)
                (Create dimensions' normalize' impl')) as [Hload Hroom'];
      [apply Create_loading_inv|done|done|done|].
    apply (loading_inv_finish _ Hload Hroom').
Qed.

(** [LoadTrackedKeys_restores_saved_keys] on the restored index after its
    four calls. *)
Lemma LoadTrackedKeys_restores_saved_keys_witness :
  let v := Examples.later_result in
  let loaded :=
    LoadTrackedKeys (Create 1 false (Examples.flat 4))
      (ToProto_tracked_keys v) in
  loaded.1 = OkStatus
  /\ tracked_metadata_by_key_ loaded.2 = tracked_metadata_by_key_ v
  /\ key_by_internal_id_ loaded.2 = key_by_internal_id_ v
  /\ ids_issued loaded.2.
Proof.
  apply (LoadTrackedKeys_restores_saved_keys 1 false Examples.restored_flat
           Examples.snapshot Examples.later_history
           Examples.restored Examples.later_result).
  - reflexivity.
  - apply (bool_decide_unpack _). vm_compute. exact I.
  - vm_compute. reflexivity.
  - vm_compute. reflexivity.
Defined.

(** ** The id counter *)

Section Counter.
Context {K : Type} `{!VectorDataType} `{!VectorImpl K} `{!Embedding}.
Implicit Types v : VectorBase K.





End Counter.



(** X8.  [RemoveRecord] on a tracked key whose id maps back to it, when
    the kernel removes the id without error, returns true; afterwards the
    key is not tracked, its id has no key, the record count is one less,
    the counter is unchanged, and every other key and id is looked up as
    before. *)
Theorem RemoveRecord_removes
    {K : Type} `{!VectorImpl K} (v : VectorBase K) (key : string)
    (md : TrackedKeyMetadata) :
  key <> ""%string ->
  tracked_metadata_by_key_ v !! key = Some md ->
  key_by_internal_id_ v !! internal_id md = Some key ->
  (_RemoveRecord (UnTrackVector (impl_ v) (internal_id md))
     (internal_id md)).1 = OkStatus ->
  let r := RemoveRecord v key in
  r.1 = Ok true
  /\ IsTracked r.2 key = false
  /\ status_code (GetKeyDuringSearch r.2 (internal_id md))
     = Some kInvalidArgument
  /\ S (GetRecordCount r.2) = GetRecordCount v
  /\ inc_id_ r.2 = inc_id_ v
  /\ (forall key', key' <> key ->
        GetInternalId r.2 key' = GetInternalId v key')
  /\ (forall id, id <> internal_id md ->
        GetKeyDuringSearch r.2 id = GetKeyDuringSearch v id).
Proof.
  intros Hne Hkey Hid Hkernel r. subst r.
  unfold RemoveRecord, UnTrackKey.
  apply String.eqb_neq in Hne. rewrite Hne, Hkey. simpl. rewrite Hid.
  destruct (_RemoveRecord _ _) as [st k']. simpl in Hkernel. subst st.
  unfold IsTracked, GetKeyDuringSearch, GetInternalId, GetRecordCount. simpl.
  rewrite !lookup_delete_eq.
  split; [done|]. split.
  { apply bool_decide_eq_false. by intros [? ?]. }
  split; [done|]. split.
  { rewrite map_size_delete, Hid. simpl.
    assert (size (key_by_internal_id_ v) <> 0); [|lia].
    apply map_size_non_empty_iff. intros Hempty.
    by rewrite Hempty, lookup_empty in Hid. }
  split; [done|]. split.
  - intros key' Hne'. by rewrite lookup_delete_ne.
  - intros id Hne'. by rewrite lookup_delete_ne.
Qed.

(** [RemoveRecord_removes] on key "a" of the example index, which has
    id 0. *)
Lemma RemoveRecord_removes_witness :
  let v := Examples.history_result in
  let r := RemoveRecord v "a" in
  r.1 = Ok true
  /\ IsTracked r.2 "a" = false
  /\ status_code (GetKeyDuringSearch r.2 0%N) = Some kInvalidArgument
  /\ S (GetRecordCount r.2) = GetRecordCount v
  /\ inc_id_ r.2 = inc_id_ v
  /\ (forall key', key' <> "a"%string ->
        GetInternalId r.2 key' = GetInternalId v key')
  /\ (forall id, id <> 0%N ->
        GetKeyDuringSearch r.2 id = GetKeyDuringSearch v id).
Proof.
  apply (RemoveRecord_removes Examples.history_result "a"
           {| internal_id := 0; magnitude := kDefaultMagnitude |});
    try (vm_compute; reflexivity).
  discriminate.
Defined.

(** ** Reading a record of a loaded index *)

Section Placeholders.
Context {K : Type} `{!VectorDataType} `{!VectorImpl K} `{!Embedding}.
Implicit Types v : VectorBase K.

(** The magnitude that [LoadKeysAndInternalIds] gives the keys it loads. *)
Definition placeholder_magnitude v : float :=
  if normalize_ v then float_lowest else (-1)%float.

Lemma LoadKeysAndInternalIds_loop_magnitudes keys_left :
  forall v rdb_stream st v',
  LoadKeysAndInternalIds_loop keys_left v rdb_stream = (st, v') ->
  (forall key md, tracked_metadata_by_key_ v !! key = Some md ->
                  magnitude md = placeholder_magnitude v) ->
  normalize_ v' = normalize_ v
  /\ forall key md, tracked_metadata_by_key_ v' !! key = Some md ->
                    magnitude md = placeholder_magnitude v.
Proof.
  induction keys_left as [|n IH]; intros v rdb_stream st v'; simpl.
  { by intros [= _ <-]. }
  destruct (loadSizeT rdb_stream) as [[id rest]|c m]; [|by intros [= _ <-]].
  destruct (loadString rest) as [[key rest']|c m]; [|by intros [= _ <-]].
  intros Hloop Hall. apply IH in Hloop; [done|].
  intros key' md'. unfold hash_map_insert; simpl.
  destruct (tracked_metadata_by_key_ v !! key) eqn:Hkey; simpl;
    [apply Hall|].
  rewrite lookup_insert. case_decide; [by intros [= <-]|apply Hall].
Qed.

End Placeholders.

(** X9.  After [LoadKeysAndInternalIds] into a new normalizing (cosine)
    index, [GetValue] is [Internal], Magnitude is not initialized, for
    every tracked key, whatever the kernel holds, and [NotFound] for every
    other key: the loaded magnitude is the lowest float, which is
    negative. *)
Theorem GetValue_after_LoadKeysAndInternalIds
    {K : Type} `{!VectorDataType} `{!VectorImpl K} `{!Embedding}
    (_GetValue : K -> N -> string) (GetVectorDataSize : N)
    (DenormalizeVector : string -> N -> float -> string)
    (dimensions : N) (impl : K) (rdb_stream : list RdbItem) (key : string) :
  let v :=
    (LoadKeysAndInternalIds (Create dimensions true impl) rdb_stream).2 in
  GetValue _GetValue GetVectorDataSize DenormalizeVector v key
  = if IsTracked v key
    then Error kInternal "Magnitude is not initialized"
    else Error kNotFound "Record was not found".
Proof.
  intros v.
  destruct (LoadKeysAndInternalIds (Create dimensions true impl) rdb_stream)
    as [st v'] eqn:Hload.
  subst v. simpl. revert Hload. generalize v' as v. clear v'. intros v.
  unfold LoadKeysAndInternalIds. intros Hload.
  assert (normalize_ v = true
          /\ forall key md, tracked_metadata_by_key_ v !! key = Some md ->
                            magnitude md = float_lowest) as [Hnorm Hall].
  { destruct (loadSizeT rdb_stream) as [[keys_count rest]|c m].
    - apply LoadKeysAndInternalIds_loop_magnitudes in Hload; [done|].
      intros k md. simpl. by rewrite lookup_empty.
    - injection Hload as _ <-. split; [done|].
      intros k md. simpl. by rewrite lookup_empty. }
  unfold GetValue, IsTracked.
  destruct (tracked_metadata_by_key_ v !! key) as [md|] eqn:Hkey.
  - rewrite bool_decide_eq_true_2 by by eexists.
    by rewrite Hnorm, (Hall _ _ Hkey).
  - rewrite bool_decide_eq_false_2; [done|]. by intros [? ?].
Qed.

(** ** Loading the keys of an old-format stream *)

Lemma NoDup_snd_inj {A B : Type} (l : list (A * B)) (a a' : A) (b : B) :
  NoDup l.*2 -> (a, b) ∈ l -> (a', b) ∈ l -> a = a'.
Proof.
  induction l as [|[a0 b0] l IH]; intros Hnodup Ha Ha'.
  { by apply elem_of_nil in Ha. }
  rewrite fmap_cons in Hnodup. apply NoDup_cons in Hnodup as [Hb0 Hnodup].
  apply elem_of_cons in Ha as [Ha|Ha], Ha' as [Ha'|Ha'].
  - congruence.
  - injection Ha as -> ->. exfalso. apply Hb0.
    by apply (list_elem_of_fmap_2 snd _ (a', b0)).
  - injection Ha' as -> ->. exfalso. apply Hb0.
    by apply (list_elem_of_fmap_2 snd _ (a, b0)).
  - by apply IH.
Qed.

Section LoadPairs.
Context {K : Type} `{!VectorDataType} `{!VectorImpl K} `{!Embedding}.
Implicit Types v : VectorBase K.

Definition placeholder_metadata v (e : N * string)
  : string * TrackedKeyMetadata :=
  (e.2, {| internal_id := e.1; magnitude := placeholder_magnitude v |}).

Lemma LoadKeysAndInternalIds_loop_maps keys_left :
  forall v rdb_stream pairs,
  rdb_pairs keys_left rdb_stream = Some pairs ->
  NoDup pairs.*1 -> NoDup pairs.*2 ->
  Forall (fresh_entry v) pairs ->
  exists v',
    LoadKeysAndInternalIds_loop keys_left v rdb_stream = (OkStatus, v')
    /\ key_by_internal_id_ v' = list_to_map pairs ∪ key_by_internal_id_ v
    /\ tracked_metadata_by_key_ v'
       = list_to_map (placeholder_metadata v <$> pairs)
         ∪ tracked_metadata_by_key_ v.
Proof.
  induction keys_left as [|n IH]; intros v rdb_stream pairs; simpl.
  { intros [= <-] _ _ _. eexists. split; [done|]. simpl.
    by rewrite !(left_id_L ∅ (∪)). }
  destruct rdb_stream as [|[id|] [|[|key] rest]]; simpl; try done.
  destruct (rdb_pairs n rest) as [pairs'|] eqn:Hrest; [|done]. simpl.
  intros [= <-] Hids Hkeys Hfresh.
  rewrite fmap_cons in Hids. rewrite fmap_cons in Hkeys.
  apply NoDup_cons in Hids as [Hid Hids].
  apply NoDup_cons in Hkeys as [Hkey Hkeys].
  apply Forall_cons in Hfresh as [[Hfresh_id Hfresh_key] Hfresh].
  simpl in Hid, Hkey, Hfresh_id, Hfresh_key.
  unfold hash_map_insert. rewrite Hfresh_id. simpl. rewrite Hfresh_key.
  simpl.
  match goal with
  | |- context [LoadKeysAndInternalIds_loop n ?v1 rest] =>
      destruct (IH v1 rest pairs' Hrest Hids Hkeys)
        as (v' & Hloop & Hby_id & Hby_key)
  end.
  { rewrite Forall_forall in Hfresh |- *. intros e Hin.
    destruct (Hfresh _ Hin) as [Hid' Hkey']. split; simpl.
    - rewrite lookup_insert_ne; [done|]. intros Heq. apply Hid.
      rewrite Heq. by apply (list_elem_of_fmap_2 fst).
    - rewrite lookup_insert_ne; [done|]. intros Heq. apply Hkey.
      rewrite Heq. by apply (list_elem_of_fmap_2 snd). }
  exists v'. split; [done|]. rewrite Hby_id, Hby_key.
  match goal with
  | |- context [placeholder_metadata ?v1 <$> pairs'] =>
      change (placeholder_metadata v1) with (placeholder_metadata v)
  end.
  simpl. split.
  - rewrite <- insert_union_l. symmetry. apply insert_union_r.
    by apply not_elem_of_list_to_map_1.
  - rewrite <- insert_union_l. symmetry. apply insert_union_r.
    apply not_elem_of_list_to_map_1.
    change (list_fmap _ _ (placeholder_metadata v) pairs')
      with (placeholder_metadata v <$> pairs').
    by rewrite <- list_fmap_compose.
Qed.

End LoadPairs.

(** X10.  [LoadKeysAndInternalIds] on a stream that holds a count and
    that many (id, key) pairs, no id and no key twice, succeeds, and the
    new index then maps id to key and key to id for exactly the pairs of
    the stream. *)
Theorem LoadKeysAndInternalIds_loads_the_pairs
    {K : Type} `{!VectorDataType} `{!VectorImpl K} `{!Embedding}
    (dimensions : N) (normalize : bool) (impl : K)
    (rdb_stream : list RdbItem) (pairs : list (N * string)) :
  rdb_entries rdb_stream = Some pairs ->
  NoDup pairs.*1 -> NoDup pairs.*2 ->
  let r :=
    LoadKeysAndInternalIds (Create dimensions normalize impl) rdb_stream in
  r.1 = OkStatus
  /\ (forall id key,
        GetKeyDuringSearch r.2 id = Ok key <-> (id, key) ∈ pairs)
  /\ (forall key id,
        GetInternalId r.2 key = Ok id <-> (id, key) ∈ pairs).
Proof.
  unfold rdb_entries, LoadKeysAndInternalIds.
  destruct rdb_stream as [|[keys_count|] rest]; simpl; try done.
  intros Hpairs Hids Hkeys.
  destruct (LoadKeysAndInternalIds_loop_maps (N.to_nat keys_count)
              (Create dimensions normalize impl) rest pairs Hpairs Hids Hkeys)
    as (v' & -> & Hby_id & Hby_key).
  { apply Forall_forall. intros e _. split; simpl; apply lookup_empty. }
  change (key_by_internal_id_ (Create dimensions normalize impl))
    with (∅ : gmap N string) in Hby_id.
  change (tracked_metadata_by_key_ (Create dimensions normalize impl))
    with (∅ : gmap string TrackedKeyMetadata) in Hby_key.
  rewrite (right_id_L ∅ (∪)) in Hby_id.
  rewrite (right_id_L ∅ (∪)) in Hby_key. simpl.
  split; [done|]. split.
  - intros id key. unfold GetKeyDuringSearch. rewrite Hby_id.
    rewrite (elem_of_list_to_map _ _ _ Hids).
    destruct (list_to_map pairs !! id) as [key'|];
      split; intros Heq; congruence.
  - intros key id. unfold GetInternalId. rewrite Hby_key.
    assert (NoDup (placeholder_metadata (Create dimensions normalize impl)
                     <$> pairs).*1) as Hnodup
      by by rewrite <- list_fmap_compose.
    destruct (list_to_map _ !! key) as [md|] eqn:Hmd.
    + apply (elem_of_list_to_map _ _ _ Hnodup) in Hmd.
      apply list_elem_of_fmap in Hmd as ([id' key'] & [= -> ->] & Hin).
      simpl. split; [by intros [= <-]|]. intros Hin'. f_equal.
      by eapply (NoDup_snd_inj pairs).
    + split; [done|]. intros Hin. exfalso.
      assert ((key, {| internal_id := id;
                       magnitude := placeholder_magnitude
                                      (Create dimensions normalize impl) |})
              ∈ placeholder_metadata (Create dimensions normalize impl)
                  <$> pairs) as Hin'.
      { apply list_elem_of_fmap. by exists (id, key). }
      apply (elem_of_list_to_map _ _ _ Hnodup) in Hin'. congruence.
Qed.

(** [LoadKeysAndInternalIds_loads_the_pairs] on a stream of two pairs. *)
Lemma LoadKeysAndInternalIds_loads_the_pairs_witness :
  let r :=
    LoadKeysAndInternalIds (Create 1 true Examples.restored_flat)
      StreamExamples.two_keys in
  r.1 = OkStatus
  /\ (forall id key,
        GetKeyDuringSearch r.2 id = Ok key
        <-> (id, key) ∈ [(5%N, "x"%string); (7%N, "y"%string)])
  /\ (forall key id,
        GetInternalId r.2 key = Ok id
        <-> (id, key) ∈ [(5%N, "x"%string); (7%N, "y"%string)]).
Proof.
  apply (LoadKeysAndInternalIds_loads_the_pairs 1 true Examples.restored_flat
           StreamExamples.two_keys [(5%N, "x"%string); (7%N, "y"%string)]).
  - reflexivity.
  - apply (bool_decide_unpack _). vm_compute. exact I.
  - apply (bool_decide_unpack _). vm_compute. exact I.
Defined.

Section LoadShape.
Context {K : Type} `{!VectorDataType} `{!VectorImpl K} `{!Embedding}.

Lemma LoadKeysAndInternalIds_loop_ok keys_left :
  forall (v : VectorBase K) rdb_stream,
  is_Some (rdb_pairs keys_left rdb_stream) ->
  ok (LoadKeysAndInternalIds_loop keys_left v rdb_stream).1 = true.
Proof.
  induction keys_left as [|n IH]; intros v rdb_stream; simpl; [done|].
  destruct rdb_stream as [|[id|] [|[|key] rest]]; simpl;
    try (by intros [? ?]).
  intros [pairs Hpairs]. apply IH.
  destruct (rdb_pairs n rest); [by eexists|done].
Qed.

End LoadShape.

(** X29.  [LoadKeysAndInternalIds] returns Ok exactly when the stream
    starts with a count followed by that many pairs of an id and a key;
    otherwise it is an error. *)
Theorem LoadKeysAndInternalIds_ok_iff
    {K : Type} `{!VectorDataType} `{!VectorImpl K} `{!Embedding}
    (v : VectorBase K) (rdb_stream : list RdbItem) :
  ok (LoadKeysAndInternalIds v rdb_stream).1 = true
  <-> is_Some (rdb_entries rdb_stream).
Proof.
  unfold LoadKeysAndInternalIds, rdb_entries.
  destruct rdb_stream as [|[keys_count|] rest]; simpl;
    try (split; [done|by intros [? ?]]).
  split.
  - destruct (LoadKeysAndInternalIds_loop _ v rest) as [[[]|c m] v'] eqn:Hloop;
      [|done].
    intros _. by eapply LoadKeysAndInternalIds_loop_pairs.
  - apply LoadKeysAndInternalIds_loop_ok.
Qed.

(** ** The candidates of a pre-filtered search *)

Lemma emplace_Permutation (x : PriorityQueue.value_type) (q : PriorityQueue.t) :
  PriorityQueue.emplace x q ≡ₚ x :: q.
Proof.
  induction q as [|y q IH]; simpl; [done|].
  destruct (PriorityQueue.less x y); [|done].
  rewrite IH. apply Permutation_swap.
Qed.

(** X11.  With room for [count] > 0 candidates: if the heap holds at most
    [count] candidates with distinct ids and [top_keys] is the set of
    those ids, then [AddPrefilteredKey] returns, and the same holds
    afterwards; the heap does not shrink. *)
Theorem AddPrefilteredKey_keeps_heap_bounded
    {K : Type} `{!VectorImpl K} (v : VectorBase K) (query key : string)
    (count : nat) (results : PriorityQueue.t) (top_keys : gset N) :
  0 < count ->
  PriorityQueue.size results <= count ->
  NoDup results.*2 ->
  (forall id, id ∈ top_keys <-> id ∈ results.*2) ->
  exists results' top_keys',
    AddPrefilteredKey v query count key results top_keys
    = Some (results', top_keys')
    /\ PriorityQueue.size results <= PriorityQueue.size results'
    /\ PriorityQueue.size results' <= count
    /\ NoDup results'.*2
    /\ (forall id, id ∈ top_keys' <-> id ∈ results'.*2).
Proof.
  intros Hcount Hsize Hnodup Hkeys. unfold AddPrefilteredKey.
  destruct (ComputeDistanceFromRecord v key query) as [result|c m];
    [|by exists results, top_keys].
  case_bool_decide as Hin; [by exists results, top_keys|].
  unfold PriorityQueue.size in *.
  destruct (length results <? count) eqn:Hroom.
  - apply Nat.ltb_lt in Hroom. eexists _, _. split; [done|].
    pose proof (emplace_Permutation result results) as Hperm.
    rewrite Hperm. simpl. split; [lia|]. split; [lia|]. split.
    + apply NoDup_cons. split; [|done]. by rewrite <- Hkeys.
    + intros id. rewrite Hperm, fmap_cons.
      rewrite elem_of_union, elem_of_singleton, elem_of_cons.
      by rewrite Hkeys.
  - apply Nat.ltb_ge in Hroom.
    destruct results as [|top rest]; [simpl in *; lia|]. simpl.
    destruct (PrimFloat.ltb result.1 top.1); [|by exists (top :: rest), top_keys].
    eexists _, _. split; [done|].
    pose proof (emplace_Permutation result rest) as Hperm.
    rewrite Hperm. simpl in *.
    apply NoDup_cons in Hnodup as [Htop Hrest].
    split; [lia|]. split; [lia|]. split.
    + apply NoDup_cons. split; [|done].
      intros Hr. apply Hin, Hkeys. by right.
    + intros id. rewrite Hperm, fmap_cons.
      rewrite elem_of_union, elem_of_difference, !elem_of_singleton,
        elem_of_cons, Hkeys, elem_of_cons.
      split; [intros [->|[[->|?] ?]]; auto; done|].
      intros [->|Hid]; [by left|right].
      split; [by right|]. by intros ->.
Qed.

(** [AddPrefilteredKey_keeps_heap_bounded] on a heap of one candidate with
    room for one. *)
Lemma AddPrefilteredKey_keeps_heap_bounded_witness :
  exists results' top_keys',
    AddPrefilteredKey Examples.twins "AAAB" 1 "a" [(1%float, 0%N)] {[0%N]}
    = Some (results', top_keys')
    /\ 1 <= PriorityQueue.size results'
    /\ PriorityQueue.size results' <= 1
    /\ NoDup results'.*2
    /\ (forall id, id ∈ top_keys' <-> id ∈ results'.*2).
Proof.
  apply (AddPrefilteredKey_keeps_heap_bounded Examples.twins "AAAB" "a" 1
           [(1%float, 0%N)] {[0%N]}).
  - lia.
  - simpl. lia.
  - apply (bool_decide_unpack _). vm_compute. exact I.
  - intros id. simpl. rewrite elem_of_singleton, list_elem_of_singleton. done.
Defined.

(** ** The reply built from the kernel's queue *)

(** X12.  [CreateReply] never fails.  Its reply has at most as many
    neighbors as the queue has elements, each neighbor carries the key
    and the distance of a queue element whose id has a key, without
    contents, and when every id of the queue has a key the reply has as
    many neighbors as the queue has elements. *)
Theorem CreateReply_keeps_keyed_elements
    {K : Type} (v : VectorBase K) (knn_res : PriorityQueue.t) :
  exists reply,
    CreateReply v knn_res = Ok reply
    /\ length reply <= PriorityQueue.size knn_res
    /\ Forall (fun n => exists ele,
                 ele ∈ knn_res
                 /\ GetKeyDuringSearch v ele.2 = Ok (external_id n)
                 /\ distance n = ele.1
                 /\ attribute_contents n = None) reply
    /\ (Forall (fun ele => ok (GetKeyDuringSearch v ele.2) = true) knn_res ->
        length reply = PriorityQueue.size knn_res).
Proof.
  exists (omap (neighbor_of v) knn_res).
  split; [apply CreateReply_pop_order|].
  unfold PriorityQueue.size. split; [|split].
  - induction knn_res as [|ele q IH]; simpl in *; [done|].
    destruct (neighbor_of v ele); simpl;
      [apply le_n_S, IH|apply Nat.le_le_succ_r, IH].
  - apply Forall_forall. intros n Hn.
    apply list_elem_of_omap in Hn as (ele & Hele & Hn).
    exists ele. split; [done|]. unfold neighbor_of in Hn.
    destruct (GetKeyDuringSearch v ele.2) as [vector_key|c m]; [|done].
    by injection Hn as <-.
  - induction 1 as [|ele q Hele _ IH]; simpl in *; [done|].
    unfold neighbor_of at 1.
    destruct (GetKeyDuringSearch v ele.2); [|done]. simpl. f_equal. apply IH.
Qed.

(** ** The rows of the FT.SEARCH reply *)

Section ReplyRows.
Import FtSearch.

Lemma for_each_index_passes_checks (body : nat -> Outcome (list Reply)) :
  forall count i,
  (forall j, body j <> CheckFailed) ->
  for_each_index i count body <> CheckFailed.
Proof.
  induction count as [|count IH]; intros i Hbody; simpl; [done|].
  pose proof (IH (S i) Hbody) as Hrest. specialize (Hbody i).
  destruct (body i); simpl; try done.
  by destruct (for_each_index (S i) count body).
Qed.

Lemma reply_return_attributes_passes_checks score_as neighbor attrs :
  reply_return_attributes score_as neighbor attrs <> CheckFailed.
Proof.
  induction attrs as [|return_attribute attrs IH]; simpl; [done|].
  revert IH.
  destruct (reply_return_attributes score_as neighbor attrs) as [[]| | |];
    intros IH; try done;
    (destruct (String.eqb score_as (identifier return_attribute));
     [done|]);
    unfold value; destruct (attribute_contents neighbor); simpl; try done.
  by destruct (List.find _ _).
Qed.

Lemma serialize_row_passes_checks parameters n :
  serialize_row parameters n <> CheckFailed.
Proof.
  unfold serialize_row.
  destruct (return_attributes parameters) as [|return_attribute attrs].
  - unfold value. by destruct (attribute_contents n).
  - pose proof (reply_return_attributes_passes_checks (score_as parameters) n
                  (return_attribute :: attrs)) as Hattrs.
    revert Hattrs.
    by destruct (reply_return_attributes _ _ _) as [[]| | |].
Qed.

Lemma at_index_row_passes_checks neighbors
    (row : Neighbor -> Outcome (list Reply)) i :
  (forall n, row n <> CheckFailed) ->
  (n ← at_index neighbors i; row n) <> CheckFailed.
Proof.
  intros Hrow. unfold at_index. destruct (neighbors !! i); simpl; [|done].
  apply Hrow.
Qed.

Lemma CalcStartIndex_checked neighbors parameters :
  first_index (limit parameters) < k parameters ->
  CalcStartIndex neighbors parameters
  = Done (Nat.min (length neighbors) (first_index (limit parameters))).
Proof.
  intros Hk. unfold CalcStartIndex.
  apply Nat.ltb_lt in Hk. rewrite Hk.
  destruct (length neighbors <=? _) eqn:Hcmp; f_equal.
  - apply Nat.leb_le in Hcmp. lia.
  - apply Nat.leb_gt in Hcmp. lia.
Qed.

(** A reply that is not an array header. *)
Definition is_bulk (r : Reply) : Prop :=
  match r with
  | ReplyWithString _ | ReplyWithFormattedScore _ => True
  | _ => False
  end.

Lemma reply_return_attributes_counts score_as neighbor attrs sent cnt :
  reply_return_attributes score_as neighbor attrs = Done (sent, cnt) ->
  length sent = 2 * cnt /\ cnt <= length attrs /\ Forall is_bulk sent.
Proof.
  revert sent cnt.
  induction attrs as [|return_attribute attrs IH]; intros sent cnt; simpl.
  { intros [= <- <-]. done. }
  destruct (String.eqb score_as (identifier return_attribute)).
  - destruct (reply_return_attributes score_as neighbor attrs)
      as [[rest cnt']| | |]; simpl; try done.
    intros [= <- <-]. destruct (IH _ _ eq_refl) as (Hlen & Hcnt & Hbulk).
    simpl. split; [lia|]. split; [lia|]. by repeat constructor.
  - destruct (value neighbor) as [contents| | |]; simpl; try done.
    destruct (reply_return_attributes score_as neighbor attrs)
      as [[rest cnt']| | |]; simpl; try done.
    destruct (IH _ _ eq_refl) as (Hlen & Hcnt & Hbulk).
    destruct (List.find _ contents); intros [= <- <-]; simpl.
    + split; [lia|]. split; [lia|]. by repeat constructor.
    + split; [lia|]. split; [lia|done].
Qed.

Lemma reply_return_attributes_done score_as neighbor attrs :
  is_Some (attribute_contents neighbor) ->
  exists sent cnt,
    reply_return_attributes score_as neighbor attrs = Done (sent, cnt).
Proof.
  intros [contents Hcontents].
  induction attrs as [|return_attribute attrs (rest & cnt & IH)]; simpl;
    [by eexists _, _|].
  rewrite IH. unfold value. rewrite Hcontents. simpl.
  destruct (String.eqb _ _); [by eexists _, _|].
  destruct (List.find _ _); by eexists _, _.
Qed.

Lemma serialize_row_done parameters n :
  is_Some (attribute_contents n) ->
  exists row, serialize_row parameters n = Done row.
Proof.
  intros Hcontents. unfold serialize_row.
  destruct (return_attributes parameters) as [|return_attribute attrs].
  - destruct Hcontents as [contents Hcontents]. unfold value.
    rewrite Hcontents. by eexists.
  - destruct (reply_return_attributes_done (score_as parameters) n
                (return_attribute :: attrs) Hcontents) as (sent & cnt & ->).
    by eexists.
Qed.

(** The loop over a window within the list sends the rows of its
    neighbors, one after the other, when each of them can be written. *)
Lemma for_each_index_rows (neighbors : list Neighbor)
    (row : Neighbor -> Outcome (list Reply)) :
  forall count start,
  start + count <= length neighbors ->
  Forall (fun n => exists r, row n = Done r)
    (take count (drop start neighbors)) ->
  exists rows,
    Forall2 (fun n r => row n = Done r) (take count (drop start neighbors))
      rows
    /\ for_each_index start count (fun i => n ← at_index neighbors i; row n)
       = Done (concat rows).
Proof.
  induction count as [|count IH]; intros start Hlen Hrows.
  { exists []. split; [|done]. rewrite take_0. constructor. }
  cbn [for_each_index].
  destruct (neighbors !! start) as [n|] eqn:Hn.
  2:{ apply lookup_ge_None in Hn. lia. }
  assert (at_index neighbors start = Done n) as ->
    by (unfold at_index; by rewrite Hn).
  rewrite (drop_S _ _ _ Hn) in Hrows |- *. rewrite firstn_cons in Hrows |- *.
  apply Forall_cons in Hrows as [[r Hr] Hrows].
  destruct (IH (S start)) as (rows & Hall & Hrun); [lia|done|].
  exists (r :: rows). split; [by constructor|].
  cbn [mbind outcome_bind]. rewrite Hr, Hrun. done.
Qed.

End ReplyRows.

(** X13.  Whatever the neighbors and the parameters, [SendReply] does not
    trip the CHECKs of [CalcStartIndex] and [SerializeNeighbors]: it
    returns early unless [first_index < k]. *)
Theorem SendReply_passes_its_checks
    (GetIdentifier : StatusOr string)
    (ProcessNeighborsForReply : list Neighbor -> list Neighbor)
    (neighbors : list Neighbor)
    (parameters : FtSearch.VectorSearchParameters) :
  FtSearch.SendReply GetIdentifier ProcessNeighborsForReply neighbors
    parameters
  <> FtSearch.CheckFailed.
Proof.
  unfold FtSearch.SendReply.
  destruct (FtSearch.k parameters
            <=? FtSearch.first_index (FtSearch.limit parameters)) eqn:Hk;
    simpl; [done|].
  destruct (FtSearch.number (FtSearch.limit parameters) =? 0); [done|].
  apply Nat.leb_gt in Hk.
  destruct (FtSearch.no_content parameters).
  - unfold FtSearch.SendReplyNoContent.
    rewrite CalcStartIndex_checked by done. simpl.
    pose proof (for_each_index_passes_checks
      (fun i => n ← FtSearch.at_index neighbors i;
                FtSearch.Done [FtSearch.ReplyWithString (external_id n)])) as Hloop.
    match goal with
    | |- context [FtSearch.for_each_index ?i ?c ?b] =>
        specialize (Hloop c i); destruct (FtSearch.for_each_index i c b)
    end; simpl; try done.
    apply Hloop. intros j. by apply at_index_row_passes_checks.
  - destruct GetIdentifier as [identifier|c m]; [|done].
    unfold FtSearch.SerializeNeighbors.
    apply Nat.ltb_lt in Hk as Hk'. rewrite Hk'.
    rewrite CalcStartIndex_checked by done. simpl.
    pose proof (for_each_index_passes_checks
      (fun i => n ← FtSearch.at_index (ProcessNeighborsForReply neighbors) i;
                FtSearch.serialize_row parameters n)) as Hloop.
    match goal with
    | |- context [FtSearch.for_each_index ?i ?c ?b] =>
        specialize (Hloop c i); destruct (FtSearch.for_each_index i c b)
    end; simpl; try done.
    apply Hloop. intros j. apply at_index_row_passes_checks.
    apply serialize_row_passes_checks.
Qed.

(** X14.  When [first_index < k], the window from the start index over
    [CalcEndIndex] positions lies within the list and every neighbor
    has its contents, [SerializeNeighbors] completes: it announces
    [2 * rows + 1] values, sends [min(size, k)] and then the row of each
    neighbor of the window, in order. *)
Theorem SerializeNeighbors_within
    (neighbors : list Neighbor)
    (parameters : FtSearch.VectorSearchParameters) :
  FtSearch.first_index (FtSearch.limit parameters) < FtSearch.k parameters ->
  Nat.min (length neighbors) (FtSearch.first_index (FtSearch.limit parameters))
  + FtSearch.CalcEndIndex neighbors parameters <= length neighbors ->
  Forall (fun n => is_Some (attribute_contents n)) neighbors ->
  exists rows,
    Forall2 (fun n row => FtSearch.serialize_row parameters n = FtSearch.Done row)
      (take (FtSearch.CalcEndIndex neighbors parameters)
         (drop (FtSearch.first_index (FtSearch.limit parameters)) neighbors))
      rows
    /\ FtSearch.SerializeNeighbors neighbors parameters
       = FtSearch.Done
           (FtSearch.ReplyWithArray (2 * length rows + 1)
            :: FtSearch.ReplyWithLongLong
                 (Nat.min (length neighbors) (FtSearch.k parameters))
            :: concat rows).
Proof.
  intros Hk Hwithin Hcontents. unfold FtSearch.SerializeNeighbors.
  apply Nat.ltb_lt in Hk as Hk'. rewrite Hk'.
  rewrite CalcStartIndex_checked by done. cbn [mbind FtSearch.outcome_bind].
  set (start := Nat.min (length neighbors) _) in *.
  set (count := FtSearch.CalcEndIndex neighbors parameters) in *.
  replace (start + count - start) with count by lia.
  assert (take count (drop (FtSearch.first_index (FtSearch.limit parameters))
                        neighbors)
          = take count (drop start neighbors)) as ->.
  { subst start.
    destruct (Nat.le_gt_cases (length neighbors)
                (FtSearch.first_index (FtSearch.limit parameters))).
    - rewrite Nat.min_l by done. by rewrite !drop_ge.
    - rewrite Nat.min_r by lia. done. }
  destruct (for_each_index_rows neighbors (FtSearch.serialize_row parameters)
              count start) as (rows & Hrows & ->); [done| |].
  { apply Forall_forall. intros n Hn. apply serialize_row_done.
    rewrite Forall_forall in Hcontents. apply Hcontents.
    by apply (subseteq_drop start), (subseteq_take count). }
  assert (length rows = count) as Hlen.
  { apply Forall2_length in Hrows. rewrite <- Hrows.
    rewrite length_take, length_drop. lia. }
  exists rows. split; [done|]. cbn [mbind FtSearch.outcome_bind].
  by rewrite Hlen.
Qed.

(** [SerializeNeighbors_within] on three neighbors, KNN 10 and LIMIT 1 2. *)
Lemma SerializeNeighbors_within_witness :
  exists rows,
    Forall2 (fun n row =>
               FtSearch.serialize_row (WindowExamples.limit_1_2 false) n
               = FtSearch.Done row)
      [ReplyExamples.neighbor "b" 2; ReplyExamples.neighbor "c" 3] rows
    /\ FtSearch.SerializeNeighbors ReplyExamples.three_neighbors
         (WindowExamples.limit_1_2 false)
       = FtSearch.Done
           (FtSearch.ReplyWithArray (2 * length rows + 1)
            :: FtSearch.ReplyWithLongLong 3 :: concat rows).
Proof.
  apply (SerializeNeighbors_within ReplyExamples.three_neighbors
           (WindowExamples.limit_1_2 false)).
  - simpl. lia.
  - vm_compute. lia.
  - repeat constructor; by eexists.
Defined.

(** X15.  Under the same conditions on the window [SendReplyNoContent]
    announces [CalcEndIndex + 1] values and sends [min(size, k)] and the
    keys of the neighbors from [first_index] on, [CalcEndIndex] of
    them. *)
Theorem SendReplyNoContent_sends_the_window
    (neighbors : list Neighbor)
    (parameters : FtSearch.VectorSearchParameters) :
  FtSearch.first_index (FtSearch.limit parameters) < FtSearch.k parameters ->
  Nat.min (length neighbors) (FtSearch.first_index (FtSearch.limit parameters))
  + FtSearch.CalcEndIndex neighbors parameters <= length neighbors ->
  FtSearch.SendReplyNoContent neighbors parameters
  = FtSearch.Done
      (FtSearch.ReplyWithArray
         (FtSearch.CalcEndIndex neighbors parameters + 1)
       :: FtSearch.ReplyWithLongLong
            (Nat.min (length neighbors) (FtSearch.k parameters))
       :: ((fun n => FtSearch.ReplyWithString (external_id n))
             <$> take (FtSearch.CalcEndIndex neighbors parameters)
                   (drop (FtSearch.first_index (FtSearch.limit parameters))
                      neighbors))).
Proof.
  intros Hk Hwithin.
  rewrite (SendReplyNoContent_within neighbors parameters
             (Nat.min (length neighbors)
                (FtSearch.first_index (FtSearch.limit parameters))));
    [|by apply CalcStartIndex_checked|done].
  simpl. do 3 f_equal.
  destruct (Nat.le_gt_cases (length neighbors)
              (FtSearch.first_index (FtSearch.limit parameters))).
  - rewrite Nat.min_l by done. by rewrite !drop_ge.
  - rewrite Nat.min_r by lia. done.
Qed.

(** [SendReplyNoContent_sends_the_window] on three neighbors, KNN 10 and
    LIMIT 1 2. *)
Lemma SendReplyNoContent_sends_the_window_witness :
  FtSearch.SendReplyNoContent ReplyExamples.three_neighbors
    (WindowExamples.limit_1_2 true)
  = FtSearch.Done
      [FtSearch.ReplyWithArray 3; FtSearch.ReplyWithLongLong 3;
       FtSearch.ReplyWithString "b"; FtSearch.ReplyWithString "c"].
Proof.
  apply (SendReplyNoContent_sends_the_window ReplyExamples.three_neighbors
           (WindowExamples.limit_1_2 true)).
  - simpl. lia.
  - vm_compute. lia.
Defined.

(** ** The framing of the replies *)

Module RespProps.
Import Resp.

(** A run of calls that makes up [n] complete values wherever it is
    sent. *)
Definition elements (n : nat) (shapes : list Shape) : Prop :=
  forall st, run st shapes = Some (Nat.iter n complete st).

Lemma run_app shapes shapes' st :
  run st (shapes ++ shapes')
  = match run st shapes with
    | Some st' => run st' shapes'
    | None => None
    end.
Proof.
  revert st. induction shapes as [|shape shapes IH]; intros st; simpl;
    [done|].
  destruct (step st shape); [apply IH|done].
Qed.

Lemma iter_add (n m : nat) (st : State) :
  Nat.iter (n + m) complete st = Nat.iter m complete (Nat.iter n complete st).
Proof.
  rewrite Nat.add_comm. induction m as [|m IH]; simpl; [done|].
  by rewrite IH.
Qed.

Lemma elements_nil : elements 0 [].
Proof. done. Qed.

Lemma elements_app n m shapes shapes' :
  elements n shapes -> elements m shapes' ->
  elements (n + m) (shapes ++ shapes').
Proof.
  intros Hn Hm st. by rewrite run_app, Hn, Hm, iter_add.
Qed.

Lemma elements_cons n shape shapes :
  elements 1 [shape] -> elements n shapes ->
  elements (S n) (shape :: shapes).
Proof. intros H1 Hn. apply (elements_app 1 n [shape] shapes H1 Hn). Qed.

Lemma elements_bulk : elements 1 [Bulk].
Proof. done. Qed.

Lemma elements_bulks shapes :
  Forall (fun shape => shape = Bulk) shapes ->
  elements (length shapes) shapes.
Proof.
  induction 1 as [|shape shapes -> _ IH]; [done|].
  apply elements_cons; [apply elements_bulk|done].
Qed.

Lemma elements_concat n (rows : list (list Shape)) :
  Forall (elements n) rows -> elements (length rows * n) (concat rows).
Proof.
  induction 1 as [|row rows Hrow _ IH]; [done|].
  simpl. by apply elements_app.
Qed.

Lemma iter_complete_Fixed (n : nat) : forall top stack,
  Nat.iter (S n) complete (top, Fixed (S n) :: stack) = complete (top, stack).
Proof.
  induction n as [|n IH]; intros top stack; [done|].
  rewrite Nat.iter_succ_r. apply IH.
Qed.

Lemma iter_complete_Postponed (n : nat) : forall sent top stack,
  Nat.iter n complete (top, Postponed sent :: stack)
  = (top, Postponed (sent + n) :: stack).
Proof.
  induction n as [|n IH]; intros sent top stack.
  { simpl. by rewrite Nat.add_0_r. }
  rewrite Nat.iter_succ_r. unfold complete at 2. simpl.
  rewrite IH. do 3 f_equal. lia.
Qed.

Lemma elements_array n body :
  elements n body -> elements 1 (ArrayOf n :: body).
Proof.
  intros Hbody st. destruct n as [|n].
  - simpl. rewrite Hbody. done.
  - cbn [run step]. rewrite Hbody.
    destruct st as [top stack]. by rewrite iter_complete_Fixed.
Qed.

Lemma elements_postponed n body :
  elements n body ->
  elements 1 (PostponedArray :: body ++ [SetArrayLength n]).
Proof.
  intros Hbody [top stack]. cbn [run step]. rewrite run_app, Hbody.
  simpl. rewrite iter_complete_Postponed. simpl.
  by rewrite Nat.eqb_refl.
Qed.

Lemma iter_complete_top (n : nat) : forall top,
  Nat.iter n complete (top, []) = (top + n, []).
Proof.
  induction n as [|n IH]; intros top.
  { simpl. by rewrite Nat.add_0_r. }
  rewrite Nat.iter_succ_r. unfold complete at 2. simpl.
  rewrite IH. f_equal. lia.
Qed.

Lemma elements_frames n shapes :
  elements n shapes -> frames shapes = Some n.
Proof.
  intros Hn. unfold frames. by rewrite Hn, iter_complete_top.
Qed.

End RespProps.

Section ReplyFrames.
Import FtSearch RespProps.

Lemma is_bulk_shape (body : list Reply) :
  Forall is_bulk body ->
  Forall (fun shape => shape = Resp.Bulk) (reply_shape <$> body).
Proof.
  intros Hbody. apply Forall_fmap. eapply Forall_impl; [done|].
  by intros [].
Qed.

(** The calls of a row: the key and an array that announces its length or
    has it set at its end. *)
Lemma serialize_row_shape parameters n row :
  serialize_row parameters n = Done row ->
  exists body,
    Forall is_bulk body
    /\ (row = ReplyWithString (external_id n)
              :: ReplyWithArray (length body) :: body
        \/ row = ReplyWithString (external_id n)
                 :: ReplyWithPostponedArray
                 :: body ++ [ReplySetArrayLength (length body)]).
Proof.
  unfold serialize_row.
  destruct (return_attributes parameters)
    as [|return_attribute attrs] eqn:Hattrs.
  - destruct (value n) as [contents| | |]; simpl; try done.
    intros [= <-].
    exists (ReplyScore (score_as parameters) n
            ++ flat_map (fun e => [ReplyWithString e.1; ReplyWithString e.2])
                 contents).
    split.
    + apply Forall_app. split; [by repeat constructor|].
      induction contents; simpl; by repeat constructor.
    + left. do 2 f_equal. simpl. do 3 f_equal.
      induction contents as [|e contents IH]; simpl; [done|]. lia.
  - destruct (reply_return_attributes _ _ _)
      as [[sent cnt]| | |] eqn:Hsent; simpl; try done.
    intros [= <-].
    apply reply_return_attributes_counts in Hsent as (Hlen & _ & Hbulk).
    exists sent. split; [done|]. right. by rewrite Hlen.
Qed.

Lemma serialize_row_elements parameters n row :
  serialize_row parameters n = Done row ->
  elements 2 (reply_shape <$> row).
Proof.
  intros Hrow.
  destruct (serialize_row_shape _ _ _ Hrow) as (body & Hbody & [->| ->]).
  - rewrite !fmap_cons. apply elements_cons; [apply elements_bulk|].
    apply elements_array. rewrite <- (length_fmap reply_shape).
    by apply elements_bulks, is_bulk_shape.
  - rewrite !fmap_cons, fmap_app. apply elements_cons; [apply elements_bulk|].
    apply elements_postponed. rewrite <- (length_fmap reply_shape).
    by apply elements_bulks, is_bulk_shape.
Qed.

(** The rows that the loop over the window sends. *)
Lemma for_each_index_elements (m : nat)
    (body : nat -> Outcome (list Reply)) :
  (forall i r, body i = Done r -> elements m (reply_shape <$> r)) ->
  forall count i rows,
  for_each_index i count body = Done rows ->
  elements (count * m) (reply_shape <$> rows).
Proof.
  intros Hbody. induction count as [|count IH]; intros i rows; simpl.
  { by intros [= <-]. }
  destruct (body i) as [r| | |] eqn:Hr; simpl; try done.
  destruct (for_each_index (S i) count body) as [rest| | |] eqn:Hrest;
    simpl; try done.
  intros [= <-]. rewrite fmap_app.
  apply elements_app; [by eapply Hbody|by eapply IH].
Qed.

Lemma at_index_row_done neighbors (row : Neighbor -> Outcome (list Reply))
    i r :
  (n ← at_index neighbors i; row n) = Done r ->
  exists n, row n = Done r.
Proof.
  unfold at_index. destruct (neighbors !! i) as [n|]; simpl; [|done].
  by exists n.
Qed.

End ReplyFrames.

(** X16.  Every reply that [SendReply] completes is one well-framed
    value: each array, announced or postponed, holds exactly as many
    values as its length says, for the count-only reply, the keys-only
    reply, the reply with content and the error reply alike. *)
Theorem SendReply_is_well_framed
    (GetIdentifier : StatusOr string)
    (ProcessNeighborsForReply : list Neighbor -> list Neighbor)
    (neighbors : list Neighbor)
    (parameters : FtSearch.VectorSearchParameters)
    (replies : list FtSearch.Reply) :
  FtSearch.SendReply GetIdentifier ProcessNeighborsForReply neighbors
    parameters
  = FtSearch.Done replies ->
  Resp.frames (reply_shape <$> replies) = Some 1.
Proof.
  unfold FtSearch.SendReply. intros Hreply.
  apply RespProps.elements_frames.
  destruct (_ || _).
  { injection Hreply as <-. by intros [top stack]. }
  destruct (FtSearch.no_content parameters).
  - unfold FtSearch.SendReplyNoContent in Hreply.
    destruct (FtSearch.CalcStartIndex neighbors parameters)
      as [start_index| | |]; simpl in Hreply; try done.
    destruct (FtSearch.for_each_index _ _ _) as [rows| | |] eqn:Hrows;
      simpl in Hreply; try done.
    injection Hreply as <-.
    apply (for_each_index_elements 1) in Hrows.
    2:{ intros i r Hr. apply at_index_row_done in Hr as [n [= <-]].
        apply RespProps.elements_bulk. }
    rewrite fmap_cons. apply RespProps.elements_array.
    rewrite Nat.add_comm. simpl.
    apply RespProps.elements_cons; [apply RespProps.elements_bulk|].
    by rewrite Nat.mul_1_r in Hrows.
  - destruct GetIdentifier as [identifier|c m].
    2:{ injection Hreply as <-. by intros [top stack]. }
    unfold FtSearch.SerializeNeighbors in Hreply.
    destruct (_ <? _); [|done].
    destruct (FtSearch.CalcStartIndex _ parameters)
      as [start_index| | |]; simpl in Hreply; try done.
    destruct (FtSearch.for_each_index _ _ _) as [rows| | |] eqn:Hrows;
      simpl in Hreply; try done.
    injection Hreply as <-.
    apply (for_each_index_elements 2) in Hrows.
    2:{ intros i r Hr. apply at_index_row_done in Hr as [n Hr].
        by eapply serialize_row_elements. }
    rewrite fmap_cons. apply RespProps.elements_array.
    rewrite Nat.add_comm. cbn [Nat.add].
    apply RespProps.elements_cons; [apply RespProps.elements_bulk|].
    by rewrite Nat.mul_comm in Hrows.
Qed.

(** [SendReply_is_well_framed] on the reply with content for three neighbors,
    KNN 10 and LIMIT 1 2. *)
Lemma SendReply_is_well_framed_witness :
  Resp.frames
    (reply_shape
       <$> [FtSearch.ReplyWithArray 5; FtSearch.ReplyWithLongLong 3;
            FtSearch.ReplyWithString "b"; FtSearch.ReplyWithArray 2;
            FtSearch.ReplyWithString "score";
            FtSearch.ReplyWithFormattedScore 2;
            FtSearch.ReplyWithString "c"; FtSearch.ReplyWithArray 2;
            FtSearch.ReplyWithString "score";
            FtSearch.ReplyWithFormattedScore 3])
  = Some 1.
Proof.
  apply (SendReply_is_well_framed (Ok "vec"%string) id
           ReplyExamples.three_neighbors (WindowExamples.limit_1_2 false)).
  vm_compute. reflexivity.
Defined.

Lemma RespondWithInfoImpl_elements (data_type_name algorithm_name : string)
    (flat : VectorFlat) :
  RespProps.elements
    (Info.RespondWithInfoImpl data_type_name algorithm_name flat).2
    (Info.shape
       <$> (Info.RespondWithInfoImpl data_type_name algorithm_name flat).1).
Proof.
  simpl.
  do 3 (apply RespProps.elements_cons; [apply RespProps.elements_bulk|]).
  apply RespProps.elements_array.
  do 4 (apply RespProps.elements_cons; [apply RespProps.elements_bulk|]).
  apply RespProps.elements_nil.
Qed.

(** X17.  The info reply of a vector index is well framed whenever the
    part of the index's own is: if [_RespondWithInfo] sends as many values
    as it returns, then the length that [RespondWithInfo] sets for its
    postponed array, 8 plus that number, is the number of values sent into
    the array, and the 4 it returns is the number of values it sends at
    the top level.  [RespondWithInfoImpl] of the flat index sends the 4
    values it returns. *)
Theorem RespondWithInfo_is_well_framed
    {K : Type} (GetCapacity : K -> N)
    (_RespondWithInfo : K -> list Info.Reply * nat)
    (distance_metric_name : string) (v : VectorBase K) :
  RespProps.elements (_RespondWithInfo (impl_ v)).2
    (Info.shape <$> (_RespondWithInfo (impl_ v)).1) ->
  let r :=
    Info.RespondWithInfo GetCapacity _RespondWithInfo distance_metric_name v in
  Resp.frames (Info.shape <$> r.1) = Some r.2 /\ r.2 = 4.
Proof.
  intros Himpl r. subst r. unfold Info.RespondWithInfo.
  destruct (_RespondWithInfo (impl_ v)) as [impl_replies impl_len].
  simpl in Himpl. split; [|done].
  apply RespProps.elements_frames. cbn [fst snd].
  rewrite !fmap_app.
  do 3 (apply RespProps.elements_cons; [apply RespProps.elements_bulk|]).
  apply (RespProps.elements_postponed (8 + impl_len)
           (replicate 8 Resp.Bulk ++ (Info.shape <$> impl_replies))).
  apply (RespProps.elements_app 8 impl_len); [|done].
  apply (RespProps.elements_bulks (replicate 8 Resp.Bulk)).
  by repeat constructor.
Qed.

(** [RespondWithInfo_is_well_framed] on the flat example index. *)
Lemma RespondWithInfo_is_well_framed_witness :
  let r :=
    Info.RespondWithInfo Flat.GetCapacity
      (Info.RespondWithInfoImpl "FLOAT32" "FLAT") "L2"
      Examples.history_result in
  Resp.frames (Info.shape <$> r.1) = Some r.2 /\ r.2 = 4.
Proof.
  apply (RespondWithInfo_is_well_framed Flat.GetCapacity
           (Info.RespondWithInfoImpl "FLOAT32" "FLAT") "L2"
           Examples.history_result).
  apply RespondWithInfoImpl_elements.
Defined.

(** ** The flat index and its kernel *)

Section FlatKernel.
Context `{!BruteforceKernel} `{!Embedding}.

Lemma with_algo_same (flat : VectorFlat) :
  Flat.with_algo flat (algo_ flat) = flat.
Proof. by destruct flat. Qed.

End FlatKernel.

(** X18.  A flat index that is full and has block size 0 cannot take
    another record: when the kernel rejects the point for the limit and
    a resize to the present capacity changes nothing, [ResizeIfFull]
    leaves the index as it is and the loop of [AddRecordImpl] does not
    end, however many rounds it is given. *)
Theorem AddRecordImpl_cannot_grow_by_zero
    `{!BruteforceKernel} (flat : VectorFlat) (internal_id : N)
    (record what : string) :
  block_size_ flat = 0%N ->
  cur_element_count_ (algo_ flat) = maxelements_ (algo_ flat) ->
  (maxelements_ (algo_ flat) < uint64_modulus)%N ->
  addPoint (algo_ flat) record internal_id = Throws what ->
  StrContains what "The number of elements exceeds the specified limit"
  = true ->
  resizeIndex (algo_ flat) (maxelements_ (algo_ flat)) = algo_ flat ->
  (Flat.ResizeIfFull flat = (OkStatus, flat))
  /\ forall rounds,
       Flat.AddRecordImpl rounds flat internal_id record = None.
Proof.
  intros Hblock Hfull Hsmall Hadd Hlimit Hresize.
  assert (Flat.ResizeIfFull flat = (OkStatus, flat)) as Hsame.
  { unfold Flat.ResizeIfFull, Flat.GetCapacity. rewrite Hfull, Hblock.
    rewrite N.ltb_irrefl, N.eqb_refl. unfold uint64_add.
    rewrite N.add_0_r, N.mod_small by done.
    by rewrite Hresize, with_algo_same. }
  split; [done|].
  induction rounds as [|rounds IH]; simpl; [done|].
  by rewrite Hadd, Hlimit, Hsame.
Qed.

(** [AddRecordImpl_cannot_grow_by_zero] on an index of capacity 0 and block
    size 0 over the example kernel. *)
Lemma AddRecordImpl_cannot_grow_by_zero_witness :
  let flat := mkVectorFlat 0 (ScanKernel.init 0) ∅ in
  (Flat.ResizeIfFull flat = (OkStatus, flat))
  /\ forall rounds, Flat.AddRecordImpl rounds flat 0 "AAAA" = None.
Proof.
  apply (AddRecordImpl_cannot_grow_by_zero
           (mkVectorFlat 0 (ScanKernel.init 0) ∅) 0 "AAAA"
           "The number of elements exceeds the specified limit");
    vm_compute; reflexivity.
Defined.

(** X19.  [ModifyRecord] of the flat index, given bytes of the right size
    for a non-empty tracked key whose id the kernel does not hold, is an
    [Internal] error naming the id; the key is taken out of the key map
    and its id out of the id map, the tracked vector is dropped, and the
    kernel is left as it was. *)
Theorem ModifyRecord_flat_unknown_id
    `{!BruteforceKernel} `{!Embedding} (rounds : nat)
    (v : VectorBase VectorFlat) (key record : string)
    (md : TrackedKeyMetadata) :
  key <> ""%string ->
  tracked_metadata_by_key_ v !! key = Some md ->
  dict_external_to_internal (algo_ (impl_ v)) !! internal_id md = None ->
  N.of_nat (String.length record) = (dimensions_ v * 4)%N ->
  let r := ModifyRecord (VectorImpl0 := Flat.impl rounds) v key record in
  r.1 = Error kInternal
          ("Couldn't find internal id: " ++ N_to_string (internal_id md))
  /\ IsTracked r.2 key = false
  /\ tracked_metadata_by_key_ r.2 = delete key (tracked_metadata_by_key_ v)
  /\ key_by_internal_id_ r.2
     = delete (internal_id md) (key_by_internal_id_ v)
  /\ algo_ (impl_ r.2) = algo_ (impl_ v)
  /\ tracked_vectors_ (impl_ r.2)
     = delete (internal_id md) (tracked_vectors_ (impl_ v)).
Proof.
  intros Hne Hkey Hslot Hsize r. subst r.
  destruct (InternVector_right_size v record Hsize)
    as (interned & magnitude & Hintern).
  rewrite (ModifyRecord_flat_unfold rounds v key record interned magnitude md)
    by done.
  rewrite (UpdateMetadata_tracked v key interned _ md) by done. simpl.
  unfold Flat.ModifyRecordImpl. simpl. rewrite Hslot. simpl.
  unfold UnTrackKey. apply String.eqb_neq in Hne. rewrite Hne. simpl.
  rewrite lookup_insert_eq. simpl.
  destruct (key_by_internal_id_ v !! internal_id md) eqn:Hid; simpl;
    unfold IsTracked; simpl; rewrite delete_insert_eq;
    (split; [done|]);
    (split; [apply bool_decide_eq_false; rewrite lookup_delete_eq;
             by intros [? ?]|]);
    (split; [done|]);
    (split; [first [done|by rewrite (delete_id (key_by_internal_id_ v))]|]);
    (split; [done|]); by rewrite delete_insert_eq.
Qed.

(** [ModifyRecord_flat_unknown_id] on an index loaded with key "a" under
    id 1 over an empty kernel. *)
Lemma ModifyRecord_flat_unknown_id_witness :
  let v : VectorBase VectorFlat :=
    (originate 1 false (Examples.flat 2)
       (LoadedTrackedKeys [Examples.tracked "a" 1])).2 in
  let r := ModifyRecord v "a" "AAAA" in
  r.1 = Error kInternal "Couldn't find internal id: 1"
  /\ IsTracked r.2 "a" = false
  /\ tracked_metadata_by_key_ r.2 = delete "a" (tracked_metadata_by_key_ v)
  /\ key_by_internal_id_ r.2 = delete 1%N (key_by_internal_id_ v)
  /\ algo_ (impl_ r.2) = algo_ (impl_ v)
  /\ tracked_vectors_ (impl_ r.2) = delete 1%N (tracked_vectors_ (impl_ v)).
Proof.
  apply (ModifyRecord_flat_unknown_id 3
           (originate 1 false (Examples.flat 2)
              (LoadedTrackedKeys [Examples.tracked "a" 1])).2
           "a" "AAAA"
           {| internal_id := 1; magnitude := kDefaultMagnitude |});
    try (vm_compute; reflexivity).
  discriminate.
Defined.

(** ** The ordered map of the numeric index *)

(** X20.  In every state of the numeric index reached by adding,
    modifying and removing tracked pairs, a key is in the set stored at a
    value exactly when that is the value tracked for the key, and no
    entry of the ordered map holds an empty set. *)
Theorem btree_holds_the_tracked_pairs
    (idx : Numeric.BTreeNumericIndex) (tracked : gmap string Z) :
  Numeric.reachable idx tracked ->
  (forall key value,
      key ∈ Numeric.at_key (Numeric.btree_ idx) value
      <-> tracked !! key = Some value)
  /\ (forall value s, Numeric.btree_ idx !! value = Some s -> s <> ∅).
Proof.
  intros Hreach.
  destruct (NumericProps.reachable_consistent _ _ Hreach)
    as (Htrack & Hfull & _).
  done.
Qed.

(** [btree_holds_the_tracked_pairs] on the example index. *)
Lemma btree_holds_the_tracked_pairs_witness :
  (forall key value,
      key ∈ Numeric.at_key (Numeric.btree_ NumericExamples.prices) value
      <-> NumericExamples.prices_tracked !! key = Some value)
  /\ (forall value s,
        Numeric.btree_ NumericExamples.prices !! value = Some s -> s <> ∅).
Proof.
  apply (btree_holds_the_tracked_pairs NumericExamples.prices
           NumericExamples.prices_tracked).
  exact prices_reachable.
Defined.

(** X21.  Two calls of [Add] commute: the index does not depend on the
    order in which two pairs are added, also when they share the
    value. *)
Theorem Add_commutes
    (idx : Numeric.BTreeNumericIndex) (key key' : string) (value value' : Z) :
  Numeric.Add key value (Numeric.Add key' value' idx)
  = Numeric.Add key' value' (Numeric.Add key value idx).
Proof.
  unfold Numeric.Add. simpl. f_equal.
  - destruct (decide (value = value')) as [->|Hne].
    + unfold Numeric.at_key. rewrite !lookup_insert_eq. simpl.
      rewrite !insert_insert_eq. f_equal.
      by rewrite !(assoc_L (∪)), (comm_L (∪) {[key]}).
    + unfold Numeric.at_key.
      rewrite !lookup_insert_ne by done.
      by apply insert_insert_ne.
  - unfold Numeric.SegmentTree.Add. multiset_solver.
Qed.

(** X22.  [Remove] of a pair that the ordered map does not hold leaves
    the ordered map as it was (the entry that [btree_[key]] creates is
    erased again), given that no entry held an empty set. *)
Theorem Remove_absent_pair
    (idx : Numeric.BTreeNumericIndex) (key : string) (value : Z) :
  (forall value s, Numeric.btree_ idx !! value = Some s -> s <> ∅) ->
  key ∉ Numeric.at_key (Numeric.btree_ idx) value ->
  Numeric.btree_ (Numeric.Remove key value idx) = Numeric.btree_ idx.
Proof.
  intros Hfull Hkey.
  rewrite NumericProps.btree_Remove, NumericProps.removed_btree_cases.
  assert (Numeric.at_key (Numeric.btree_ idx) value ∖ {[key]}
          = Numeric.at_key (Numeric.btree_ idx) value) as ->.
  { apply set_eq. intros x. rewrite elem_of_difference, elem_of_singleton.
    split; [by intros [? _]|]. intros Hx. split; [done|]. by intros ->. }
  unfold Numeric.at_key.
  destruct (Numeric.btree_ idx !! value) as [s|] eqn:Hs; simpl.
  - rewrite decide_False by by eapply Hfull. by apply insert_id.
  - rewrite decide_True by done. by apply delete_id.
Qed.

(** [Remove_absent_pair] on the example index and a key it does not hold. *)
Lemma Remove_absent_pair_witness :
  Numeric.btree_ (Numeric.Remove "k9" 30 NumericExamples.prices)
  = Numeric.btree_ NumericExamples.prices.
Proof.
  apply (Remove_absent_pair NumericExamples.prices "k9" 30).
  - apply (NumericProps.reachable_consistent _ _ prices_reachable).
  - apply (bool_decide_unpack _). vm_compute. exact I.
Defined.

(** X23.  In a reachable state, [Modify] of a tracked key from its value
    to the same value gives back the state itself. *)
Theorem Modify_to_the_same_value
    (idx : Numeric.BTreeNumericIndex) (tracked : gmap string Z)
    (key : string) (value : Z) :
  Numeric.reachable idx tracked ->
  tracked !! key = Some value ->
  Numeric.Modify key value value idx = idx.
Proof.
  intros Hreach Hkey.
  destruct (NumericProps.reachable_consistent _ _ Hreach)
    as (Htrack & Hfull & Htotal).
  assert (key ∈ Numeric.at_key (Numeric.btree_ idx) value) as Hin
    by by apply Htrack.
  assert (value ∈ Numeric.segment_tree_ idx) as Hvalue.
  { apply NumericProps.value_total_elem_of. rewrite <- Htotal.
    rewrite (NumericProps.bucket_total_Remove _ _ key value Hin).
    unfold NumericProps.value_weight, Numeric.in_range.
    rewrite !Z.leb_refl. simpl. lia. }
  unfold Numeric.Modify.
  assert (Numeric.btree_ (Numeric.Add key value (Numeric.Remove key value idx))
          = Numeric.btree_ idx) as Hb.
  { cbn [Numeric.Add Numeric.btree_].
    rewrite NumericProps.btree_Remove, NumericProps.at_key_Remove.
    rewrite decide_True by done.
    assert ({[key]} ∪ Numeric.at_key (Numeric.btree_ idx) value ∖ {[key]}
            = Numeric.at_key (Numeric.btree_ idx) value) as ->.
    { apply set_eq. intros x.
      rewrite elem_of_union, elem_of_difference, elem_of_singleton.
      split; [by intros [->|[? _]]|].
      intros Hx. destruct (decide (x = key)); [by left|by right]. }
    rewrite NumericProps.removed_btree_cases.
    unfold Numeric.at_key in Hin |- *.
    destruct (Numeric.btree_ idx !! value) as [s|] eqn:Hs; simpl in *.
    2:{ by apply not_elem_of_empty in Hin. }
    case_decide.
    - rewrite insert_delete_eq. by apply insert_id.
    - rewrite insert_insert_eq. by apply insert_id. }
  assert (Numeric.segment_tree_
            (Numeric.Add key value (Numeric.Remove key value idx))
          = Numeric.segment_tree_ idx) as Hs.
  { cbn [Numeric.Add Numeric.Remove Numeric.segment_tree_].
    unfold Numeric.SegmentTree.Add, Numeric.SegmentTree.Remove.
    rewrite (comm_L (⊎)).
    symmetry. by apply gmultiset_disj_union_difference'. }
  destruct (Numeric.Add key value (Numeric.Remove key value idx)), idx.
  simpl in *. congruence.
Qed.

(** [Modify_to_the_same_value] on key "k2" of the example index. *)
Lemma Modify_to_the_same_value_witness :
  Numeric.Modify "k2" 30 30 NumericExamples.prices = NumericExamples.prices.
Proof.
  apply (Modify_to_the_same_value NumericExamples.prices
           NumericExamples.prices_tracked "k2" 30).
  - exact prices_reachable.
  - vm_compute. reflexivity.
Defined.

(** ** Vectors written as text *)

Section Brackets.

#[local] Abbreviation open_bracket := ("["%char).
#[local] Abbreviation close_bracket := ("]"%char).

Lemma ConsumePrefix_bracket (input : string_view) :
  ConsumePrefix input [open_bracket]
  = match input with
    | c :: rest =>
        if decide (c = open_bracket) then (true, rest) else (false, input)
    | [] => (false, input)
    end.
Proof.
  unfold ConsumePrefix. destruct input as [|c rest].
  - rewrite bool_decide_eq_false_2; [done|].
    intros [k Hk]. by destruct k.
  - destruct (decide (c = open_bracket)) as [->|Hne].
    + rewrite bool_decide_eq_true_2; [done|]. by exists rest.
    + rewrite bool_decide_eq_false_2; [done|].
      intros [k Hk]. injection Hk as Hc _. done.
Qed.

Lemma ConsumeSuffix_bracket (input : string_view) :
  (exists rest, input = rest ++ [close_bracket]
                /\ (ConsumeSuffix input [close_bracket]).2 = rest)
  \/ (last input <> Some close_bracket
      /\ (ConsumeSuffix input [close_bracket]).2 = input).
Proof.
  unfold ConsumeSuffix. case_bool_decide as Hsuffix.
  - left. destruct Hsuffix as [rest ->]. exists rest. split; [done|].
    simpl. rewrite length_app. simpl.
    replace (length rest + 1 - 1) with (length rest) by lia.
    by rewrite take_app_length.
  - right. split; [|done]. intros Hlast. apply Hsuffix.
    apply last_Some in Hlast as [rest ->]. by exists rest.
Qed.

Lemma ConsumeSuffix_length (input : string_view) :
  length (ConsumeSuffix input [close_bracket]).2 <= length input.
Proof.
  destruct (ConsumeSuffix_bracket input) as [(rest & -> & ->)|[_ ->]];
    [|done].
  rewrite length_app. lia.
Qed.

(** With enough calls allowed, the result has no bracket at its front. *)
Lemma TrimBrackets_rec_head depth : forall input,
  length input < depth ->
  head (TrimBrackets_rec depth input) <> Some open_bracket.
Proof.
  induction depth as [|depth IH]; intros input Hdepth; [lia|].
  cbn [TrimBrackets_rec]. rewrite ConsumePrefix_bracket.
  destruct input as [|c rest]; [done|].
  destruct (decide (c = open_bracket)) as [->|Hne].
  - apply IH. pose proof (ConsumeSuffix_length rest). simpl in Hdepth. lia.
  - simpl. by intros [= ->].
Qed.

Lemma TrimBrackets_rec_no_bracket depth input :
  head input <> Some open_bracket ->
  TrimBrackets_rec depth input = input.
Proof.
  intros Hhead. destruct depth as [|depth]; [done|].
  cbn [TrimBrackets_rec]. rewrite ConsumePrefix_bracket.
  destruct input as [|c rest]; [done|].
  destruct (decide (c = open_bracket)) as [->|Hne]; done.
Qed.

(** The result does not depend on the number of calls allowed beyond the
    length of the view. *)
Lemma TrimBrackets_rec_enough depth : forall depth' input,
  length input < depth -> length input < depth' ->
  TrimBrackets_rec depth input = TrimBrackets_rec depth' input.
Proof.
  induction depth as [|depth IH]; intros depth' input Hd Hd'; [lia|].
  destruct depth' as [|depth']; [lia|].
  cbn [TrimBrackets_rec]. rewrite ConsumePrefix_bracket.
  destruct input as [|c rest]; [done|].
  destruct (decide (c = open_bracket)) as [->|Hne]; [|done].
  pose proof (ConsumeSuffix_length rest). simpl in Hd, Hd'.
  apply IH; lia.
Qed.

(** What is taken off: brackets at the front, and no more closing
    brackets at the back than that. *)
Lemma TrimBrackets_rec_strips depth : forall input,
  exists n m,
    m <= n
    /\ input = replicate n "["%char ++ TrimBrackets_rec depth input
               ++ replicate m close_bracket.
Proof.
  induction depth as [|depth IH]; intros input.
  { exists 0, 0. split; [done|]. simpl. by rewrite app_nil_r. }
  cbn [TrimBrackets_rec]. rewrite ConsumePrefix_bracket.
  destruct input as [|c rest].
  { exists 0, 0. done. }
  destruct (decide (c = open_bracket)) as [->|Hne].
  2:{ exists 0, 0. split; [done|]. simpl. by rewrite app_nil_r. }
  destruct (ConsumeSuffix_bracket rest) as [(rest' & -> & ->)|[_ ->]].
  - destruct (IH rest') as (n & m & Hle & Hrest).
    exists (S n), (S m). split; [lia|].
    rewrite (replicate_S_end m), Hrest at 1.
    cbn [replicate app]. f_equal. by rewrite <- !app_assoc.
  - destruct (IH rest) as (n & m & Hle & Hrest).
    exists (S n), m. split; [lia|]. simpl. by f_equal.
Qed.

Lemma TrimBrackets_rec_balanced (input : string_view) :
  head input <> Some open_bracket ->
  last input <> Some close_bracket ->
  forall n depth,
  n < depth ->
  TrimBrackets_rec depth
    (replicate n "["%char ++ input ++ replicate n "]"%char)
  = input.
Proof.
  intros Hhead Hlast.
  induction n as [|n IH]; intros depth Hdepth.
  { simpl. rewrite app_nil_r. by apply TrimBrackets_rec_no_bracket. }
  destruct depth as [|depth]; [lia|].
  rewrite (replicate_S n "["%char), (replicate_S_end n "]"%char).
  cbn [TrimBrackets_rec app]. rewrite ConsumePrefix_bracket.
  rewrite decide_True by done.
  destruct (ConsumeSuffix_bracket
              (replicate n "["%char ++ input
               ++ replicate n "]"%char ++ ["]"%char]))
    as [(rest & Hrest & ->)|[Hno _]].
  - rewrite !app_assoc in Hrest.
    apply app_inj_tail in Hrest as [<- _].
    rewrite <- app_assoc. apply IH. lia.
  - exfalso. apply Hno. rewrite !app_assoc. apply last_snoc.
Qed.

End Brackets.

(** X24.  The result of [TrimBrackets] does not start with an opening
    bracket, trimming it again changes nothing, and the input is the
    result with [n] opening brackets in front and [m <= n] closing
    brackets behind. *)
Theorem TrimBrackets_strips_the_front (input : string_view) :
  head (TrimBrackets input) <> Some "["%char
  /\ TrimBrackets (TrimBrackets input) = TrimBrackets input
  /\ exists n m,
       m <= n
       /\ input = replicate n "["%char ++ TrimBrackets input
                  ++ replicate m "]"%char.
Proof.
  unfold TrimBrackets at 1 3 4.
  split; [apply TrimBrackets_rec_head; lia|].
  split; [|apply TrimBrackets_rec_strips].
  unfold TrimBrackets. apply TrimBrackets_rec_no_bracket.
  apply TrimBrackets_rec_head. lia.
Qed.

(** X25.  [TrimBrackets] takes [n] pairs of brackets off a text that
    neither starts with an opening bracket nor ends with a closing
    one. *)
Theorem TrimBrackets_balanced (n : nat) (input : string_view) :
  head input <> Some "["%char ->
  last input <> Some "]"%char ->
  TrimBrackets (replicate n "["%char ++ input ++ replicate n "]"%char)
  = input.
Proof.
  intros Hhead Hlast. unfold TrimBrackets.
  apply TrimBrackets_rec_balanced; [done|done|].
  rewrite length_app, length_replicate. lia.
Qed.

(** [TrimBrackets_balanced] on a list in two pairs of brackets. *)
Lemma TrimBrackets_balanced_witness :
  TrimBrackets (TextExamples.view "[[1,2]]") = TextExamples.view "1,2".
Proof.
  apply (TrimBrackets_balanced 2 (TextExamples.view "1,2")); discriminate.
Defined.

(** ** Text to bytes *)

Section TextToBytes.
Context `{!VectorDataType}.
Variables (SimpleAtof : string_view -> option float)
          (float_bytes : float -> string_view).
Hypothesis sizeof_float : forall f, length (float_bytes f) = 4.

Lemma append_floats_length float_strings : forall binary_string bytes,
  append_floats SimpleAtof float_bytes float_strings binary_string
  = Some bytes ->
  length bytes = length binary_string + 4 * length float_strings.
Proof.
  induction float_strings as [|float_str rest IH];
    intros binary_string bytes; simpl.
  { intros [= <-]. lia. }
  destruct (SimpleAtof float_str) as [value|]; [|done].
  intros Hrest. apply IH in Hrest.
  rewrite length_app, sizeof_float in Hrest. lia.
Qed.

Lemma append_floats_None float_strings : forall binary_string,
  append_floats SimpleAtof float_bytes float_strings binary_string = None
  <-> Exists (fun float_str => SimpleAtof float_str = None) float_strings.
Proof.
  induction float_strings as [|float_str rest IH]; intros binary_string;
    simpl.
  { split; [done|]. by intros ?%Exists_nil. }
  rewrite Exists_cons.
  destruct (SimpleAtof float_str) as [value|] eqn:Hvalue.
  - rewrite IH. split; [by right|]. by intros [?|?].
  - split; [by left|done].
Qed.

End TextToBytes.

(** X26.  [NormalizeStringRecord] of a float32 index returns null exactly
    when one of the non-blank comma-separated fields of the trimmed input
    does not parse as a float, and otherwise four bytes for each such
    field. *)
Theorem NormalizeStringRecord_bytes
    (SimpleAtof : string_view -> option float)
    (float_bytes : float -> string_view) (input : string_view) :
  (forall f, length (float_bytes f) = 4) ->
  let float_strings :=
    List.filter SkipWhitespace (StrSplit (TrimBrackets input) ","%char) in
  exists result,
    NormalizeStringRecord SimpleAtof float_bytes input = FtSearch.Done result
    /\ (result = None
        <-> Exists (fun float_str => SimpleAtof float_str = None)
              float_strings)
    /\ (forall bytes, result = Some bytes ->
                      length bytes = 4 * length float_strings).
Proof.
  intros Hsize float_strings. unfold NormalizeStringRecord. simpl.
  eexists. split; [done|]. split.
  - apply append_floats_None.
  - intros bytes Hbytes.
    by apply (append_floats_length _ _ Hsize) in Hbytes.
Qed.

(** [NormalizeStringRecord_bytes] on a list of three numbers and a blank
    field. *)
Lemma NormalizeStringRecord_bytes_witness :
  exists result,
    NormalizeStringRecord TextExamples.digit_Atof TextExamples.four_bytes
      (TextExamples.view "[1,2, ,0]")
    = FtSearch.Done result
    /\ (result = None
        <-> Exists (fun float_str => TextExamples.digit_Atof float_str = None)
              [TextExamples.view "1"; TextExamples.view "2";
               TextExamples.view "0"])
    /\ (forall bytes, result = Some bytes -> length bytes = 4 * 3).
Proof.
  apply (NormalizeStringRecord_bytes TextExamples.digit_Atof
           TextExamples.four_bytes (TextExamples.view "[1,2, ,0]")).
  intros f. unfold TextExamples.four_bytes.
  by destruct (PrimFloat.eqb f 0), (PrimFloat.eqb f 1).
Defined.

(** ** The file streams of the kernel *)

Module FileStreamProps.
Import FileStream.

Lemma of_bytes_to_bytes (n : nat) : forall x : N,
  (x < 256 ^ N.of_nat n)%N -> of_bytes (to_bytes n x) = x.
Proof.
  induction n as [|n IH]; intros x Hx.
  { simpl in *. lia. }
  cbn [to_bytes of_bytes].
  rewrite N_ascii_embedding by (apply N.mod_lt; lia).
  rewrite IH.
  - rewrite (N.div_mod x 256) at 3 by lia. lia.
  - rewrite Nat2N.inj_succ, N.pow_succ_r' in Hx.
    apply N.Div0.div_lt_upper_bound. lia.
Qed.

Lemma length_to_bytes (n : nat) : forall x, length (to_bytes n x) = n.
Proof. induction n as [|n IH]; intros x; simpl; [done|]. by rewrite IH. Qed.

Lemma length_representation T val :
  length (representation T val) = sizeof T.
Proof. apply length_to_bytes. Qed.

Lemma unsigned_round_trip (n : nat) (val : Z) :
  (0 <= val < 2 ^ (8 * Z.of_nat n))%Z ->
  Z.of_N (of_bytes (to_bytes n (Z.to_N (val mod 2 ^ (8 * Z.of_nat n)))))
  = val.
Proof.
  intros Hval. rewrite Z.mod_small by done.
  rewrite of_bytes_to_bytes; [lia|].
  apply N2Z.inj_lt. rewrite Z2N.id by lia.
  rewrite N2Z.inj_pow, nat_N_Z.
  replace (Z.of_N 256) with (2 ^ 8)%Z by done.
  rewrite <- Z.pow_mul_r by lia. lia.
Qed.

Lemma value_of_representation T val :
  in_range T val -> value_of T (representation T val) = val.
Proof.
  unfold in_range, value_of, representation.
  destruct T; try apply unsigned_round_trip.
  intros Hval. cbn [sizeof].
  assert (forall u, (0 <= u < 2 ^ 32)%Z ->
            Z.of_N (of_bytes (to_bytes 4 (Z.to_N u))) = u) as Hu.
  { intros u Hrange. rewrite <- (unsigned_round_trip 4 u) at 2 by done.
    by rewrite Z.mod_small. }
  change (2 ^ (8 * Z.of_nat 4))%Z with (2 ^ 32)%Z.
  destruct (Z.ltb_spec val 0) as [Hneg|Hpos].
  - replace (val mod 2 ^ 32)%Z with (val + 2 ^ 32)%Z.
    2:{ apply Z.mod_unique with (q := (-1)%Z); lia. }
    rewrite Hu by lia.
    destruct (Z.ltb_spec (val + 2 ^ 32) (2 ^ 31)); lia.
  - rewrite (Z.mod_small val) by lia. rewrite Hu by lia.
    destruct (Z.ltb_spec val (2 ^ 31)); lia.
Qed.

Lemma read_written (bytes rest : string_view) :
  read (mk_ifstream (bytes ++ rest) false) (length bytes)
  = (bytes, mk_ifstream rest false).
Proof.
  unfold read. simpl.
  rewrite (leb_correct (length bytes)) by (rewrite length_app; lia).
  by rewrite take_app_length, drop_app_length.
Qed.

(** The bytes that [save] writes for an item. *)
Definition bytes_of (item : Item) : string_view :=
  match item with
  | Pod T val => representation T val
  | Buffer str => str
  end.

Lemma save_writes item (bytes : string_view) :
  save item (mk_ofstream bytes false)
  = (OkStatus, mk_ofstream (bytes ++ bytes_of item) false).
Proof.
  destruct item as [T val|str]; simpl; [done|].
  unfold saveStringBuffer, write. simpl. by rewrite firstn_all.
Qed.

Lemma load_reads item (rest : string_view) :
  well_typed item ->
  load (shape_of item) (mk_ifstream (bytes_of item ++ rest) false)
  = (Ok item, mk_ifstream rest false).
Proof.
  destruct item as [T val|str]; simpl; intros Htyped.
  - unfold loadPOD. rewrite <- (length_representation T val), read_written.
    simpl. by rewrite value_of_representation.
  - unfold loadStringBuffer. by rewrite read_written.
Qed.

Lemma save_all_writes items : forall bytes,
  save_all items (mk_ofstream bytes false)
  = (OkStatus, mk_ofstream (bytes ++ concat (bytes_of <$> items)) false).
Proof.
  induction items as [|item items IH]; intros bytes.
  { simpl. by rewrite app_nil_r. }
  rewrite fmap_cons. cbn [save_all concat].
  rewrite save_writes, IH. by rewrite <- app_assoc.
Qed.

Lemma load_all_reads items (rest : string_view) :
  Forall well_typed items ->
  load_all (shape_of <$> items)
    (mk_ifstream (concat (bytes_of <$> items) ++ rest) false)
  = (Ok items, mk_ifstream rest false).
Proof.
  induction 1 as [|item items Htyped _ IH]; [done|].
  rewrite !fmap_cons. cbn [load_all concat].
  rewrite <- app_assoc, load_reads by done. by rewrite IH.
Qed.

Lemma load_failed shape (input : ifstream) :
  in_failed input = true ->
  exists m, load shape input = (Error kInternal m, input).
Proof.
  intros Hfailed. destruct shape as [T|len]; simpl.
  - unfold loadPOD, read. rewrite Hfailed. simpl. rewrite Hfailed. simpl.
    by eexists.
  - unfold loadStringBuffer, read. rewrite Hfailed. simpl.
    rewrite Hfailed. simpl. by eexists.
Qed.

End FileStreamProps.

(** X27.  Values and buffers saved one after the other to a new output
    stream, each value within the range of its type, are written without
    error, and loading the same types and lengths from the bytes written
    gives back the items and leaves what follows them unread. *)
Theorem saved_items_load_back
    (items : list FileStream.Item) (rest : string_view) :
  Forall FileStream.well_typed items ->
  exists output,
    FileStream.save_all items (FileStream.mk_ofstream [] false)
    = (OkStatus, output)
    /\ FileStream.load_all (FileStream.shape_of <$> items)
         (FileStream.mk_ifstream (FileStream.written output ++ rest) false)
       = (Ok items, FileStream.mk_ifstream rest false).
Proof.
  intros Htyped. eexists. split.
  - apply FileStreamProps.save_all_writes.
  - simpl. by apply FileStreamProps.load_all_reads.
Qed.

(** [saved_items_load_back] on a count, a negative number, a key and a
    large unsigned number. *)
Lemma saved_items_load_back_witness :
  let items :=
    [FileStream.Pod FileStream.size_t 2;
     FileStream.Pod FileStream.signed_int (-7);
     FileStream.Buffer (TextExamples.view "key");
     FileStream.Pod FileStream.unsigned_int 4000000000] in
  exists output,
    FileStream.save_all items (FileStream.mk_ofstream [] false)
    = (OkStatus, output)
    /\ FileStream.load_all (FileStream.shape_of <$> items)
         (FileStream.mk_ifstream (FileStream.written output ++ []) false)
       = (Ok items, FileStream.mk_ifstream [] false).
Proof.
  apply (saved_items_load_back
           [FileStream.Pod FileStream.size_t 2;
            FileStream.Pod FileStream.signed_int (-7);
            FileStream.Buffer (TextExamples.view "key");
            FileStream.Pod FileStream.unsigned_int 4000000000] []).
  repeat constructor; simpl; lia.
Defined.

(** X28.  [loadPOD] from a stream that has failed or holds fewer bytes
    than the type has is an [Internal] error, and so is every load from
    the stream after it. *)
Theorem short_read_fails_for_good
    (T : FileStream.POD) (input : FileStream.ifstream) :
  FileStream.in_failed input = true
  \/ length (FileStream.unread input) < FileStream.sizeof T ->
  let r := FileStream.loadPOD T input in
  r.1 = Error kInternal "Error reading POD from file"
  /\ forall shapes shape,
       exists m, (FileStream.load_all (shape :: shapes) r.2).1
                 = Error kInternal m.
Proof.
  intros Hshort r.
  assert (r.1 = Error kInternal "Error reading POD from file"
          /\ FileStream.in_failed r.2 = true) as [Hr Hfailed].
  { subst r. unfold FileStream.loadPOD, FileStream.read.
    destruct (FileStream.in_failed input) eqn:Hin; simpl.
    - by rewrite Hin.
    - destruct Hshort as [?|Hshort]; [done|].
      rewrite leb_correct_conv by done. done. }
  split; [done|]. intros shapes shape.
  destruct (FileStreamProps.load_failed shape r.2 Hfailed) as [m Hm].
  exists m. simpl. by rewrite Hm.
Qed.

(** [short_read_fails_for_good] on a file of seven bytes read as a
    [size_t]. *)
Lemma short_read_fails_for_good_witness :
  let r := FileStream.loadPOD FileStream.size_t
             (FileStream.mk_ifstream (TextExamples.view "1234567") false) in
  r.1 = Error kInternal "Error reading POD from file"
  /\ forall shapes shape,
       exists m, (FileStream.load_all (shape :: shapes) r.2).1
                 = Error kInternal m.
Proof.
  apply (short_read_fails_for_good FileStream.size_t
           (FileStream.mk_ifstream (TextExamples.view "1234567") false)).
  right. simpl. lia.
Defined.
